(** * mkfilter.py: digital Butterworth / Bessel / Chebyshev filter design

    A shallow embedding of [src/mkfilter.py] (class [MkFilter], the table
    [BESSEL_POLES] and the validation in [main]) and the properties of the
    design pipeline.

    The program computes with numpy's [float64] and [complex128].  The
    embedding is written once over an arithmetic interface [Arith] (the
    scalar type, decimal literals, and the numpy / Python operations the
    source calls), so every statement about the shape of the result (which
    exception is raised, how many poles, zeros and coefficients there are,
    which coefficient is copied where) holds for any arithmetic, IEEE
    floating point included.  Statements that are about values (stability of
    the poles, the sign test that selects the Butterworth poles, invariance
    of the expansion under reordering of the roots) are proved for the
    instance [RArith] of exact real and complex arithmetic.  Where a
    statement about values holds in exact arithmetic only, the instance
    [F64Arith] of binary64 arithmetic shows what rounding and NaN do.

    Exceptions: numpy operations do not raise (a division by zero or an
    invalid operation returns [inf] or [nan] with a warning), so they are
    total functions of the interface.  What does raise is modelled: the two
    [ValueError]s of [_compute_s_plane], [IndexError] of an index out of
    range, [OverflowError] of Python's float [**], and [ZeroDivisionError]
    of Python's float division by the int [order].

    [MkFilter] is a mutable object: a method takes the object and returns an
    [outcome], the value returned or the exception raised together with the
    object as the call left it.

    [apply_filter] of [src/example_usage.py], which runs the recurrence of
    a designed filter over a signal, is embedded after the design: it reads
    the object and does not change it. *)

From Stdlib Require Import ZArith List Bool Lia.
From Stdlib Require Import Reals Lra Permutation.
From Stdlib Require Floats Uint63.
From Equations Require Import Equations.
Import ListNotations.

Set Implicit Arguments.

(** ** The arithmetic interface *)

(** A [complex128] is a pair of scalars; [np.real] and [np.imag] are the
    projections. *)
Record complex (T : Type) : Type := Cx { re : T; im : T }.

Class Arith : Type := {
  float : Type;
  (** [lit m e] is the value of a decimal literal, [m * 10^e]. *)
  lit : Z -> Z -> float;
  (** Python promotes an [int] operand of a float operation. *)
  of_int : Z -> float;
  np_pi : float;
  fadd : float -> float -> float;
  fsub : float -> float -> float;
  fmul : float -> float -> float;
  fdiv : float -> float -> float;
  fneg : float -> float;
  fltb : float -> float -> bool;
  fleb : float -> float -> bool;
  fgeb : float -> float -> bool;
  (** Python's [**] on floats raises [OverflowError] when the result is out
      of range: [None]. *)
  fpow : float -> float -> option float;
  np_sqrt : float -> float;
  np_tan : float -> float;
  np_sinh : float -> float;
  np_cosh : float -> float;
  np_arcsinh : float -> float;
  cadd : complex float -> complex float -> complex float;
  csub : complex float -> complex float -> complex float;
  cmul : complex float -> complex float -> complex float;
  cdiv : complex float -> complex float -> complex float;
  cneg : complex float -> complex float;
  (** [z ** i] for an integer exponent. *)
  cpow : complex float -> Z -> complex float;
  np_csqrt : complex float -> complex float;
  np_abs : complex float -> float;
  np_cexp : complex float -> complex float
}.

(** ** Exceptions and results *)

Inductive exn {A : Arith} : Type :=
| ValueError_ripple (chebrip : float)   (* "Chebyshev ripple is .. dB; must be < 0.0" *)
| ValueError_y (y : float)              (* "Chebyshev y=..; must be > 0.0" *)
| IndexError
| OverflowError
| ZeroDivisionError.

Inductive filter_type_t : Type := Bu | Be | Ch.
Inductive band_type_t : Type := Lp | Hp | Bp | Bs.

Definition filter_type_eqb (a b : filter_type_t) : bool :=
  match a, b with
  | Bu, Bu | Be, Be | Ch, Ch => true
  | _, _ => false
  end.

Section Embedding.

Context {A : Arith}.

Local Abbreviation C := (complex float).

(** A local computation either raises or returns. *)
Definition result (T : Type) : Type := (exn + T)%type.

Definition rbind {T U : Type} (r : result T) (k : T -> result U) : result U :=
  match r with
  | inl e => inl e
  | inr x => k x
  end.

Notation "x <- r ;; k" := (rbind r (fun x => k))
  (at level 61, r at next level, right associativity).
Notation "' p <- r ;; k" := (rbind r (fun p => k))
  (at level 61, p pattern, r at next level, right associativity).

(** [for x in xs: body], the body updating the loop's local variables [l]. *)
Fixpoint for_each {X L : Type} (xs : list X) (body : X -> L -> result L) (l : L)
  : result L :=
  match xs with
  | [] => inr l
  | x :: xs' => l' <- body x l ;; for_each xs' body l'
  end.

(** Python's [range(n)] and [range(a, b)]. *)
Definition range (n : Z) : list Z := map Z.of_nat (seq 0 (Z.to_nat n)).
Definition range2 (a b : Z) : list Z :=
  map (fun k => (a + Z.of_nat k)%Z) (seq 0 (Z.to_nat (b - a))).

(** [a[i]]: a negative index counts from the end, an index out of range
    raises [IndexError]. *)
Definition getitem {T : Type} (a : list T) (i : Z) : result T :=
  let n := Z.of_nat (length a) in
  let k := if (i <? 0)%Z then (i + n)%Z else i in
  if ((0 <=? k) && (k <? n))%Z then
    match nth_error a (Z.to_nat k) with
    | Some x => inr x
    | None => inl IndexError
    end
  else inl IndexError.

Fixpoint update {T : Type} (a : list T) (k : nat) (v : T) : list T :=
  match a, k with
  | [], _ => []
  | _ :: a', O => v :: a'
  | x :: a', S k' => x :: update a' k' v
  end.

(** [a[i] = v]. *)
Definition setitem {T : Type} (a : list T) (i : Z) (v : T) : result (list T) :=
  let n := Z.of_nat (length a) in
  let k := if (i <? 0)%Z then (i + n)%Z else i in
  if ((0 <=? k) && (k <? n))%Z then inr (update a (Z.to_nat k) v)
  else inl IndexError.

(** ** Constants *)

Definition f0 : float := lit 0 0.          (* 0.0 *)
Definition f1 : float := lit 1 0.          (* 1.0 *)
Definition f2 : float := lit 2 0.          (* 2.0 *)
Definition f05 : float := lit 5 (-1).      (* 0.5 *)
Definition f10 : float := lit 10 0.        (* 10.0 *)

Definition PI : float := np_pi.
Definition TWOPI : float := fmul f2 PI.
Definition MAXORDER : Z := 10.

(** A real operand of a complex operation is promoted to a complex with
    imaginary part [0.0]. *)
Definition of_real (x : float) : C := Cx x f0.
Definition c0 : C := Cx f0 f0.             (* 0j *)
Definition cj : C := Cx f0 f1.             (* 1j *)
Definition np_conj (z : C) : C := Cx (re z) (fneg (im z)).

(** Bessel poles table (only one member of each complex conjugate pair). *)
Definition BESSEL_POLES : list C := [
    Cx (lit (-100000000000) (-11)) (lit 0 (-11));
    Cx (lit (-110160133059) (-11)) (lit 636009824757 (-12));
    Cx (lit (-132267579991) (-11)) (lit 0 (-11));
    Cx (lit (-104740916101) (-11)) (lit 999264436281 (-12));
    Cx (lit (-137006783055) (-11)) (lit 410249717494 (-12));
    Cx (lit (-995208764350) (-12)) (lit 125710573945 (-11));
    Cx (lit (-150231627145) (-11)) (lit 0 (-11));
    Cx (lit (-138087732586) (-11)) (lit 717909587627 (-12));
    Cx (lit (-957676548563) (-12)) (lit 147112432073 (-11));
    Cx (lit (-157149040362) (-11)) (lit 320896374221 (-12));
    Cx (lit (-138185809760) (-11)) (lit 971471890712 (-12));
    Cx (lit (-930656522947) (-12)) (lit 166186326894 (-11));
    Cx (lit (-168436817927) (-11)) (lit 0 (-11));
    Cx (lit (-161203876622) (-11)) (lit 589244506931 (-12));
    Cx (lit (-137890321680) (-11)) (lit 119156677780 (-11));
    Cx (lit (-909867780623) (-12)) (lit 183645135304 (-11));
    Cx (lit (-175740840040) (-11)) (lit 272867575103 (-12));
    Cx (lit (-163693941813) (-11)) (lit 822795625139 (-12));
    Cx (lit (-137384121764) (-11)) (lit 138835657588 (-11));
    Cx (lit (-892869718847) (-12)) (lit 199832584364 (-11));
    Cx (lit (-185660050123) (-11)) (lit 0 (-11));
    Cx (lit (-180717053496) (-11)) (lit 512383730575 (-12));
    Cx (lit (-165239648458) (-11)) (lit 103138956698 (-11));
    Cx (lit (-136758830979) (-11)) (lit 156773371224 (-11));
    Cx (lit (-878399276161) (-12)) (lit 214980052431 (-11));
    Cx (lit (-192761969145) (-11)) (lit 241623471082 (-12));
    Cx (lit (-184219624443) (-11)) (lit 727257597722 (-12));
    Cx (lit (-166181024140) (-11)) (lit 122110021857 (-11));
    Cx (lit (-136069227838) (-11)) (lit 173350574267 (-11));
    Cx (lit (-865756901707) (-12)) (lit 229260483098 (-11))
  ].

(** ** The objects *)

Record PoleZeroRep : Type := mkPZ { poles : list C; zeros : list C }.

Definition PoleZeroRep_init : PoleZeroRep := mkPZ [] [].

Record MkFilter : Type := mkMkFilter {
  splane : PoleZeroRep;
  zplane : PoleZeroRep;
  order : Z;
  raw_alpha1 : float;
  raw_alpha2 : float;
  warped_alpha1 : float;
  warped_alpha2 : float;
  chebrip : float;
  filter_type : option filter_type_t;
  band_type : option band_type_t;
  use_blt : bool;
  prewarp : bool;
  xcoeffs : option (list float);
  ycoeffs : option (list float);
  dc_gain : C;
  fc_gain : C;
  hf_gain : C
}.

(** [MkFilter.__init__] *)
Definition MkFilter_init : MkFilter :=
  mkMkFilter PoleZeroRep_init PoleZeroRep_init 0 f0 f0 f0 f0 f0 None None
             true true None None (of_real f0) (of_real f0) (of_real f0).

(** What a method call leaves behind: its value or the exception it raised,
    and the object as the call left it. *)
Inductive outcome (T : Type) : Type :=
| Ret (v : T) (self : MkFilter)
| Raise (e : exn) (self : MkFilter).

Arguments Raise {T} e self.

Definition obind {T U : Type} (o : outcome T) (k : T -> MkFilter -> outcome U)
  : outcome U :=
  match o with
  | Ret v self => k v self
  | Raise e self => Raise e self
  end.

(** A local computation run inside a method. *)
Definition run {T U : Type} (r : result T) (self : MkFilter)
    (k : T -> outcome U) : outcome U :=
  match r with
  | inl e => Raise e self
  | inr v => k v
  end.

Definition set_poles (pz : PoleZeroRep) (v : list C) : PoleZeroRep :=
  mkPZ v (zeros pz).
Definition set_zeros (pz : PoleZeroRep) (v : list C) : PoleZeroRep :=
  mkPZ (poles pz) v.

Definition set_splane (self : MkFilter) (v : PoleZeroRep) : MkFilter :=
  mkMkFilter v (zplane self) (order self) (raw_alpha1 self) (raw_alpha2
      self) (warped_alpha1 self) (warped_alpha2 self) (chebrip self)
      (filter_type self) (band_type self) (use_blt self) (prewarp self)
      (xcoeffs self) (ycoeffs self) (dc_gain self) (fc_gain self) (hf_gain
      self).

Definition set_zplane (self : MkFilter) (v : PoleZeroRep) : MkFilter :=
  mkMkFilter (splane self) v (order self) (raw_alpha1 self) (raw_alpha2
      self) (warped_alpha1 self) (warped_alpha2 self) (chebrip self)
      (filter_type self) (band_type self) (use_blt self) (prewarp self)
      (xcoeffs self) (ycoeffs self) (dc_gain self) (fc_gain self) (hf_gain
      self).

Definition set_order (self : MkFilter) (v : Z) : MkFilter :=
  mkMkFilter (splane self) (zplane self) v (raw_alpha1 self) (raw_alpha2
      self) (warped_alpha1 self) (warped_alpha2 self) (chebrip self)
      (filter_type self) (band_type self) (use_blt self) (prewarp self)
      (xcoeffs self) (ycoeffs self) (dc_gain self) (fc_gain self) (hf_gain
      self).

Definition set_raw_alpha1 (self : MkFilter) (v : float) : MkFilter :=
  mkMkFilter (splane self) (zplane self) (order self) v (raw_alpha2 self)
      (warped_alpha1 self) (warped_alpha2 self) (chebrip self) (filter_type
      self) (band_type self) (use_blt self) (prewarp self) (xcoeffs self)
      (ycoeffs self) (dc_gain self) (fc_gain self) (hf_gain self).

Definition set_raw_alpha2 (self : MkFilter) (v : float) : MkFilter :=
  mkMkFilter (splane self) (zplane self) (order self) (raw_alpha1 self) v
      (warped_alpha1 self) (warped_alpha2 self) (chebrip self) (filter_type
      self) (band_type self) (use_blt self) (prewarp self) (xcoeffs self)
      (ycoeffs self) (dc_gain self) (fc_gain self) (hf_gain self).

Definition set_warped_alpha1 (self : MkFilter) (v : float) : MkFilter :=
  mkMkFilter (splane self) (zplane self) (order self) (raw_alpha1 self)
      (raw_alpha2 self) v (warped_alpha2 self) (chebrip self) (filter_type
      self) (band_type self) (use_blt self) (prewarp self) (xcoeffs self)
      (ycoeffs self) (dc_gain self) (fc_gain self) (hf_gain self).

Definition set_warped_alpha2 (self : MkFilter) (v : float) : MkFilter :=
  mkMkFilter (splane self) (zplane self) (order self) (raw_alpha1 self)
      (raw_alpha2 self) (warped_alpha1 self) v (chebrip self) (filter_type
      self) (band_type self) (use_blt self) (prewarp self) (xcoeffs self)
      (ycoeffs self) (dc_gain self) (fc_gain self) (hf_gain self).

Definition set_chebrip (self : MkFilter) (v : float) : MkFilter :=
  mkMkFilter (splane self) (zplane self) (order self) (raw_alpha1 self)
      (raw_alpha2 self) (warped_alpha1 self) (warped_alpha2 self) v
      (filter_type self) (band_type self) (use_blt self) (prewarp self)
      (xcoeffs self) (ycoeffs self) (dc_gain self) (fc_gain self) (hf_gain
      self).

Definition set_filter_type (self : MkFilter) (v : option filter_type_t) : MkFilter :=
  mkMkFilter (splane self) (zplane self) (order self) (raw_alpha1 self)
      (raw_alpha2 self) (warped_alpha1 self) (warped_alpha2 self) (chebrip
      self) v (band_type self) (use_blt self) (prewarp self) (xcoeffs self)
      (ycoeffs self) (dc_gain self) (fc_gain self) (hf_gain self).

Definition set_band_type (self : MkFilter) (v : option band_type_t) : MkFilter :=
  mkMkFilter (splane self) (zplane self) (order self) (raw_alpha1 self)
      (raw_alpha2 self) (warped_alpha1 self) (warped_alpha2 self) (chebrip
      self) (filter_type self) v (use_blt self) (prewarp self) (xcoeffs
      self) (ycoeffs self) (dc_gain self) (fc_gain self) (hf_gain self).

Definition set_use_blt (self : MkFilter) (v : bool) : MkFilter :=
  mkMkFilter (splane self) (zplane self) (order self) (raw_alpha1 self)
      (raw_alpha2 self) (warped_alpha1 self) (warped_alpha2 self) (chebrip
      self) (filter_type self) (band_type self) v (prewarp self) (xcoeffs
      self) (ycoeffs self) (dc_gain self) (fc_gain self) (hf_gain self).

Definition set_prewarp (self : MkFilter) (v : bool) : MkFilter :=
  mkMkFilter (splane self) (zplane self) (order self) (raw_alpha1 self)
      (raw_alpha2 self) (warped_alpha1 self) (warped_alpha2 self) (chebrip
      self) (filter_type self) (band_type self) (use_blt self) v (xcoeffs
      self) (ycoeffs self) (dc_gain self) (fc_gain self) (hf_gain self).

Definition set_xcoeffs (self : MkFilter) (v : option (list float)) : MkFilter :=
  mkMkFilter (splane self) (zplane self) (order self) (raw_alpha1 self)
      (raw_alpha2 self) (warped_alpha1 self) (warped_alpha2 self) (chebrip
      self) (filter_type self) (band_type self) (use_blt self) (prewarp
      self) v (ycoeffs self) (dc_gain self) (fc_gain self) (hf_gain self).

Definition set_ycoeffs (self : MkFilter) (v : option (list float)) : MkFilter :=
  mkMkFilter (splane self) (zplane self) (order self) (raw_alpha1 self)
      (raw_alpha2 self) (warped_alpha1 self) (warped_alpha2 self) (chebrip
      self) (filter_type self) (band_type self) (use_blt self) (prewarp
      self) (xcoeffs self) v (dc_gain self) (fc_gain self) (hf_gain self).

Definition set_dc_gain (self : MkFilter) (v : C) : MkFilter :=
  mkMkFilter (splane self) (zplane self) (order self) (raw_alpha1 self)
      (raw_alpha2 self) (warped_alpha1 self) (warped_alpha2 self) (chebrip
      self) (filter_type self) (band_type self) (use_blt self) (prewarp
      self) (xcoeffs self) (ycoeffs self) v (fc_gain self) (hf_gain self).

Definition set_fc_gain (self : MkFilter) (v : C) : MkFilter :=
  mkMkFilter (splane self) (zplane self) (order self) (raw_alpha1 self)
      (raw_alpha2 self) (warped_alpha1 self) (warped_alpha2 self) (chebrip
      self) (filter_type self) (band_type self) (use_blt self) (prewarp
      self) (xcoeffs self) (ycoeffs self) (dc_gain self) v (hf_gain self).

Definition set_hf_gain (self : MkFilter) (v : C) : MkFilter :=
  mkMkFilter (splane self) (zplane self) (order self) (raw_alpha1 self)
      (raw_alpha2 self) (warped_alpha1 self) (warped_alpha2 self) (chebrip
      self) (filter_type self) (band_type self) (use_blt self) (prewarp
      self) (xcoeffs self) (ycoeffs self) (dc_gain self) (fc_gain self) v.

Definition is_filter (self : MkFilter) (t : filter_type_t) : bool :=
  match filter_type self with
  | Some t' => filter_type_eqb t' t
  | None => false
  end.

(** ** [MkFilter._compute_s_plane] *)

(** The Bessel branch.  The table is a 30 x 1 array in the source; its rows
    are flattened here, so [BESSEL_POLES[p][0]] is [getitem BESSEL_POLES p]. *)
Definition bessel_poles (order : Z) (poles : list C) : result (list C) :=
  let p := (order * order / 4)%Z in
  ' (p, poles) <- (if negb (Z.land order 1 =? 0)%Z then
                     pole <- getitem BESSEL_POLES p ;;
                     inr ((p + 1)%Z, poles ++ [pole])
                   else inr (p, poles)) ;;
  ' (_, poles) <- for_each (range (order / 2))
                    (fun _ '(p, poles) =>
                       pole <- getitem BESSEL_POLES p ;;
                       inr ((p + 1)%Z, (poles ++ [pole]) ++ [np_conj pole]))
                    (p, poles) ;;
  inr poles.

(** [x / order] for a Python float [x] and the int [order]. *)
Definition py_div_int (x : float) (n : Z) : result float :=
  if (n =? 0)%Z then inl ZeroDivisionError else inr (fdiv x (of_int n)).

(** The Butterworth branch (also the base of Chebyshev). *)
Definition butterworth_poles (order : Z) (poles : list C) : result (list C) :=
  for_each (range (2 * order))
    (fun i poles =>
       theta <- (if negb (Z.land order 1 =? 0)%Z
                 then py_div_int (fmul (of_int i) PI) order
                 else py_div_int (fmul (fadd (of_int i) f05) PI) order) ;;
       let pole := np_cexp (cmul cj (of_real theta)) in
       if fltb (re pole) f0 then inr (poles ++ [pole]) else inr poles)
    poles.

(** [10.0 ** x] *)
Definition py_pow (x y : float) : result float :=
  match fpow x y with
  | Some r => inr r
  | None => inl OverflowError
  end.

(** One pole of
    [poles.real * np.sinh(y) + 1j * poles.imag * np.cosh(y)]. *)
Definition chebyshev_scale (y : float) (p : C) : C :=
  cadd (of_real (fmul (re p) (np_sinh y)))
       (cmul (cmul cj (of_real (im p))) (of_real (np_cosh y))).

Definition _compute_s_plane (self : MkFilter) : outcome unit :=
  let poles' := [] in
  run (if is_filter self Be then bessel_poles (order self) poles'
       else inr poles') self (fun poles' =>
  run (if is_filter self Bu || is_filter self Ch
       then butterworth_poles (order self) poles'
       else inr poles') self (fun poles' =>
  let self := set_splane self (set_poles (splane self) poles') in
  if is_filter self Ch then
    if fgeb (chebrip self) f0 then
      Raise (ValueError_ripple (chebrip self)) self
    else
      run (py_pow f10 (fdiv (fneg (chebrip self)) f10)) self (fun rip =>
      let eps := np_sqrt (fsub rip f1) in
      let y := fdiv (np_arcsinh (fdiv f1 eps)) (of_int (order self)) in
      if fleb y f0 then
        Raise (ValueError_y y) self
      else
        Ret tt (set_splane self
                  (set_poles (splane self)
                     (map (chebyshev_scale y) (poles (splane self))))))
  else Ret tt self)).

(** ** [MkFilter._prewarp_frequencies] *)

Definition _prewarp_frequencies (self : MkFilter) : outcome unit :=
  if negb (prewarp self) || negb (use_blt self) then
    let self := set_warped_alpha1 self (raw_alpha1 self) in
    Ret tt (set_warped_alpha2 self (raw_alpha2 self))
  else
    let self := set_warped_alpha1 self
                  (fdiv (np_tan (fmul PI (raw_alpha1 self))) PI) in
    Ret tt (set_warped_alpha2 self
              (fdiv (np_tan (fmul PI (raw_alpha2 self))) PI)).

(** ** [MkFilter._normalize] *)

(** The two poles a prototype pole gives, from [hba]. *)
Definition band_pair (w0 : float) (hba : C) : list C :=
  let temp := np_csqrt (csub (of_real f1) (cpow (cdiv (of_real w0) hba) 2)) in
  [cmul hba (cadd (of_real f1) temp); cmul hba (csub (of_real f1) temp)].

Definition _normalize (self : MkFilter) : outcome unit :=
  let w1 := fmul TWOPI (warped_alpha1 self) in
  let w2 := fmul TWOPI (warped_alpha2 self) in
  match band_type self with
  | Some Lp =>
      let self := set_splane self
        (set_poles (splane self)
           (map (fun p => cmul p (of_real w1)) (poles (splane self)))) in
      Ret tt (set_splane self (set_zeros (splane self) []))
  | Some Hp =>
      let self := set_splane self
        (set_poles (splane self)
           (map (fun p => cdiv (of_real w1) p) (poles (splane self)))) in
      Ret tt (set_splane self
                (set_zeros (splane self)
                   (repeat c0 (length (poles (splane self))))))
  | Some Bp =>
      let w0 := np_sqrt (fmul w1 w2) in
      let bw := fsub w2 w1 in
      let new_poles :=
        fold_left
          (fun new_poles pole =>
             let hba := cmul (cmul (of_real f05) pole) (of_real bw) in
             new_poles ++ band_pair w0 hba)
          (poles (splane self)) [] in
      let self := set_splane self (set_poles (splane self) new_poles) in
      Ret tt (set_splane self
                (set_zeros (splane self)
                   (repeat c0 (length (poles (splane self)) / 2))))
  | Some Bs =>
      let w0 := np_sqrt (fmul w1 w2) in
      let bw := fsub w2 w1 in
      let '(new_poles, new_zeros) :=
        fold_left
          (fun '(new_poles, new_zeros) pole =>
             let hba := cdiv (of_real (fmul f05 bw)) pole in
             (new_poles ++ band_pair w0 hba,
              (new_zeros ++ [cmul cj (of_real w0)])
                ++ [cmul (cneg cj) (of_real w0)]))
          (poles (splane self)) ([], []) in
      let self := set_splane self (set_poles (splane self) new_poles) in
      Ret tt (set_splane self (set_zeros (splane self) new_zeros))
  | None => Ret tt self
  end.

(** ** [MkFilter._compute_z_blt] *)

Definition blt (s : C) : C := cdiv (cadd (of_real f2) s) (csub (of_real f2) s).

(** [while len(zeros) < len(poles): zeros = np.append(zeros, -1.0)] *)
Equations? blt_pad (zs : list C) (npoles : nat) : list C
  by wf (npoles - length zs) lt :=
  blt_pad zs npoles with lt_dec (length zs) npoles => {
    | left _ := blt_pad (zs ++ [of_real (fneg f1)]) npoles ;
    | right _ := zs }.
Proof. rewrite length_app. simpl. lia. Qed.

Definition _compute_z_blt (self : MkFilter) : outcome unit :=
  let self := set_zplane self
                (set_poles (zplane self) (map blt (poles (splane self)))) in
  let self :=
    if (0 <? length (zeros (splane self)))%nat then
      set_zplane self (set_zeros (zplane self) (map blt (zeros (splane self))))
    else set_zplane self (set_zeros (zplane self) []) in
  Ret tt (set_zplane self
            (set_zeros (zplane self)
               (blt_pad (zeros (zplane self)) (length (poles (zplane self)))))).

(** ** [MkFilter._compute_z_mzt] *)

Definition _compute_z_mzt (self : MkFilter) : outcome unit :=
  let self := set_zplane self
                (set_poles (zplane self) (map np_cexp (poles (splane self)))) in
  if (0 <? length (zeros (splane self)))%nat then
    Ret tt (set_zplane self
              (set_zeros (zplane self) (map np_cexp (zeros (splane self)))))
  else Ret tt (set_zplane self (set_zeros (zplane self) [])).

(** ** [MkFilter._expand] and [MkFilter._evaluate] *)

(** The body of [for root in roots]. *)
Definition _expand_step (root : C) (coeffs : list C) : result (list C) :=
  let new_coeffs := repeat c0 (length coeffs + 1) in
  a <- getitem coeffs 0 ;;
  new_coeffs <- setitem new_coeffs 0 (cmul (cneg root) a) ;;
  new_coeffs <- for_each (range2 1 (Z.of_nat (length coeffs)))
                  (fun i new_coeffs =>
                     a <- getitem coeffs (i - 1) ;;
                     b <- getitem coeffs i ;;
                     setitem new_coeffs i (csub a (cmul root b)))
                  new_coeffs ;;
  a <- getitem coeffs (-1) ;;
  setitem new_coeffs (-1) a.

Definition _expand (roots : list C) : result (list C) :=
  if (length roots =? 0)%nat then inr [of_real f1]
  else
    let coeffs := [of_real f1] in
    for_each roots _expand_step coeffs.

Definition enumerate {T : Type} (l : list T) : list (Z * T) :=
  combine (range (Z.of_nat (length l))) l.

(** [sum(c * z**i for i, c in enumerate(coeffs))]; [sum] starts from [0].
    [z] is [1.0], [-1.0] or a complex; a real [z] is promoted. *)
Definition poly_sum (coeffs : list C) (z : C) : C :=
  fold_left (fun acc '(i, c) => cadd acc (cmul c (cpow z i)))
            (enumerate coeffs) (of_real (of_int 0)).

Definition _evaluate (topcoeffs botcoeffs : list C) (z : C) : C :=
  let top := poly_sum topcoeffs z in
  let bot := poly_sum botcoeffs z in
  cdiv top bot.

(** ** [MkFilter._expand_poly] *)

Definition _expand_poly (self : MkFilter) : outcome unit :=
  run (_expand (zeros (zplane self))) self (fun topcoeffs =>
  run (_expand (poles (zplane self))) self (fun botcoeffs =>
  let self := set_dc_gain self (_evaluate topcoeffs botcoeffs (of_real f1)) in
  let theta := fmul (fmul TWOPI f05) (fadd (raw_alpha1 self) (raw_alpha2 self)) in
  let self := set_fc_gain self
                (_evaluate topcoeffs botcoeffs
                   (np_cexp (cmul cj (of_real theta)))) in
  let self := set_hf_gain self
                (_evaluate topcoeffs botcoeffs (of_real (fneg f1))) in
  run (getitem botcoeffs (-1)) self (fun b =>
  let self := set_xcoeffs self
                (Some (map (fun c => fdiv (re c) (re b)) topcoeffs)) in
  run (getitem botcoeffs (-1)) self (fun b =>
  Ret tt (set_ycoeffs self
            (Some (map (fun c => fdiv (fneg (re c)) (re b)) botcoeffs))))))).

(** ** [MkFilter.design] *)

Definition design (self : MkFilter) (ft : filter_type_t) (bt : band_type_t)
    (n : Z) (alpha1 : float) (alpha2 : option float) (rip : float)
    (blt_flag prewarp_flag : bool)
  : outcome (option (list float) * option (list float)) :=
  let self := set_filter_type self (Some ft) in
  let self := set_band_type self (Some bt) in
  let self := set_order self n in
  let self := set_raw_alpha1 self alpha1 in
  let self := set_raw_alpha2 self
                (match alpha2 with Some a => a | None => alpha1 end) in
  let self := set_chebrip self rip in
  let self := set_use_blt self blt_flag in
  let self := set_prewarp self prewarp_flag in
  obind (_compute_s_plane self) (fun _ self =>
  obind (_prewarp_frequencies self) (fun _ self =>
  obind (_normalize self) (fun _ self =>
  obind (if blt_flag then _compute_z_blt self else _compute_z_mzt self)
        (fun _ self =>
  obind (_expand_poly self) (fun _ self =>
  Ret (xcoeffs self, ycoeffs self) self))))).

(** ** [MkFilter.get_gain] *)

Definition get_gain (self : MkFilter) : float :=
  match band_type self with
  | Some Lp => np_abs (dc_gain self)
  | Some Hp => np_abs (hf_gain self)
  | Some Bp => np_abs (fc_gain self)
  | Some Bs => np_abs (np_csqrt (cmul (dc_gain self) (hf_gain self)))
  | None => f1
  end.

End Embedding.

Arguments Ret {A T} v self.
Arguments Raise {A T} e self.

Notation "x <- r ;; k" := (rbind r (fun x => k))
  (at level 61, r at next level, right associativity).
Notation "' p <- r ;; k" := (rbind r (fun p => k))
  (at level 61, p pattern, r at next level, right associativity).

(** ** The validation in [main] *)

Section Main.

Context {A : Arith}.

(** The parsed command line.  Exactly one of [-Bu], [-Be], [-Ch RIPPLE] and
    exactly one of [-Lp], [-Hp], [-Bp], [-Bs] is given (required, mutually
    exclusive groups). *)
Inductive ftype_arg : Type :=
| Arg_Bu
| Arg_Be
| Arg_Ch (ripple : float).

Record Args : Type := mkArgs {
  arg_ftype : ftype_arg;
  arg_band_type : band_type_t;
  arg_order : Z;
  arg_alpha : list float;
  arg_use_blt : bool;
  arg_prewarp : bool
}.

Definition is_band (b : band_type_t) (l : list band_type_t) : bool :=
  existsb (fun b' => match b, b' with
                     | Lp, Lp | Hp, Hp | Bp, Bp | Bs, Bs => true
                     | _, _ => false
                     end) l.

(** [main] from [parser.parse_args()] on: the exit status, and the call of
    [design] it made, if it made one.  The output stage that follows a
    successful [design] only prints and is left out: the status after a
    successful [design] is that of a run whose printing completes. *)
Definition main (args : Args)
  : Z * option (outcome (option (list float) * option (list float))) :=
  if ((arg_order args <? 1) || (arg_order args >? MAXORDER))%Z then (1%Z, None)
  else if is_band (arg_band_type args) [Bp; Bs]
          && negb (length (arg_alpha args) =? 2)%nat then (1%Z, None)
  else if is_band (arg_band_type args) [Lp; Hp]
          && negb (length (arg_alpha args) =? 1)%nat then (1%Z, None)
  else
    let '(filter_type, chebrip) :=
      match arg_ftype args with
      | Arg_Ch r => (Ch, r)
      | Arg_Bu => (Bu, fneg f1)
      | Arg_Be => (Be, fneg f1)
      end in
    let mkf := MkFilter_init in
    match getitem (arg_alpha args) 0 with
    | inl _ => (1%Z, None)
    | inr alpha1 =>
        match (if (1 <? length (arg_alpha args))%nat
               then a <- getitem (arg_alpha args) 1 ;; inr (Some a)
               else inr None) with
        | inl _ => (1%Z, None)
        | inr alpha2 =>
            let o := design mkf filter_type (arg_band_type args)
                            (arg_order args) alpha1 alpha2 chebrip
                            (arg_use_blt args) (arg_prewarp args) in
            match o with
            | Ret _ _ => (0%Z, Some o)
            | Raise _ _ => (1%Z, Some o)
            end
        end
    end.

End Main.

(** ** Exact arithmetic *)

Local Open Scope R_scope.

Definition Rltb (x y : R) : bool := if Rlt_dec x y then true else false.
Definition Rleb (x y : R) : bool := if Rle_dec x y then true else false.
Definition Rgeb (x y : R) : bool := if Rge_dec x y then true else false.

Definition Rc_add (a b : complex R) : complex R :=
  Cx (re a + re b) (im a + im b).
Definition Rc_sub (a b : complex R) : complex R :=
  Cx (re a - re b) (im a - im b).
Definition Rc_mul (a b : complex R) : complex R :=
  Cx (re a * re b - im a * im b) (re a * im b + im a * re b).
Definition Rc_div (a b : complex R) : complex R :=
  let d := re b * re b + im b * im b in
  Cx ((re a * re b + im a * im b) / d) ((im a * re b - re a * im b) / d).
Definition Rc_neg (a : complex R) : complex R := Cx (- re a) (- im a).

Fixpoint Rc_pow_nat (z : complex R) (n : nat) : complex R :=
  match n with
  | O => Cx 1 0
  | S n' => Rc_mul z (Rc_pow_nat z n')
  end.

Definition Rc_pow (z : complex R) (n : Z) : complex R :=
  match n with
  | Zneg p => Rc_div (Cx 1 0) (Rc_pow_nat z (Pos.to_nat p))
  | _ => Rc_pow_nat z (Z.to_nat n)
  end.

(** The modulus, [np.abs]. *)
Definition Rc_abs (z : complex R) : R := sqrt (re z * re z + im z * im z).

(** The principal square root: real part [>= 0]; on the negative real axis
    the imaginary part is [>= 0]. *)
Definition Rc_sqrt (z : complex R) : complex R :=
  let m := Rc_abs z in
  Cx (sqrt ((m + re z) / 2))
     (if Rlt_dec (im z) 0 then - sqrt ((m - re z) / 2)
      else sqrt ((m - re z) / 2)).

Definition Rc_exp (z : complex R) : complex R :=
  Cx (exp (re z) * cos (im z)) (exp (re z) * sin (im z)).

#[export] Instance RArith : Arith := {|
  float := R;
  lit := fun m e => IZR m * powerRZ 10 e;
  of_int := IZR;
  np_pi := Rtrigo1.PI;
  fadd := Rplus;
  fsub := Rminus;
  fmul := Rmult;
  fdiv := Rdiv;
  fneg := Ropp;
  fltb := Rltb;
  fleb := Rleb;
  fgeb := Rgeb;
  fpow := fun x y => Some (Rpower x y);
  np_sqrt := sqrt;
  np_tan := tan;
  np_sinh := sinh;
  np_cosh := cosh;
  np_arcsinh := arcsinh;
  cadd := Rc_add;
  csub := Rc_sub;
  cmul := Rc_mul;
  cdiv := Rc_div;
  cneg := Rc_neg;
  cpow := Rc_pow;
  np_csqrt := Rc_sqrt;
  np_abs := Rc_abs;
  np_cexp := Rc_exp
|}.

Local Close Scope R_scope.

(** ** Derived definitions used by the statements and proofs *)

Section Derived.

Context {A : Arith}.

Local Abbreviation C := (complex float).

(** The position [a[i]] denotes in a sequence of length [n]. *)
Definition index_of (n : nat) (i : Z) : Z :=
  if (i <? 0)%Z then (i + Z.of_nat n)%Z else i.

(** Coefficient [i] of the vector one step of [_expand] builds. *)
Definition expand_elem (root : C) (coeffs : list C) (i : nat) : C :=
  if (i =? 0)%nat then cmul (cneg root) (nth 0 coeffs c0)
  else if (i <? length coeffs)%nat then
         csub (nth (i - 1) coeffs c0) (cmul root (nth i coeffs c0))
       else nth (length coeffs - 1) coeffs c0.

Definition expand_step_list (root : C) (coeffs : list C) : list C :=
  map (expand_elem root coeffs) (seq 0 (length coeffs + 1)).

(** What the loop of [_expand] computes. *)
Definition expand_list (roots : list C) : list C :=
  fold_left (fun coeffs root => expand_step_list root coeffs) roots [of_real f1].

Definition state_of {T : Type} (o : outcome T) : MkFilter :=
  match o with
  | Ret _ self => self
  | Raise _ self => self
  end.

(** The state [_expand_poly] leaves. *)
Definition expand_poly_state (self : MkFilter) : MkFilter :=
  let topcoeffs := expand_list (zeros (zplane self)) in
  let botcoeffs := expand_list (poles (zplane self)) in
  let self := set_dc_gain self (_evaluate topcoeffs botcoeffs (of_real f1)) in
  let theta := fmul (fmul TWOPI f05) (fadd (raw_alpha1 self) (raw_alpha2 self)) in
  let self := set_fc_gain self
                (_evaluate topcoeffs botcoeffs
                   (np_cexp (cmul cj (of_real theta)))) in
  let self := set_hf_gain self
                (_evaluate topcoeffs botcoeffs (of_real (fneg f1))) in
  let self := set_xcoeffs self
                (Some (map (fun c => fdiv (re c) (re (of_real f1))) topcoeffs)) in
  set_ycoeffs self
    (Some (map (fun c => fdiv (fneg (re c)) (re (of_real f1))) botcoeffs)).

(** The object after the stages that follow [_compute_s_plane]. *)
Definition pipeline (self : MkFilter) (blt_flag : bool) : MkFilter :=
  let self := state_of (_prewarp_frequencies self) in
  let self := state_of (_normalize self) in
  let self := state_of (if blt_flag then _compute_z_blt self
                        else _compute_z_mzt self) in
  expand_poly_state self.

(** The object after the assignments that open [design]. *)
Definition design_entry (self : MkFilter) (ft : filter_type_t)
    (bt : band_type_t) (n : Z) (alpha1 : float) (alpha2 : option float)
    (rip : float) (blt_flag prewarp_flag : bool) : MkFilter :=
  let self := set_filter_type self (Some ft) in
  let self := set_band_type self (Some bt) in
  let self := set_order self n in
  let self := set_raw_alpha1 self alpha1 in
  let self := set_raw_alpha2 self
                (match alpha2 with Some a => a | None => alpha1 end) in
  let self := set_chebrip self rip in
  let self := set_use_blt self blt_flag in
  set_prewarp self prewarp_flag.

(** The local list [poles] of [_compute_s_plane] when it is stored in
    [self.splane.poles]. *)
Definition prototype_poles (ft : filter_type_t) (n : Z) : result (list C) :=
  poles' <- (if filter_type_eqb ft Be then bessel_poles n [] else inr []) ;;
  if filter_type_eqb ft Bu || filter_type_eqb ft Ch
  then butterworth_poles n poles'
  else inr poles'.

(** The Chebyshev checks of [_compute_s_plane] and the value of [y]. *)
Definition chebyshev_y (rip : float) (n : Z) : result float :=
  if fgeb rip f0 then inl (ValueError_ripple rip)
  else
    rip' <- py_pow f10 (fdiv (fneg rip) f10) ;;
    let eps := np_sqrt (fsub rip' f1) in
    let y := fdiv (np_arcsinh (fdiv f1 eps)) (of_int n) in
    if fleb y f0 then inl (ValueError_y y) else inr y.

(** What an outcome carries apart from the object. *)
Definition value_of {T : Type} (o : outcome T) : result T :=
  match o with
  | Ret v _ => inr v
  | Raise e _ => inl e
  end.

(** The poles [_compute_s_plane] stores on success. *)
Definition s_plane_poles (ft : filter_type_t) (n : Z) (rip : float)
  : result (list C) :=
  ps <- prototype_poles ft n ;;
  if filter_type_eqb ft Ch then
    y <- chebyshev_y rip n ;; inr (map (chebyshev_scale y) ps)
  else inr ps.

(** The warped corner frequency of [_prewarp_frequencies]. *)
Definition warp (blt_flag prewarp_flag : bool) (alpha : float) : float :=
  if negb prewarp_flag || negb blt_flag then alpha
  else fdiv (np_tan (fmul PI alpha)) PI.

(** The analog poles and zeros [_normalize] stores, from the prototype poles
    [ps] and [w1], [w2]. *)
Definition band_poles (bt : band_type_t) (w1 w2 : float) (ps : list C)
  : list C :=
  match bt with
  | Lp => map (fun p => cmul p (of_real w1)) ps
  | Hp => map (fun p => cdiv (of_real w1) p) ps
  | Bp => flat_map (fun p => band_pair (np_sqrt (fmul w1 w2))
                               (cmul (cmul (of_real f05) p)
                                     (of_real (fsub w2 w1)))) ps
  | Bs => flat_map (fun p => band_pair (np_sqrt (fmul w1 w2))
                               (cdiv (of_real (fmul f05 (fsub w2 w1))) p)) ps
  end.

Definition band_zeros (bt : band_type_t) (w1 w2 : float) (ps : list C)
  : list C :=
  match bt with
  | Lp => []
  | Hp => repeat c0 (length ps)
  | Bp => repeat c0 (length (band_poles Bp w1 w2 ps) / 2)
  | Bs => flat_map (fun _ => [cmul cj (of_real (np_sqrt (fmul w1 w2)));
                              cmul (cneg cj) (of_real (np_sqrt (fmul w1 w2)))])
                   ps
  end.

(** The digital poles and zeros of the domain mapping. *)
Definition z_poles (blt_flag : bool) (sp : list C) : list C :=
  if blt_flag then map blt sp else map np_cexp sp.

Definition z_zeros (blt_flag : bool) (sz : list C) (npoles : nat) : list C :=
  if blt_flag then blt_pad (map blt sz) npoles else map np_cexp sz.

(** The digital poles and zeros of a design whose [_compute_s_plane]
    returned the poles [ps]. *)
Definition design_z_poles (bt : band_type_t) (alpha1 : float)
    (alpha2 : option float) (blt_flag prewarp_flag : bool) (ps : list C)
  : list C :=
  let a2 := match alpha2 with Some a => a | None => alpha1 end in
  let w1 := fmul TWOPI (warp blt_flag prewarp_flag alpha1) in
  let w2 := fmul TWOPI (warp blt_flag prewarp_flag a2) in
  z_poles blt_flag (band_poles bt w1 w2 ps).

Definition design_z_zeros (bt : band_type_t) (alpha1 : float)
    (alpha2 : option float) (blt_flag prewarp_flag : bool) (ps : list C)
  : list C :=
  let a2 := match alpha2 with Some a => a | None => alpha1 end in
  let w1 := fmul TWOPI (warp blt_flag prewarp_flag alpha1) in
  let w2 := fmul TWOPI (warp blt_flag prewarp_flag a2) in
  z_zeros blt_flag (band_zeros bt w1 w2 ps)
          (length (band_poles bt w1 w2 ps)).

(** The object a successful [design] leaves, from the poles [ps] that
    [_compute_s_plane] stored. *)
Definition design_final (ft : filter_type_t) (bt : band_type_t) (n : Z)
    (alpha1 : float) (alpha2 : option float) (rip : float)
    (blt_flag prewarp_flag : bool) (ps : list C) : MkFilter :=
  let entry := design_entry MkFilter_init ft bt n alpha1 alpha2 rip
                            blt_flag prewarp_flag in
  pipeline (set_splane entry (set_poles (splane entry) ps)) blt_flag.

(** The angle of candidate [i] in the Butterworth loop, and the candidate. *)
Definition butterworth_theta (n i : Z) : float :=
  if negb (Z.land n 1 =? 0)%Z
  then fdiv (fmul (of_int i) PI) (of_int n)
  else fdiv (fmul (fadd (of_int i) f05) PI) (of_int n).

Definition butterworth_pole (n i : Z) : C :=
  np_cexp (cmul cj (of_real (butterworth_theta n i))).

(** In exact arithmetic [butterworth_theta n i] is [m * pi / (2 n)] for
    [m = 2 i] (odd order) or [m = 2 i + 1] (even order). *)
Definition theta_index (n i : Z) : Z :=
  if negb (Z.land n 1 =? 0)%Z then (2 * i)%Z else (2 * i + 1)%Z.

(** Coefficient [i - 1] of a coefficient vector, [0] for [i = 0]. *)
Definition shifted (coeffs : list (complex R)) (i : nat) : complex R :=
  match i with
  | O => Cx 0%R 0%R
  | S j => nth j coeffs (Cx 0%R 0%R)
  end.

(** The family and ripple [main] passes to [design]. *)
Definition main_filter (args : Args) : filter_type_t * float :=
  match arg_ftype args with
  | Arg_Ch r => (Ch, r)
  | Arg_Bu => (Bu, fneg f1)
  | Arg_Be => (Be, fneg f1)
  end.

(** The exit status of [main] after the call of [design]. *)
Definition exit_status {T : Type} (o : outcome T) : Z :=
  match o with
  | Ret _ _ => 0%Z
  | Raise _ _ => 1%Z
  end.

(** The value of the polynomial with the coefficients [coeffs], lowest
    degree first, at [z] (Horner), and the product of a list, in exact
    arithmetic. *)
Fixpoint Rpoly (coeffs : list (complex R)) (z : complex R) : complex R :=
  match coeffs with
  | [] => Cx 0%R 0%R
  | a :: coeffs' => Rc_add a (Rc_mul z (Rpoly coeffs' z))
  end.

Definition Rc_prod (l : list (complex R)) : complex R :=
  fold_right Rc_mul (Cx 1%R 0%R) l.

(** [a] added to the first coefficient. *)
Definition head_add (a : complex R) (l : list (complex R))
  : list (complex R) :=
  match l with
  | [] => [a]
  | x :: l' => Rc_add a x :: l'
  end.

End Derived.

(** * example_usage.py: [apply_filter]

    [apply_filter(signal, mkf)] runs the recurrence of a designed filter
    over a one-dimensional array of samples, with two shift buffers.

    The signal is a numpy array of [float64], as the docstring says, so
    [sample / gain] is numpy's division, which does not raise.

    [np.dot] of two one-dimensional arrays is their inner product; numpy
    leaves the order in which the products are accumulated to the BLAS it
    is linked with, so the operation is a member of an interface of its
    own.  It raises [ValueError] when the lengths differ, which is
    modelled in [dot]. *)

Class Linalg (A : Arith) : Type := {
  np_dot : list float -> list float -> float
}.

Inductive usage_exn {A : Arith} : Type :=
| Exn (e : exn)          (* an exception of mkfilter.py's kinds *)
| TypeError              (* len() of None *)
| ValueError_dims        (* np.zeros() of a negative length *)
| ValueError_shapes.     (* np.dot() of arrays of different lengths *)

Section Usage.

Context {A : Arith} {L : Linalg A}.

Definition uresult (T : Type) : Type := (usage_exn + T)%type.

Definition ubind {T U : Type} (r : uresult T) (k : T -> uresult U)
  : uresult U :=
  match r with
  | inl e => inl e
  | inr x => k x
  end.

Notation "x <~ r ;; k" := (ubind r (fun x => k))
  (at level 61, r at next level, right associativity).

Definition lift {T : Type} (r : result T) : uresult T :=
  match r with
  | inl e => inl (Exn e)
  | inr x => inr x
  end.

(** [for x in xs: body] in [apply_filter]. *)
Fixpoint ufor {X S : Type} (xs : list X) (body : X -> S -> uresult S) (s : S)
  : uresult S :=
  match xs with
  | [] => inr s
  | x :: xs' => s' <~ body x s ;; ufor xs' body s'
  end.

(** [np.zeros(n)] *)
Definition np_zeros (n : Z) : uresult (list float) :=
  if (n <? 0)%Z then inl ValueError_dims else inr (repeat f0 (Z.to_nat n)).

(** [np.dot(a, b)] *)
Definition dot (a b : list float) : uresult float :=
  if Nat.eqb (length a) (length b) then inr (np_dot a b)
  else inl ValueError_shapes.

(** [a[:-1]] *)
Definition but_last {T : Type} (a : list T) : list T :=
  firstn (length a - 1) a.

(** [a[:-1] = a[1:]]: every element but the last is replaced by its
    successor. *)
Definition shift {T : Type} (a : list T) : list T :=
  tl a ++ skipn (length a - 1) a.

(** The body of the loop over the samples; the loop's variables are the two
    buffers and the output array. *)
Definition apply_filter_body (xcoeffs ycoeffs : list float) (gain : float)
    (ns : Z * float) (st : list float * list float * list float)
  : uresult (list float * list float * list float) :=
  let '(n, sample) := ns in
  let '(xv, yv, output) := st in
  let xv := shift xv in
  xv <~ lift (setitem xv (-1) (fdiv sample gain)) ;;
  let yv := shift yv in
  d1 <~ dot xcoeffs xv ;;
  d2 <~ dot (but_last ycoeffs) (but_last yv) ;;
  yv <~ lift (setitem yv (-1) (fadd d1 d2)) ;;
  y <~ lift (getitem yv (-1)) ;;
  output <~ lift (setitem output n y) ;;
  inr (xv, yv, output).

Definition apply_filter (signal : list float) (mkf : MkFilter)
  : uresult (list float) :=
  let gain := get_gain mkf in
  match xcoeffs mkf, ycoeffs mkf with
  | Some xcoeffs, Some ycoeffs =>
      let nzeros := (Z.of_nat (length xcoeffs) - 1)%Z in
      let npoles := (Z.of_nat (length ycoeffs) - 1)%Z in
      xv <~ np_zeros (nzeros + 1) ;;
      yv <~ np_zeros (npoles + 1) ;;
      output <~ np_zeros (Z.of_nat (length signal)) ;;
      st <~ ufor (enumerate signal)
                 (apply_filter_body xcoeffs ycoeffs gain) (xv, yv, output) ;;
      inr (snd st)
  | _, _ => inl TypeError    (* len(None) *)
  end.

(** The recurrence the loop computes, as a function of the history: the
    last [m] elements of [l], the history before the first element being
    [m] zeros. *)
Definition window (m : nat) (l : list float) : list float :=
  skipn (length l) (repeat f0 m ++ l).

(** One pass of the loop's body on the buffers, and the outputs of the
    passes over a list of samples. *)
Definition filter_step (xcoeffs ycoeffs : list float) (gain : float)
    (st : list float * list float) (sample : float)
  : list float * list float :=
  let xv := tl (fst st) ++ [fdiv sample gain] in
  let y := fadd (np_dot xcoeffs xv) (np_dot (but_last ycoeffs) (tl (snd st))) in
  (xv, tl (snd st) ++ [y]).

Fixpoint filter_run (xcoeffs ycoeffs : list float) (gain : float)
    (st : list float * list float) (signal : list float) : list float :=
  match signal with
  | [] => []
  | sample :: signal' =>
      let st' := filter_step xcoeffs ycoeffs gain st sample in
      last (snd st') f0 :: filter_run xcoeffs ycoeffs gain st' signal'
  end.

End Usage.

(** The inner product in exact arithmetic. *)
Definition Rdot (a b : list R) : R :=
  fold_left (fun acc p => (acc + fst p * snd p)%R) (combine a b) 0%R.

#[export] Instance RLinalg : Linalg RArith := {| np_dot := Rdot |}.

(** [a * u + v], element by element. *)
Definition Rlin (a : R) (u v : list R) : list R :=
  map (fun p => (a * fst p + snd p)%R) (combine u v).

(** * Binary64 arithmetic

    numpy's [float64] and Python's [float] are IEEE 754 binary64 numbers.
    Rocq's primitive floats are the same numbers with the same [+], [-],
    [*], [/], [sqrt] and comparisons (round to nearest, ties to even; a
    comparison with NaN is false), so these operations of the instance
    [F64Arith] are the program's to the last bit, and so are the literals
    (a decimal literal is the nearest binary64 number).

    IEEE 754 does not fix the elementary functions ([exp], [log], [sin],
    [cos], ...) to the last bit; numpy takes them from the C library.
    Here they are computed from the basic operations by argument
    reduction and Taylor polynomials: approximations of the C library's
    functions (within a few units in the last place for arguments of
    moderate size), with NaN for a NaN argument.  The instance serves to
    exhibit the effects of rounding and of NaN, which exact arithmetic
    does not have; what is proved with it does not depend on the last
    bits of an elementary function. *)

Module F64.

Import PrimFloat.
Local Open Scope float_scope.

(** [n / d] for [n, d > 0], rounded to the nearest binary64 number, ties
    to even. *)
Definition round_pos (n d : Z) : float :=
  let e0 := (Z.log2 n - Z.log2 d)%Z in
  let e2 := if (d * 2 ^ Z.max 0 e0 <=? n * 2 ^ Z.max 0 (- e0))%Z
            then e0 else (e0 - 1)%Z in
  let e := Z.max (e2 - 52) (-1074) in
  let num := (n * 2 ^ Z.max 0 (- e))%Z in
  let den := (d * 2 ^ Z.max 0 e)%Z in
  let q := (num / den)%Z in
  let m := match (2 * (num mod den) ?= den)%Z with
           | Gt => (q + 1)%Z
           | Eq => if Z.even q then q else (q + 1)%Z
           | Lt => q
           end in
  FloatOps.Z.ldexp (of_uint63 (Uint63.of_Z m)) e.

Definition round_ratio (n d : Z) : float :=
  match n with
  | Z0 => zero
  | Zpos _ => round_pos n d
  | Zneg p => opp (round_pos (Zpos p) d)
  end.

(** An [int] operand of a float operation. *)
Definition of_Z (n : Z) : float := round_ratio n 1.

(** The decimal literal [m * 10^e]. *)
Definition lit (m e : Z) : float :=
  if (0 <=? e)%Z then round_ratio (m * 10 ^ e) 1
  else round_ratio m (10 ^ (- e)).

Definition is_nan (x : float) : bool := negb (x =? x).

(** The integer nearest to [x], as a float, for [|x| < 2^51]; and the
    integer an integral float stands for. *)
Definition rint (x : float) : float := (x + 0x1.8p+52) - 0x1.8p+52.

Definition to_Z (x : float) : Z :=
  match FloatOps.Prim2SF x with
  | SpecFloat.S754_finite s m e =>
      let v := if (0 <=? e)%Z then (Zpos m * 2 ^ e)%Z
               else (Zpos m / 2 ^ (- e))%Z in
      if s then (- v)%Z else v
  | _ => 0%Z
  end.

(** [1 + t/n1 * (1 + t/n2 * (1 + ...))] for the divisors [n1; n2; ...]. *)
Fixpoint nest (t : float) (divisors : list Z) : float :=
  match divisors with
  | [] => 1
  | n :: divisors' => 1 + t / of_Z n * nest t divisors'
  end.

(** [ln 2] in two parts, and [1 / ln 2]. *)
Definition LN2_HI : float := 0x1.62e42feep-1.
Definition LN2_LO : float := 0x1.a39ef35793c76p-33.
Definition INV_LN2 : float := 0x1.71547652b82fep+0.

Definition exp (x : float) : float :=
  if is_nan x then x
  else if 0x1.62e42fefa39efp+9 <? x then infinity
  else if x <? -0x1.74910d52d3051p+9 then 0
  else
    let k := rint (x * INV_LN2) in
    let r := (x - k * LN2_HI) - k * LN2_LO in
    FloatOps.Z.ldexp
      (nest r [1; 2; 3; 4; 5; 6; 7; 8; 9; 10; 11; 12; 13; 14]%Z) (to_Z k).

(** [2 * atanh s] by its series, for [|s| < 0.2]. *)
Definition atanh2 (s : float) : float :=
  let z := s * s in
  2 * s * (1 + z * (1 / 3 + z * (1 / 5 + z * (1 / 7 + z * (1 / 9 + z * (1 / 11
    + z * (1 / 13 + z * (1 / 15 + z * (1 / 17 + z * (1 / 19 + z * (1 / 21
    + z / 23))))))))))).

Definition log (x : float) : float :=
  if is_nan x then x
  else if x <? 0 then nan
  else if x =? 0 then neg_infinity
  else if x =? infinity then x
  else
    let (m, e) := FloatOps.Z.frexp x in
    let (m, e) := if m <? 0x1.6a09e667f3bcdp-1 then (2 * m, (e - 1)%Z)
                  else (m, e) in
    let k := of_Z e in
    k * LN2_HI + (atanh2 ((m - 1) / (m + 1)) + k * LN2_LO).

Definition log1p (u : float) : float :=
  if (-0x1p-2 <? u) && (u <? 0x1p-2) then atanh2 (u / (2 + u))
  else log (1 + u).

(** [pi / 2] in three parts, and [2 / pi]. *)
Definition PIO2_1 : float := 0x1.921fb544p+0.
Definition PIO2_2 : float := 0x1.0b4611a6p-34.
Definition PIO2_3 : float := 0x1.3198a2e037073p-69.
Definition INV_PIO2 : float := 0x1.45f306dc9c883p-1.

Definition sin_k (r : float) : float :=
  r * nest (- (r * r)) [6; 20; 42; 72; 110; 156; 210; 272; 342]%Z.
Definition cos_k (r : float) : float :=
  nest (- (r * r)) [2; 12; 30; 56; 90; 132; 182; 240; 306]%Z.

(** [(cos x, sin x)]: the argument is reduced by the multiple of [pi / 2]
    nearest to it. *)
Definition cos_sin (x : float) : float * float :=
  let k := rint (x * INV_PIO2) in
  let r := ((x - k * PIO2_1) - k * PIO2_2) - k * PIO2_3 in
  let c := cos_k r in
  let s := sin_k r in
  match (to_Z k mod 4)%Z with
  | 0%Z => (c, s)
  | 1%Z => (- s, c)
  | 2%Z => (- c, - s)
  | _ => (s, - c)
  end.

Definition tan (x : float) : float :=
  let (c, s) := cos_sin x in s / c.

Definition sinh (x : float) : float :=
  let a := abs x in
  if a <? 0x1p-1 then
    x * nest (x * x) [6; 20; 42; 72; 110; 156; 210; 272]%Z
  else
    let h := if a <? 0x1.6p+9 then (exp a - 1 / exp a) / 2
             else exp (a / 2) / 2 * exp (a / 2) in
    if x <? 0 then - h else h.

Definition cosh (x : float) : float :=
  let a := abs x in
  if a <? 0x1.6p+9 then (exp a + 1 / exp a) / 2
  else exp (a / 2) / 2 * exp (a / 2).

Definition arcsinh (x : float) : float :=
  let a := abs x in
  if is_nan x then x
  else if a <? 0x1p-28 then x
  else
    let h := if 0x1p+28 <? a then log a + (LN2_HI + LN2_LO)
             else log1p (a + a * a / (1 + sqrt (1 + a * a))) in
    if x <? 0 then - h else h.

(** Python's [x ** y] on floats for a base [x > 0] (the program's base is
    [10.0]); [None] is [OverflowError], raised when the result of finite
    operands is out of range. *)
Definition pow (x y : float) : option float :=
  if y =? 0 then Some 1
  else if x =? 1 then Some 1
  else if is_nan x || is_nan y then Some nan
  else if 0 <? x then
    let r := exp (y * log x) in
    if (r =? infinity) && negb (x =? infinity) && negb (abs y =? infinity)
    then None else Some r
  else Some nan.

Definition hypot (a b : float) : float :=
  let a := abs a in
  let b := abs b in
  if (a =? infinity) || (b =? infinity) then infinity
  else
    let m := if a <? b then b else a in
    let n := if a <? b then a else b in
    if m =? 0 then m else m * sqrt (1 + n / m * (n / m)).

(** The operations of [complex128]. *)
Definition cadd (x y : complex float) : complex float :=
  Cx (re x + re y) (im x + im y).
Definition csub (x y : complex float) : complex float :=
  Cx (re x - re y) (im x - im y).
Definition cneg (x : complex float) : complex float :=
  Cx (- re x) (- im x).
Definition cmul (x y : complex float) : complex float :=
  Cx (re x * re y - im x * im y) (re x * im y + im x * re y).

(** numpy divides by Smith's method. *)
Definition cdiv (x y : complex float) : complex float :=
  if abs (im y) <=? abs (re y) then
    if (abs (re y) =? 0) && (abs (im y) =? 0)
    then Cx (re x / abs (re y)) (im x / abs (re y))
    else
      let rat := im y / re y in
      let scl := 1 / (re y + im y * rat) in
      Cx ((re x + im x * rat) * scl) ((im x - re x * rat) * scl)
  else
    let rat := re y / im y in
    let scl := 1 / (im y + re y * rat) in
    Cx ((re x * rat + im x) * scl) ((im x * rat - re x) * scl).

(** [z ** n] for an integer [n], by repeated squaring. *)
Definition cpow (z : complex float) (n : Z) : complex float :=
  match n with
  | Z0 => Cx 1 0
  | Zpos p => Pos.iter_op cmul p z
  | Zneg p => cdiv (Cx 1 0) (Pos.iter_op cmul p z)
  end.

(** The principal square root. *)
Definition csqrt (z : complex float) : complex float :=
  if (re z =? 0) && (im z =? 0) then Cx 0 (im z)
  else
    let t := sqrt ((abs (re z) + hypot (re z) (im z)) / 2) in
    if 0 <=? re z then Cx t (im z / (2 * t))
    else Cx (abs (im z) / (2 * t)) (if get_sign (im z) then - t else t).

Definition cabs (z : complex float) : float := hypot (re z) (im z).

Definition cexp (z : complex float) : complex float :=
  if im z =? 0 then Cx (exp (re z)) (im z)
  else
    let (c, s) := cos_sin (im z) in
    Cx (exp (re z) * c) (exp (re z) * s).

End F64.

Definition F64Arith : Arith := {|
  float := PrimFloat.float;
  lit := F64.lit;
  of_int := F64.of_Z;
  np_pi := F64.lit 3141592653589793 (-15);
  fadd := PrimFloat.add;
  fsub := PrimFloat.sub;
  fmul := PrimFloat.mul;
  fdiv := PrimFloat.div;
  fneg := PrimFloat.opp;
  fltb := PrimFloat.ltb;
  fleb := PrimFloat.leb;
  fgeb := fun x y => PrimFloat.leb y x;
  fpow := F64.pow;
  np_sqrt := PrimFloat.sqrt;
  np_tan := F64.tan;
  np_sinh := F64.sinh;
  np_cosh := F64.cosh;
  np_arcsinh := F64.arcsinh;
  cadd := F64.cadd;
  csub := F64.csub;
  cmul := F64.cmul;
  cdiv := F64.cdiv;
  cneg := F64.cneg;
  cpow := F64.cpow;
  np_csqrt := F64.csqrt;
  np_abs := F64.cabs;
  np_cexp := F64.cexp
|}.

Unset Implicit Arguments.

(** * Properties *)

(** ** Indexing and loops *)

Section Loops.

Context {A : Arith}.

Lemma for_each_app {X L : Type} (xs ys : list X) (body : X -> L -> result L)
    (l : L) :
  for_each (xs ++ ys) body l = (l' <- for_each xs body l ;; for_each ys body l').
Proof.
  revert l. induction xs as [|x xs IH]; intros l; simpl; [reflexivity|].
  destruct (body x l) as [e|l']; simpl; [reflexivity|apply IH].
Qed.

Lemma getitem_index {T : Type} (a : list T) (i : Z) (d : T) :
  (0 <= index_of (length a) i < Z.of_nat (length a))%Z ->
  getitem a i = inr (nth (Z.to_nat (index_of (length a) i)) a d).
Proof.
  unfold getitem, index_of. intros [H1 H2].
  apply Z.leb_le in H1. apply Z.ltb_lt in H2. rewrite H1, H2.
  cbv [andb]. apply Z.ltb_lt in H2.
  destruct (nth_error a _) eqn:E.
  - rewrite (nth_error_nth _ _ d E). reflexivity.
  - apply nth_error_None in E. lia.
Qed.

Lemma getitem_nth {T : Type} (a : list T) (i : nat) (d : T) :
  (i < length a)%nat -> getitem a (Z.of_nat i) = inr (nth i a d).
Proof.
  intros Hi.
  assert (E : index_of (length a) (Z.of_nat i) = Z.of_nat i).
  { unfold index_of. destruct (Z.ltb_spec (Z.of_nat i) 0); [lia|reflexivity]. }
  rewrite (getitem_index a _ d); rewrite E; [now rewrite Nat2Z.id|lia].
Qed.

Lemma getitem_last {T : Type} (a : list T) (d : T) :
  a <> [] -> getitem a (-1) = inr (nth (length a - 1) a d).
Proof.
  intros Ha. assert (0 < length a)%nat by (destruct a; simpl; [congruence|lia]).
  assert (E : index_of (length a) (-1) = Z.of_nat (length a - 1)).
  { unfold index_of. change (-1 <? 0)%Z with true. cbv iota. lia. }
  rewrite (getitem_index a _ d); rewrite E; [now rewrite Nat2Z.id|lia].
Qed.

Lemma getitem_out {T : Type} (a : list T) (i : Z) :
  (Z.of_nat (length a) <= i)%Z -> getitem a i = inl IndexError.
Proof.
  intros Hi. unfold getitem.
  destruct (Z.ltb_spec i 0); [lia|].
  destruct (Z.ltb_spec i (Z.of_nat (length a))); [lia|].
  now rewrite andb_false_r.
Qed.

Lemma length_update {T : Type} (a : list T) (k : nat) (v : T) :
  length (update a k v) = length a.
Proof.
  revert k. induction a as [|x a IH]; intros [|k]; simpl; auto.
Qed.

Lemma update_middle {T : Type} (l1 l2 : list T) (x v : T) :
  update (l1 ++ x :: l2) (length l1) v = l1 ++ v :: l2.
Proof.
  induction l1 as [|y l1 IH]; simpl; [reflexivity|]. now rewrite IH.
Qed.

Lemma setitem_index {T : Type} (a : list T) (i : Z) (v : T) :
  (0 <= index_of (length a) i < Z.of_nat (length a))%Z ->
  setitem a i v = inr (update a (Z.to_nat (index_of (length a) i)) v).
Proof.
  unfold setitem, index_of. intros [H1 H2].
  apply Z.leb_le in H1. apply Z.ltb_lt in H2. now rewrite H1, H2.
Qed.

Lemma setitem_middle {T : Type} (l1 l2 : list T) (x v : T) :
  setitem (l1 ++ x :: l2) (Z.of_nat (length l1)) v = inr (l1 ++ v :: l2).
Proof.
  assert (E : index_of (length (l1 ++ x :: l2)) (Z.of_nat (length l1))
              = Z.of_nat (length l1)).
  { unfold index_of.
    destruct (Z.ltb_spec (Z.of_nat (length l1)) 0); [lia|reflexivity]. }
  rewrite setitem_index; rewrite E.
  - now rewrite Nat2Z.id, update_middle.
  - rewrite length_app. simpl. lia.
Qed.

Lemma setitem_last {T : Type} (l1 : list T) (x v : T) :
  setitem (l1 ++ [x]) (-1) v = inr (l1 ++ [v]).
Proof.
  assert (E : index_of (length (l1 ++ [x])) (-1) = Z.of_nat (length l1)).
  { unfold index_of. change (-1 <? 0)%Z with true. cbv iota.
    rewrite length_app. simpl length. lia. }
  rewrite setitem_index; rewrite E.
  - now rewrite Nat2Z.id, update_middle.
  - rewrite length_app. simpl. lia.
Qed.

Lemma length_range (n : Z) : length (range n) = Z.to_nat n.
Proof. unfold range. now rewrite length_map, length_seq. Qed.

End Loops.

(** ** The expansion of a root list *)

Section Expand.

Context {A : Arith}.

Local Abbreviation C := (complex float).

Lemma expand_loop_inv (root : C) (coeffs : list C) (k : nat) :
  (k < length coeffs)%nat ->
  for_each (map (fun j => (1 + Z.of_nat j)%Z) (seq 0 k))
    (fun i new_coeffs =>
       a <- getitem coeffs (i - 1) ;;
       b <- getitem coeffs i ;;
       setitem new_coeffs i (csub a (cmul root b)))
    (map (expand_elem root coeffs) (seq 0 1) ++ repeat c0 (length coeffs))
  = inr (map (expand_elem root coeffs) (seq 0 (1 + k))
           ++ repeat c0 (length coeffs - k)).
Proof.
  induction k as [|k IH]; intros Hk.
  - cbn [seq map for_each]. now rewrite Nat.sub_0_r.
  - rewrite seq_S, map_app, for_each_app, IH by lia.
    cbn [rbind map for_each Nat.add].
    replace (1 + Z.of_nat k - 1)%Z with (Z.of_nat k) by lia.
    replace (1 + Z.of_nat k)%Z with (Z.of_nat (S k)) by lia.
    rewrite (getitem_nth coeffs _ c0) by lia.
    rewrite (getitem_nth coeffs _ c0) by lia. cbn [rbind].
    replace (length coeffs - k)%nat with (S (length coeffs - S k)) by lia.
    cbn [repeat].
    replace (Z.of_nat (S k)) with
      (Z.of_nat (length (map (expand_elem root coeffs) (seq 0 (S k))))).
    2:{ rewrite length_map, length_seq. lia. }
    rewrite setitem_middle. f_equal.
    rewrite (seq_S (S k)), map_app, <- app_assoc. cbn [map app Nat.add].
    repeat f_equal. unfold expand_elem. cbn [Nat.eqb].
    destruct (Nat.ltb_spec (S k) (length coeffs)); [|lia].
    now rewrite Nat.sub_succ, Nat.sub_0_r.
Qed.

Lemma _expand_step_eq (root : C) (coeffs : list C) :
  coeffs <> [] -> _expand_step root coeffs = inr (expand_step_list root coeffs).
Proof.
  intros Hne.
  assert (Hlen : (0 < length coeffs)%nat)
    by (destruct coeffs; simpl; [congruence|lia]).
  unfold _expand_step.
  change 0%Z with (Z.of_nat 0) at 1.
  rewrite (getitem_nth coeffs _ c0) by lia. cbn [rbind].
  replace (length coeffs + 1)%nat with (S (length coeffs)) by lia.
  cbn [repeat].
  change (setitem (c0 :: repeat c0 (length coeffs)) 0
            (cmul (cneg root) (nth 0 coeffs c0)))
    with (setitem ([] ++ c0 :: repeat c0 (length coeffs))
            (Z.of_nat (length (@nil C))) (cmul (cneg root) (nth 0 coeffs c0))).
  rewrite setitem_middle. cbn [rbind app].
  unfold range2.
  replace (Z.to_nat (Z.of_nat (length coeffs) - 1)) with (length coeffs - 1)%nat
    by lia.
  pose proof (@expand_loop_inv root coeffs (length coeffs - 1)) as Hinv.
  cbn [seq map app] in Hinv. unfold expand_elem at 1 in Hinv.
  cbn [Nat.eqb] in Hinv.
  rewrite Hinv by lia. clear Hinv. cbn [rbind].
  rewrite (getitem_last _ c0 Hne). cbn [rbind].
  replace (length coeffs - (length coeffs - 1))%nat with 1%nat by lia.
  cbn [repeat].
  rewrite setitem_last. f_equal.
  unfold expand_step_list.
  replace (length coeffs + 1)%nat with (1 + (length coeffs - 1) + 1)%nat at 1 by lia.
  rewrite (seq_app (1 + (length coeffs - 1)) 1), map_app.
  f_equal. cbn [seq map Nat.add]. f_equal. unfold expand_elem.
  replace (S (length coeffs - 1)) with (length coeffs) by lia.
  destruct (length coeffs) eqn:E; [lia|]. cbn [Nat.eqb].
  now rewrite Nat.ltb_irrefl.
Qed.

Lemma length_expand_step_list (root : C) (coeffs : list C) :
  length (expand_step_list root coeffs) = (length coeffs + 1)%nat.
Proof. unfold expand_step_list. now rewrite length_map, length_seq. Qed.

Lemma expand_step_list_nonempty (root : C) (coeffs : list C) :
  expand_step_list root coeffs <> [].
Proof.
  intros E. apply (f_equal (@length C)) in E.
  rewrite length_expand_step_list in E. simpl in E. lia.
Qed.

Lemma nth_expand_step_list (root : C) (coeffs : list C) (i : nat) :
  (i <= length coeffs)%nat ->
  nth i (expand_step_list root coeffs) c0 = expand_elem root coeffs i.
Proof.
  intros Hi. unfold expand_step_list.
  rewrite (nth_indep _ c0 (expand_elem root coeffs 0)).
  2:{ rewrite length_map, length_seq. lia. }
  rewrite (map_nth (expand_elem root coeffs)), seq_nth by lia. reflexivity.
Qed.

(** The leading coefficient is copied, never computed. *)
Lemma expand_step_list_leading (root : C) (coeffs : list C) :
  coeffs <> [] ->
  nth (length coeffs) (expand_step_list root coeffs) c0
  = nth (length coeffs - 1) coeffs c0.
Proof.
  intros Hne. rewrite nth_expand_step_list by lia. unfold expand_elem.
  destruct (length coeffs) eqn:E.
  - destruct coeffs; simpl in E; [congruence|lia].
  - cbn [Nat.eqb]. now rewrite Nat.ltb_irrefl.
Qed.

Lemma for_each_expand (roots : list C) (coeffs : list C) :
  coeffs <> [] ->
  for_each roots _expand_step coeffs
  = inr (fold_left (fun coeffs root => expand_step_list root coeffs) roots coeffs).
Proof.
  revert coeffs. induction roots as [|r roots IH]; intros coeffs Hne.
  - reflexivity.
  - cbn [for_each fold_left]. rewrite _expand_step_eq by assumption.
    cbn [rbind]. apply IH, expand_step_list_nonempty.
Qed.

Lemma _expand_eq (roots : list C) : _expand roots = inr (expand_list roots).
Proof.
  unfold _expand, expand_list. destruct roots as [|r roots]; [reflexivity|].
  cbn [length Nat.eqb]. apply for_each_expand. discriminate.
Qed.

Lemma fold_expand_shape (roots : list C) (coeffs : list C) :
  coeffs <> [] ->
  let out := fold_left (fun coeffs root => expand_step_list root coeffs)
               roots coeffs in
  length out = (length coeffs + length roots)%nat
  /\ nth (length out - 1) out c0 = nth (length coeffs - 1) coeffs c0.
Proof.
  revert coeffs. induction roots as [|r roots IH]; intros coeffs Hne; cbn zeta.
  - cbn [fold_left length]. split; [lia|reflexivity].
  - cbn [fold_left length].
    destruct (IH (expand_step_list r coeffs) (expand_step_list_nonempty r coeffs))
      as [Hl Hn].
    split.
    + rewrite Hl, length_expand_step_list. lia.
    + rewrite Hn, length_expand_step_list.
      replace (length coeffs + 1 - 1)%nat with (length coeffs) by lia.
      now apply expand_step_list_leading.
Qed.

Lemma length_expand_list (roots : list C) :
  length (expand_list roots) = (length roots + 1)%nat.
Proof.
  unfold expand_list.
  destruct (@fold_expand_shape roots [of_real f1]) as [Hl _]; [discriminate|].
  rewrite Hl. simpl. lia.
Qed.

Lemma expand_list_nonempty (roots : list C) : expand_list roots <> [].
Proof.
  intros E. apply (f_equal (@length C)) in E.
  rewrite length_expand_list in E. simpl in E. lia.
Qed.

Lemma expand_list_leading (roots : list C) :
  nth (length roots) (expand_list roots) c0 = of_real f1.
Proof.
  unfold expand_list.
  destruct (@fold_expand_shape roots [of_real f1]) as [Hl Hn]; [discriminate|].
  cbn zeta in Hl, Hn. rewrite Hl in Hn. simpl in Hn.
  now rewrite Nat.sub_0_r in Hn.
Qed.

Lemma getitem_expand_list_last (roots : list C) :
  getitem (expand_list roots) (-1) = inr (of_real f1).
Proof.
  rewrite (getitem_last _ c0 (expand_list_nonempty roots)).
  rewrite length_expand_list.
  replace (length roots + 1 - 1)%nat with (length roots) by lia.
  now rewrite expand_list_leading.
Qed.

Lemma last_nth {T : Type} (l : list T) (d : T) :
  last l d = nth (length l - 1) l d.
Proof.
  induction l as [|x l IH]; [reflexivity|].
  destruct l as [|y l]; [reflexivity|].
  change (last (x :: y :: l) d) with (last (y :: l) d). rewrite IH.
  cbn [length]. now rewrite !Nat.sub_succ, !Nat.sub_0_r.
Qed.

(** C9.  For every root list, [_expand] returns (it does not raise) a
    coefficient vector of length [len(roots) + 1] whose last coefficient,
    the leading one, is exactly [1.0 + 0j]: it is the initial [1.0] copied
    from step to step, whatever the arithmetic.  [_expand_poly] calls
    [_expand] on the digital zeros and on the digital poles, so both
    expansions of a design run are instances. *)
Theorem expand_length_monic (roots : list C) :
  exists coeffs,
    _expand roots = inr coeffs
    /\ length coeffs = (length roots + 1)%nat
    /\ last coeffs c0 = of_real f1
    /\ getitem coeffs (-1) = inr (of_real f1).
Proof.
  exists (expand_list roots). split; [apply _expand_eq|].
  split; [apply length_expand_list|]. split.
  - rewrite last_nth, length_expand_list.
    replace (length roots + 1 - 1)%nat with (length roots) by lia.
    apply expand_list_leading.
  - apply getitem_expand_list_last.
Qed.

End Expand.

(** ** The pipeline of [design] *)

Section Pipeline.

Context {A : Arith}.

Local Abbreviation C := (complex float).

(** The stages after [_compute_s_plane] never raise. *)
Lemma _prewarp_frequencies_ret (self : MkFilter) :
  _prewarp_frequencies self = Ret tt (state_of (_prewarp_frequencies self)).
Proof.
  unfold _prewarp_frequencies.
  destruct (negb (prewarp self) || negb (use_blt self)); reflexivity.
Qed.

Lemma _normalize_ret (self : MkFilter) :
  _normalize self = Ret tt (state_of (_normalize self)).
Proof.
  unfold _normalize. destruct (band_type self) as [[| | |]|]; try reflexivity.
  destruct (fold_left _ _ _). reflexivity.
Qed.

Lemma _compute_z_blt_ret (self : MkFilter) :
  _compute_z_blt self = Ret tt (state_of (_compute_z_blt self)).
Proof. reflexivity. Qed.

Lemma _compute_z_mzt_ret (self : MkFilter) :
  _compute_z_mzt self = Ret tt (state_of (_compute_z_mzt self)).
Proof.
  unfold _compute_z_mzt. destruct (0 <? _)%nat; reflexivity.
Qed.

Lemma _expand_poly_eq (self : MkFilter) :
  _expand_poly self = Ret tt (expand_poly_state self).
Proof.
  unfold _expand_poly. rewrite !_expand_eq. cbn [run].
  rewrite !getitem_expand_list_last. reflexivity.
Qed.

Lemma design_eq (self : MkFilter) ft bt n alpha1 alpha2 rip blt_flag prewarp_flag :
  design self ft bt n alpha1 alpha2 rip blt_flag prewarp_flag
  = match _compute_s_plane
            (design_entry self ft bt n alpha1 alpha2 rip blt_flag prewarp_flag)
    with
    | Ret _ s => let s' := pipeline s blt_flag in Ret (xcoeffs s', ycoeffs s') s'
    | Raise e s => Raise e s
    end.
Proof.
  unfold design. fold (design_entry self ft bt n alpha1 alpha2 rip blt_flag prewarp_flag).
  destruct (_compute_s_plane _) as [[] s|e s]; [|reflexivity].
  cbn [obind]. rewrite _prewarp_frequencies_ret. cbn [obind].
  rewrite _normalize_ret. cbn [obind]. unfold pipeline.
  destruct blt_flag.
  - rewrite _compute_z_blt_ret. cbn [obind]. rewrite _expand_poly_eq. reflexivity.
  - rewrite _compute_z_mzt_ret. cbn [obind]. rewrite _expand_poly_eq. reflexivity.
Qed.

End Pipeline.

(** ** The prototype poles *)

Section SPlane.

Context {A : Arith}.

Local Abbreviation C := (complex float).

Lemma py_div_int_ok (x : float) (n : Z) :
  n <> 0%Z -> py_div_int x n = inr (fdiv x (of_int n)).
Proof.
  intros Hn. unfold py_div_int. destruct (Z.eqb_spec n 0); [contradiction|].
  reflexivity.
Qed.

Lemma range_nil (n : Z) : (n <= 0)%Z -> range n = [].
Proof. intros Hn. unfold range. now replace (Z.to_nat n) with 0%nat by lia. Qed.

(** The division by [self.order] in the Butterworth loop is never a division
    by zero: the loop body does not run for order [0]. *)
Lemma butterworth_poles_ret (n : Z) (ps : list C) :
  exists ps', butterworth_poles n ps = inr ps'.
Proof.
  unfold butterworth_poles. destruct (Z.eq_dec n 0) as [->|Hn].
  - exists ps. reflexivity.
  - generalize (range (2 * n)). intros l. revert ps.
    induction l as [|i l IH]; intros ps; [now exists ps|].
    cbn [for_each]. rewrite !py_div_int_ok by assumption.
    destruct (negb (Z.land n 1 =? 0)%Z); cbn [rbind];
      match goal with |- context [if ?c then _ else _] => destruct c end;
      cbn [rbind]; apply IH.
Qed.

Lemma _compute_s_plane_eq (self : MkFilter) (ft : filter_type_t) :
  filter_type self = Some ft ->
  _compute_s_plane self
  = match prototype_poles ft (order self) with
    | inl e => Raise e self
    | inr ps =>
        let self' := set_splane self (set_poles (splane self) ps) in
        if filter_type_eqb ft Ch then
          match chebyshev_y (chebrip self) (order self) with
          | inl e => Raise e self'
          | inr y =>
              Ret tt (set_splane self
                        (set_poles (splane self) (map (chebyshev_scale y) ps)))
          end
        else Ret tt self'
    end.
Proof.
  intros Hft. unfold _compute_s_plane, prototype_poles, is_filter.
  rewrite Hft. destruct ft; cbn [filter_type_eqb orb run rbind].
  - destruct (butterworth_poles (order self) []) as [e|ps]; cbn [run];
      [reflexivity|].
    cbn [set_splane filter_type]. rewrite Hft. reflexivity.
  - destruct (bessel_poles (order self) []) as [e|ps]; cbn [run];
      [reflexivity|].
    cbn [set_splane filter_type]. rewrite Hft. reflexivity.
  - destruct (butterworth_poles (order self) []) as [e|ps]; cbn [run];
      [reflexivity|].
    cbn [set_splane filter_type chebrip order]. rewrite Hft.
    cbn [filter_type_eqb]. unfold chebyshev_y.
    destruct (fgeb (chebrip self) f0); [reflexivity|].
    destruct (py_pow _ _) as [e|r]; cbn [run rbind]; [reflexivity|].
    destruct (fleb _ f0); reflexivity.
Qed.

End SPlane.

(** ** [design] as a function of its arguments *)

Section Design.

Context {A : Arith}.

Local Abbreviation C := (complex float).

Lemma fold_left_app_flat_map {X Y : Type} (f : X -> list Y) (l : list X)
    (acc : list Y) :
  fold_left (fun acc x => acc ++ f x) l acc = acc ++ flat_map f l.
Proof.
  revert acc. induction l as [|x l IH]; intros acc; cbn [fold_left flat_map].
  - now rewrite app_nil_r.
  - now rewrite IH, app_assoc.
Qed.

Lemma fold_left_pair_flat_map {X Y Z : Type} (f : X -> list Y)
    (g : X -> list Z) (F : list Y * list Z -> X -> list Y * list Z)
    (l : list X) (acc : list Y * list Z) :
  (forall a b x, F (a, b) x = (a ++ f x, b ++ g x)) ->
  fold_left F l acc = (fst acc ++ flat_map f l, snd acc ++ flat_map g l).
Proof.
  intros HF. revert acc.
  induction l as [|x l IH]; intros [a b]; cbn [fold_left flat_map fst snd].
  - now rewrite !app_nil_r.
  - rewrite HF, IH. cbn [fst snd]. now rewrite !app_assoc.
Qed.

Lemma splane_normalize (self : MkFilter) (bt : band_type_t) :
  band_type self = Some bt ->
  let w1 := fmul TWOPI (warped_alpha1 self) in
  let w2 := fmul TWOPI (warped_alpha2 self) in
  state_of (_normalize self)
  = set_splane self (mkPZ (band_poles bt w1 w2 (poles (splane self)))
                          (band_zeros bt w1 w2 (poles (splane self)))).
Proof.
  intros Hbt. cbn zeta. unfold _normalize. rewrite Hbt.
  destruct bt; cbn [state_of band_poles band_zeros].
  - reflexivity.
  - cbn [set_splane splane set_poles set_zeros poles zeros].
    now rewrite length_map.
  - cbn [set_splane splane set_poles set_zeros poles zeros].
    now rewrite fold_left_app_flat_map.
  - set (w0 := np_sqrt _).
    erewrite (fold_left_pair_flat_map _
                (fun _ => [cmul cj (of_real w0); cmul (cneg cj) (of_real w0)])
                _ _ _).
    + reflexivity.
    + intros a b x. now rewrite <- app_assoc.
Qed.

Lemma state_prewarp (self : MkFilter) :
  state_of (_prewarp_frequencies self)
  = set_warped_alpha2
      (set_warped_alpha1 self
         (warp (use_blt self) (prewarp self) (raw_alpha1 self)))
      (warp (use_blt self) (prewarp self) (raw_alpha2 self)).
Proof.
  unfold _prewarp_frequencies, warp.
  destruct (negb (prewarp self) || negb (use_blt self)); reflexivity.
Qed.

Lemma state_z_blt (self : MkFilter) :
  state_of (_compute_z_blt self)
  = set_zplane self
      (mkPZ (z_poles true (poles (splane self)))
            (z_zeros true (zeros (splane self))
                     (length (poles (splane self))))).
Proof.
  unfold _compute_z_blt, z_poles, z_zeros. cbn [state_of].
  cbn [set_zplane splane zplane set_zeros set_poles poles zeros].
  destruct (zeros (splane self)) as [|z zs] eqn:Ez;
    cbn [length Nat.ltb Nat.leb map];
    cbn [set_zplane splane zplane set_zeros set_poles poles zeros];
    now rewrite length_map.
Qed.

Lemma state_z_mzt (self : MkFilter) :
  state_of (_compute_z_mzt self)
  = set_zplane self
      (mkPZ (z_poles false (poles (splane self)))
            (z_zeros false (zeros (splane self))
                     (length (poles (splane self))))).
Proof.
  unfold _compute_z_mzt, z_poles, z_zeros.
  cbn [set_zplane splane zplane set_zeros set_poles poles zeros].
  destruct (zeros (splane self)) as [|z zs] eqn:Ez;
    cbn [length Nat.ltb Nat.leb map state_of]; reflexivity.
Qed.

Lemma pipeline_closed (self : MkFilter) (bt : band_type_t) (blt_flag : bool) :
  band_type self = Some bt ->
  use_blt self = blt_flag ->
  let wa1 := warp blt_flag (prewarp self) (raw_alpha1 self) in
  let wa2 := warp blt_flag (prewarp self) (raw_alpha2 self) in
  let w1 := fmul TWOPI wa1 in
  let w2 := fmul TWOPI wa2 in
  let sp := band_poles bt w1 w2 (poles (splane self)) in
  let sz := band_zeros bt w1 w2 (poles (splane self)) in
  pipeline self blt_flag
  = expand_poly_state
      (set_zplane
         (set_splane (set_warped_alpha2 (set_warped_alpha1 self wa1) wa2)
                     (mkPZ sp sz))
         (mkPZ (z_poles blt_flag sp) (z_zeros blt_flag sz (length sp)))).
Proof.
  intros Hbt Hblt. cbn zeta. unfold pipeline. cbn zeta.
  rewrite state_prewarp, Hblt.
  rewrite (splane_normalize _ bt) by exact Hbt.
  destruct blt_flag; [rewrite state_z_blt|rewrite state_z_mzt]; reflexivity.
Qed.

Lemma pipeline_entry (self : MkFilter) ft bt n alpha1 alpha2 rip
    blt_flag prewarp_flag (ps : list C) :
  let entry := design_entry self ft bt n alpha1 alpha2 rip blt_flag prewarp_flag in
  pipeline (set_splane entry (set_poles (splane entry) ps)) blt_flag
  = design_final ft bt n alpha1 alpha2 rip blt_flag prewarp_flag ps.
Proof.
  cbn zeta. unfold design_final.
  rewrite !(pipeline_closed _ bt blt_flag) by reflexivity.
  reflexivity.
Qed.

Lemma design_final_zplane ft bt n alpha1 alpha2 rip blt_flag prewarp_flag
    (ps : list C) :
  zplane (design_final ft bt n alpha1 alpha2 rip blt_flag prewarp_flag ps)
  = mkPZ (design_z_poles bt alpha1 alpha2 blt_flag prewarp_flag ps)
         (design_z_zeros bt alpha1 alpha2 blt_flag prewarp_flag ps).
Proof.
  unfold design_final. cbn zeta.
  rewrite (pipeline_closed _ bt blt_flag) by reflexivity. reflexivity.
Qed.

Lemma design_final_xcoeffs ft bt n alpha1 alpha2 rip blt_flag prewarp_flag
    (ps : list C) :
  xcoeffs (design_final ft bt n alpha1 alpha2 rip blt_flag prewarp_flag ps)
  = Some (map (fun c => fdiv (re c) f1)
              (expand_list
                 (design_z_zeros bt alpha1 alpha2 blt_flag prewarp_flag ps))).
Proof.
  unfold design_final. cbn zeta.
  rewrite (pipeline_closed _ bt blt_flag) by reflexivity. reflexivity.
Qed.

Lemma design_final_ycoeffs ft bt n alpha1 alpha2 rip blt_flag prewarp_flag
    (ps : list C) :
  ycoeffs (design_final ft bt n alpha1 alpha2 rip blt_flag prewarp_flag ps)
  = Some (map (fun c => fdiv (fneg (re c)) f1)
              (expand_list
                 (design_z_poles bt alpha1 alpha2 blt_flag prewarp_flag ps))).
Proof.
  unfold design_final. cbn zeta.
  rewrite (pipeline_closed _ bt blt_flag) by reflexivity. reflexivity.
Qed.

(** [design] returns exactly when [_compute_s_plane] does, and then leaves
    an object that depends on the arguments only. *)
Lemma design_ret (self : MkFilter) ft bt n alpha1 alpha2 rip
    blt_flag prewarp_flag (ps : list C) :
  s_plane_poles ft n rip = inr ps ->
  let final := design_final ft bt n alpha1 alpha2 rip blt_flag prewarp_flag ps in
  design self ft bt n alpha1 alpha2 rip blt_flag prewarp_flag
  = Ret (xcoeffs final, ycoeffs final) final.
Proof.
  intros Hps. cbn zeta. rewrite design_eq.
  rewrite (_compute_s_plane_eq _ ft) by reflexivity.
  change (order (design_entry self ft bt n alpha1 alpha2 rip blt_flag prewarp_flag))
    with n.
  change (chebrip (design_entry self ft bt n alpha1 alpha2 rip blt_flag prewarp_flag))
    with rip.
  unfold s_plane_poles in Hps.
  destruct (prototype_poles ft n) as [e|ps0]; cbn [rbind] in Hps; [discriminate|].
  cbn zeta. destruct (filter_type_eqb ft Ch).
  - destruct (chebyshev_y rip n) as [e|y]; cbn [rbind] in Hps; [discriminate|].
    injection Hps as <-. cbn zeta. now rewrite pipeline_entry.
  - injection Hps as <-. cbn zeta. now rewrite pipeline_entry.
Qed.

(** When [_compute_s_plane] raises, [design] raises the same exception and
    the coefficients and digital poles and zeros of the object are the ones
    it had before the call. *)
Lemma design_raise (self : MkFilter) ft bt n alpha1 alpha2 rip
    blt_flag prewarp_flag (e : exn) :
  s_plane_poles ft n rip = inl e ->
  exists self',
    design self ft bt n alpha1 alpha2 rip blt_flag prewarp_flag = Raise e self'
    /\ xcoeffs self' = xcoeffs self
    /\ ycoeffs self' = ycoeffs self
    /\ zplane self' = zplane self.
Proof.
  intros Hps. rewrite design_eq.
  rewrite (_compute_s_plane_eq _ ft) by reflexivity.
  change (order (design_entry self ft bt n alpha1 alpha2 rip blt_flag prewarp_flag))
    with n.
  change (chebrip (design_entry self ft bt n alpha1 alpha2 rip blt_flag prewarp_flag))
    with rip.
  unfold s_plane_poles in Hps.
  destruct (prototype_poles ft n) as [e0|ps0]; cbn [rbind] in Hps.
  - injection Hps as <-. eexists. split; [reflexivity|]. now split.
  - cbn zeta. destruct (filter_type_eqb ft Ch); [|discriminate].
    destruct (chebyshev_y rip n) as [e0|y]; cbn [rbind] in Hps; [|discriminate].
    injection Hps as <-. eexists. split; [reflexivity|]. now split.
Qed.

Lemma design_cases (self : MkFilter) ft bt n alpha1 alpha2 rip
    blt_flag prewarp_flag :
  (exists ps,
      s_plane_poles ft n rip = inr ps
      /\ design self ft bt n alpha1 alpha2 rip blt_flag prewarp_flag
         = let final := design_final ft bt n alpha1 alpha2 rip
                                     blt_flag prewarp_flag ps in
           Ret (xcoeffs final, ycoeffs final) final)
  \/ (exists e self',
         s_plane_poles ft n rip = inl e
         /\ design self ft bt n alpha1 alpha2 rip blt_flag prewarp_flag
            = Raise e self'
         /\ xcoeffs self' = xcoeffs self
         /\ ycoeffs self' = ycoeffs self
         /\ zplane self' = zplane self).
Proof.
  destruct (s_plane_poles ft n rip) as [e|ps] eqn:E.
  - right. destruct (@design_raise self ft bt n alpha1 alpha2 rip blt_flag
                       prewarp_flag e E) as (self' & H1 & H2).
    exists e, self'. now split.
  - left. exists ps. split; [reflexivity|]. now apply design_ret.
Qed.

End Design.

(** ** Shape of the result *)

Section Shape.

Context {A : Arith}.

Local Abbreviation C := (complex float).

Lemma blt_pad_eq (zs : list C) (npoles : nat) :
  blt_pad zs npoles = zs ++ repeat (of_real (fneg f1)) (npoles - length zs).
Proof.
  funelim (blt_pad zs npoles).
  - rewrite H. rewrite length_app. cbn [length].
    replace (npoles - length zs)%nat with (S (npoles - (length zs + 1))) by lia.
    cbn [repeat]. now rewrite <- app_assoc.
  - replace (npoles - length zs)%nat with 0%nat by lia.
    cbn [repeat]. now rewrite app_nil_r.
Qed.

Lemma length_blt_pad (zs : list C) (npoles : nat) :
  length (blt_pad zs npoles) = Nat.max (length zs) npoles.
Proof. rewrite blt_pad_eq, length_app, repeat_length. lia. Qed.

Lemma length_flat_map_const {X Y : Type} (f : X -> list Y) (k : nat)
    (l : list X) :
  (forall x, length (f x) = k) -> length (flat_map f l) = (k * length l)%nat.
Proof.
  intros Hf. induction l as [|x l IH]; cbn [flat_map length]; [lia|].
  rewrite length_app, Hf, IH. lia.
Qed.

Lemma length_band_poles (bt : band_type_t) (w1 w2 : float) (ps : list C) :
  length (band_poles bt w1 w2 ps)
  = match bt with
    | Lp | Hp => length ps
    | Bp | Bs => (2 * length ps)%nat
    end.
Proof.
  destruct bt; cbn [band_poles].
  - apply length_map.
  - apply length_map.
  - now apply length_flat_map_const.
  - now apply length_flat_map_const.
Qed.

Lemma length_band_zeros (bt : band_type_t) (w1 w2 : float) (ps : list C) :
  length (band_zeros bt w1 w2 ps)
  = match bt with
    | Lp => 0%nat
    | Hp | Bp => length ps
    | Bs => (2 * length ps)%nat
    end.
Proof.
  destruct bt; cbn [band_zeros].
  - reflexivity.
  - apply repeat_length.
  - rewrite repeat_length, (length_band_poles Bp).
    rewrite Nat.mul_comm. apply Nat.div_mul. discriminate.
  - now apply length_flat_map_const.
Qed.

Lemma length_design_z_poles bt alpha1 alpha2 blt_flag prewarp_flag
    (ps : list C) :
  length (design_z_poles bt alpha1 alpha2 blt_flag prewarp_flag ps)
  = match bt with
    | Lp | Hp => length ps
    | Bp | Bs => (2 * length ps)%nat
    end.
Proof.
  unfold design_z_poles, z_poles. cbn zeta.
  destruct blt_flag; rewrite length_map; apply length_band_poles.
Qed.

Lemma length_design_z_zeros bt alpha1 alpha2 blt_flag prewarp_flag
    (ps : list C) :
  length (design_z_zeros bt alpha1 alpha2 blt_flag prewarp_flag ps)
  = match blt_flag, bt with
    | true, (Lp | Hp) => length ps
    | true, (Bp | Bs) => (2 * length ps)%nat
    | false, Lp => 0%nat
    | false, (Hp | Bp) => length ps
    | false, Bs => (2 * length ps)%nat
    end.
Proof.
  unfold design_z_zeros, z_zeros. cbn zeta. destruct blt_flag.
  - rewrite length_blt_pad, length_map, length_band_zeros, length_band_poles.
    destruct bt; lia.
  - rewrite length_map, length_band_zeros. now destruct bt.
Qed.

Lemma Ret_inj {T : Type} (v v' : T) (s s' : MkFilter) :
  Ret v s = Ret v' s' -> v = v' /\ s = s'.
Proof. intros H. injection H as -> ->. now split. Qed.


Lemma inr_inj {X Y : Type} (a b : Y) : @inr X Y a = inr b -> a = b.
Proof. intros H. now injection H. Qed.


Lemma Some_inj {X : Type} (a b : X) : Some a = Some b -> a = b.
Proof. intros H. now injection H. Qed.

Lemma pair_inj {X Y : Type} (a a' : X) (b b' : Y) :
  (a, b) = (a', b') -> a = a' /\ b = b'.
Proof. intros H. injection H as -> ->. now split. Qed.

(** What a successful [design] returns and leaves. *)
Lemma design_ret_inv (self : MkFilter) ft bt n alpha1 alpha2 rip
    blt_flag prewarp_flag v self' :
  design self ft bt n alpha1 alpha2 rip blt_flag prewarp_flag = Ret v self' ->
  exists ps,
    s_plane_poles ft n rip = inr ps
    /\ self' = design_final ft bt n alpha1 alpha2 rip blt_flag prewarp_flag ps
    /\ v = (xcoeffs self', ycoeffs self').
Proof.
  intros Hd.
  destruct (@design_cases _ self ft bt n alpha1 alpha2 rip blt_flag prewarp_flag)
    as [(ps & Hps & Hd')|(e & s & _ & Hd' & _)]; rewrite Hd' in Hd.
  - apply Ret_inj in Hd. destruct Hd as [Hv Hs]. exists ps. subst v self'.
    split; [exact Hps|]. split; reflexivity.
  - discriminate Hd.
Qed.

Lemma expand_list_snoc (roots : list C) :
  exists l, expand_list roots = l ++ [of_real f1] /\ length l = length roots.
Proof.
  pose proof (expand_list_nonempty roots) as Hne.
  pose proof (length_expand_list roots) as Hlen.
  pose proof (expand_list_leading roots) as Hlead.
  destruct (exists_last Hne) as (l & a & E). rewrite E in *.
  rewrite length_app in Hlen. cbn [length] in Hlen.
  assert (Hl : length l = length roots) by lia.
  rewrite <- Hl, nth_middle in Hlead. subst a. now exists l.
Qed.

End Shape.

(** ** Properties of [design] that hold in every arithmetic *)

Section DesignGeneric.

Context {A : Arith}.

Local Abbreviation C := (complex float).



Lemma s_plane_poles_not_Ch (ft : filter_type_t) (n : Z) (rip : float) :
  ft <> Ch -> s_plane_poles ft n rip = prototype_poles ft n.
Proof.
  intros Hft. unfold s_plane_poles.
  destruct (prototype_poles ft n) as [e|ps]; cbn [rbind]; [reflexivity|].
  destruct ft; [reflexivity|reflexivity|contradiction].
Qed.


Lemma s_plane_poles_Ch (n : Z) (rip : float) :
  exists ps,
    prototype_poles Ch n = inr ps
    /\ s_plane_poles Ch n rip
       = (y <- chebyshev_y rip n ;; inr (map (chebyshev_scale y) ps)).
Proof.
  unfold s_plane_poles, prototype_poles. cbn [filter_type_eqb orb rbind].
  destruct (butterworth_poles_ret n []) as [ps ->]. exists ps. now split.
Qed.


End DesignGeneric.

Section Claims.

Context {A : Arith}.

Local Abbreviation C := (complex float).

(** C8.  [design] is deterministic, also as a method of an object with a
    history: whatever objects [self1] and [self2] the two calls are made on
    (a fresh [MkFilter()] or one that has already designed other filters),
    calls with the same argument values return the same coefficient
    sequences or raise the same exception, and a successful call leaves the
    same object. *)
Theorem design_deterministic (self1 self2 : MkFilter) (ft : filter_type_t)
    (bt : band_type_t) (n : Z) (alpha1 : float) (alpha2 : option float)
    (rip : float) (blt_flag prewarp_flag : bool) :
  value_of (design self1 ft bt n alpha1 alpha2 rip blt_flag prewarp_flag)
  = value_of (design self2 ft bt n alpha1 alpha2 rip blt_flag prewarp_flag)
  /\ (forall v self',
         design self1 ft bt n alpha1 alpha2 rip blt_flag prewarp_flag
         = Ret v self' ->
         design self2 ft bt n alpha1 alpha2 rip blt_flag prewarp_flag
         = Ret v self').
Proof.
  destruct (s_plane_poles ft n rip) as [e|ps] eqn:E.
  - destruct (design_raise self1 ft bt n alpha1 alpha2 rip blt_flag
                prewarp_flag e E) as (s1 & H1 & _).
    destruct (design_raise self2 ft bt n alpha1 alpha2 rip blt_flag
                prewarp_flag e E) as (s2 & H2 & _).
    rewrite H1, H2. split; [reflexivity|]. intros v self' H. discriminate H.
  - rewrite (design_ret self1 ft bt n alpha1 alpha2 rip blt_flag prewarp_flag ps E).
    rewrite (design_ret self2 ft bt n alpha1 alpha2 rip blt_flag prewarp_flag ps E).
    split; [reflexivity|]. intros v self' H. exact H.
Qed.



(** C3.  In every arithmetic in which [-(1.0) / 1.0] is [-(1.0)], the last
    denominator coefficient a successful [design] returns is exactly
    [-1.0]: the leading coefficient of the expanded denominator is the
    initial [1.0], copied and never computed, and the denominator is negated
    and divided by its real part. *)
Theorem last_ycoeff_minus_one (self : MkFilter) (ft : filter_type_t)
    (bt : band_type_t) (n : Z) (alpha1 : float) (alpha2 : option float)
    (rip : float) (blt_flag prewarp_flag : bool)
    (xs ys : option (list float)) (self' : MkFilter) :
  fdiv (fneg f1) f1 = fneg f1 ->
  design self ft bt n alpha1 alpha2 rip blt_flag prewarp_flag
  = Ret (xs, ys) self' ->
  exists l, ys = Some (l ++ [fneg f1]) /\ ycoeffs self' = ys.
Proof.
  intros Hdiv Hd. apply design_ret_inv in Hd.
  destruct Hd as (ps & _ & Hs & Hv).
  apply pair_inj in Hv. destruct Hv as [_ ->]. subst self'.
  rewrite design_final_ycoeffs.
  destruct (expand_list_snoc
              (design_z_poles bt alpha1 alpha2 blt_flag prewarp_flag ps))
    as (l & -> & _).
  exists (map (fun c => fdiv (fneg (re c)) f1) l).
  rewrite map_app. cbn [map of_real re]. rewrite Hdiv. now split.
Qed.

(** C2, as the code has it.  The numerator a successful [design] returns
    has [nzeros + 1] and the denominator [npoles + 1] coefficients.  They
    have equal length under the bilinear mapping, which pads the zeros, and
    for highpass and bandstop under either mapping.  Under the matched
    z-transform, which does not pad, a lowpass has one numerator
    coefficient and a bandpass [npoles / 2 + 1]: fewer than the denominator
    exactly when the design has a pole. *)
Theorem coefficient_counts (self : MkFilter) (ft : filter_type_t)
    (bt : band_type_t) (n : Z) (alpha1 : float) (alpha2 : option float)
    (rip : float) (blt_flag prewarp_flag : bool)
    (xs ys : option (list float)) (self' : MkFilter) :
  design self ft bt n alpha1 alpha2 rip blt_flag prewarp_flag
  = Ret (xs, ys) self' ->
  exists lx ly,
    xs = Some lx /\ ys = Some ly
    /\ length lx = (length (zeros (zplane self')) + 1)%nat
    /\ length ly = (length (poles (zplane self')) + 1)%nat
    /\ (blt_flag = true \/ bt = Hp \/ bt = Bs -> length lx = length ly)
    /\ (blt_flag = false -> bt = Lp -> length lx = 1%nat)
    /\ (blt_flag = false -> bt = Bp ->
        (2 * length lx = length ly + 1)%nat)
    /\ (blt_flag = false -> bt = Lp \/ bt = Bp ->
        ((length lx < length ly)%nat <-> poles (zplane self') <> [])).
Proof.
  intros Hd. apply design_ret_inv in Hd.
  destruct Hd as (ps & _ & Hs & Hv).
  apply pair_inj in Hv. destruct Hv as [-> ->]. subst self'.
  rewrite design_final_xcoeffs, design_final_ycoeffs, design_final_zplane.
  cbn [poles zeros].
  eexists. eexists. split; [reflexivity|]. split; [reflexivity|].
  rewrite !length_map, !length_expand_list.
  split; [reflexivity|]. split; [reflexivity|].
  assert (Hne : design_z_poles bt alpha1 alpha2 blt_flag prewarp_flag ps <> []
                <-> (0 < length
                           (design_z_poles bt alpha1 alpha2 blt_flag
                              prewarp_flag ps))%nat).
  { destruct (design_z_poles bt alpha1 alpha2 blt_flag prewarp_flag ps);
      cbn [length]; split; intros H; try lia; try congruence. }
  rewrite Hne, length_design_z_zeros, length_design_z_poles.
  split; [|split; [|split]].
  - intros [->|[->| ->]]; [destruct bt|destruct blt_flag|destruct blt_flag];
      reflexivity.
  - intros -> ->. reflexivity.
  - intros -> ->. lia.
  - intros -> [->| ->]; lia.
Qed.

End Claims.

(** ** Where the arguments are validated *)

Section Validation.

Context {A : Arith}.

Local Abbreviation C := (complex float).

Lemma design_Bu_ret (self : MkFilter) (bt : band_type_t) (n : Z)
    (alpha1 : float) (alpha2 : option float) (rip : float)
    (blt_flag prewarp_flag : bool) :
  exists xs ys self',
    design self Bu bt n alpha1 alpha2 rip blt_flag prewarp_flag
    = Ret (Some xs, Some ys) self'.
Proof.
  destruct (butterworth_poles_ret n []) as [ps Hps].
  assert (E : s_plane_poles Bu n rip = inr ps).
  { rewrite s_plane_poles_not_Ch by discriminate.
    unfold prototype_poles. cbn [filter_type_eqb orb rbind]. exact Hps. }
  rewrite (design_ret self Bu bt n alpha1 alpha2 rip blt_flag prewarp_flag ps E).
  cbv zeta. rewrite design_final_xcoeffs, design_final_ycoeffs.
  eexists. eexists. eexists. reflexivity.
Qed.



End Validation.

(** ** The Butterworth loop *)

Section Butterworth.

Context {A : Arith}.

Local Abbreviation C := (complex float).

Lemma butterworth_loop (n : Z) (l : list Z) (ps : list C) :
  n <> 0%Z ->
  for_each l
    (fun i poles =>
       theta <- (if negb (Z.land n 1 =? 0)%Z
                 then py_div_int (fmul (of_int i) PI) n
                 else py_div_int (fmul (fadd (of_int i) f05) PI) n) ;;
       let pole := np_cexp (cmul cj (of_real theta)) in
       if fltb (re pole) f0 then inr (poles ++ [pole]) else inr poles)
    ps
  = inr (ps ++ filter (fun p => fltb (re p) f0) (map (butterworth_pole n) l)).
Proof.
  intros Hn. revert ps. induction l as [|i l IH]; intros ps.
  - cbn [for_each map filter]. now rewrite app_nil_r.
  - cbn [for_each map filter]. rewrite !py_div_int_ok by assumption.
    unfold butterworth_pole at 1 2, butterworth_theta at 1 2.
    destruct (negb (Z.land n 1 =? 0)%Z); cbn [rbind];
      match goal with |- context [fltb ?a ?b] => destruct (fltb a b) end;
      cbn [rbind]; rewrite IH; [now rewrite <- app_assoc|reflexivity
                               |now rewrite <- app_assoc|reflexivity].
Qed.

Lemma butterworth_poles_eq (n : Z) :
  butterworth_poles n []
  = inr (filter (fun p => fltb (re p) f0)
           (map (butterworth_pole n) (range (2 * n)))).
Proof.
  unfold butterworth_poles. destruct (Z.eq_dec n 0) as [->|Hn].
  - reflexivity.
  - now rewrite butterworth_loop.
Qed.

(** The Bessel branch takes [n] poles from the table, for [0 <= n <= 10]. *)
Lemma bessel_poles_length (n : Z) (ps : list C) :
  (0 <= n)%Z -> bessel_poles n [] = inr ps -> length ps = Z.to_nat n.
Proof.
  intros Hn. unfold bessel_poles.
  assert (Hloop : forall (l : list Z) (acc : Z * list C) (out : Z * list C),
             for_each l
               (fun _ '(p, poles) =>
                  pole <- getitem BESSEL_POLES p ;;
                  inr ((p + 1)%Z, (poles ++ [pole]) ++ [np_conj pole])) acc
             = inr out ->
             length (snd out) = (length (snd acc) + 2 * length l)%nat).
  { induction l as [|x l IH]; intros [p acc] out; cbn [for_each].
    - intros H. apply inr_inj in H. subst out. cbn [snd length]. lia.
    - destruct (getitem BESSEL_POLES p) as [e1|pole]; cbn [rbind];
        [discriminate|].
      intros H. apply IH in H. rewrite H. cbn [snd length].
      rewrite !length_app. cbn [length]. lia. }
  assert (Hodd : (Z.land n 1 = n mod 2)%Z) by (apply (Z.land_ones n 1); lia).
  destruct (Z.eqb_spec (Z.land n 1) 0) as [E|E]; cbn [negb rbind].
  - destruct (for_each _ _ _) as [e1|[p acc]] eqn:E'; cbn [rbind];
      [discriminate|].
    intros H. apply inr_inj in H. subst acc. apply Hloop in E'.
    cbn [snd length] in E'. rewrite E', length_range.
    rewrite Hodd in E. pose proof (Z.div_mod n 2). lia.
  - destruct (getitem BESSEL_POLES (n * n / 4)) as [e1|pole]; cbn [rbind];
      [discriminate|].
    destruct (for_each _ _ _) as [e1|[p acc]] eqn:E'; cbn [rbind];
      [discriminate|].
    intros H. apply inr_inj in H. subst acc. apply Hloop in E'.
    cbn [snd length app] in E'. rewrite E', length_range.
    rewrite Hodd in E. pose proof (Z.div_mod n 2).
    pose proof (Z.mod_pos_bound n 2). lia.
Qed.

End Butterworth.

(** ** Exact arithmetic: the constants and the comparisons *)

Section ExactBasics.

Local Open Scope R_scope.

Local Abbreviation Rpi := Rtrigo1.PI.

Lemma Rf0 : @f0 RArith = 0.
Proof. unfold f0. cbn. ring. Qed.

Lemma Rf1 : @f1 RArith = 1.
Proof. unfold f1. cbn. ring. Qed.

Lemma Rf2 : @f2 RArith = 2.
Proof. unfold f2. cbn. ring. Qed.

Lemma Rf05 : @f05 RArith = / 2.
Proof. unfold f05. cbn. change (Pos.to_nat 1) with 1%nat. cbn. lra. Qed.


Lemma RPI : @PI RArith = Rpi.
Proof. reflexivity. Qed.

Lemma RTWOPI : @TWOPI RArith = 2 * Rpi.
Proof. unfold TWOPI. rewrite Rf2. reflexivity. Qed.

Lemma Rof_real (x : R) : @of_real RArith x = Cx x 0.
Proof. unfold of_real. now rewrite Rf0. Qed.

Lemma Rc0 : @c0 RArith = Cx 0 0.
Proof. unfold c0. now rewrite Rf0. Qed.

Lemma Rcj : @cj RArith = Cx 0 1.
Proof. unfold cj. now rewrite Rf0, Rf1. Qed.

Lemma Rltb_true (x y : R) : Rltb x y = true <-> x < y.
Proof. unfold Rltb. destruct (Rlt_dec x y); split; intros; auto; discriminate. Qed.

Lemma Rltb_false (x y : R) : Rltb x y = false <-> y <= x.
Proof.
  unfold Rltb. destruct (Rlt_dec x y); split; intros; try discriminate; try lra;
    reflexivity.
Qed.

Lemma Rleb_true (x y : R) : Rleb x y = true <-> x <= y.
Proof. unfold Rleb. destruct (Rle_dec x y); split; intros; auto; discriminate. Qed.

Lemma Rleb_false (x y : R) : Rleb x y = false <-> y < x.
Proof.
  unfold Rleb. destruct (Rle_dec x y); split; intros; try discriminate; try lra;
    reflexivity.
Qed.

Lemma Rgeb_true (x y : R) : Rgeb x y = true <-> x >= y.
Proof. unfold Rgeb. destruct (Rge_dec x y); split; intros; auto; discriminate. Qed.


(** The candidate poles lie on the unit circle at angle [theta]. *)
Lemma Rbutterworth_pole (n i : Z) :
  @butterworth_pole RArith n i
  = Cx (cos (@butterworth_theta RArith n i))
       (sin (@butterworth_theta RArith n i)).
Proof.
  unfold butterworth_pole. rewrite Rof_real, Rcj.
  generalize (@butterworth_theta RArith n i).
  change (@float RArith) with R. intros t.
  cbn [np_cexp cmul RArith]. unfold Rc_exp, Rc_mul. cbn [re im].
  replace (0 * t - 1 * 0) with 0 by ring.
  replace (0 * 0 + 1 * t) with t by ring.
  rewrite exp_0. f_equal; ring.
Qed.


Lemma Rbutterworth_theta (n i : Z) :
  (0 < n)%Z ->
  @butterworth_theta RArith n i = IZR (theta_index n i) * (Rpi / (2 * IZR n)).
Proof.
  intros Hn. assert (IZR n <> 0) by (apply not_0_IZR; lia).
  unfold butterworth_theta, theta_index.
  destruct (negb (Z.land n 1 =? 0)%Z).
  - rewrite mult_IZR. cbn [fdiv fmul of_int RArith]. rewrite RPI.
    change (@float RArith) with R. field. assumption.
  - rewrite plus_IZR, mult_IZR, Rf05. cbn [fdiv fmul fadd of_int RArith].
    rewrite RPI. change (@float RArith) with R. field. assumption.
Qed.

Lemma theta_index_parity (n i : Z) :
  theta_index n i <> n /\ theta_index n i <> (3 * n)%Z.
Proof.
  unfold theta_index.
  assert (Hodd : (Z.land n 1 = n mod 2)%Z) by (apply (Z.land_ones n 1); lia).
  pose proof (Z.div_mod n 2). pose proof (Z.mod_pos_bound n 2).
  destruct (Z.eqb_spec (Z.land n 1) 0) as [E|E]; cbn [negb]; lia.
Qed.

Lemma cos_sign_quadrants (n m : Z) :
  (0 < n)%Z -> (0 <= m < 4 * n)%Z -> m <> n -> m <> (3 * n)%Z ->
  (cos (IZR m * (Rpi / (2 * IZR n))) < 0 <-> (n < m < 3 * n)%Z).
Proof.
  intros Hn Hm H1 H3.
  assert (Hn' : 0 < IZR n) by (apply IZR_lt; lia).
  pose proof PI_RGT_0 as Hpi.
  set (k := Rpi / (2 * IZR n)).
  assert (Hk : 0 < k).
  { unfold k. apply Rdiv_lt_0_compat; lra. }
  assert (E1 : Rpi / 2 = IZR n * k) by (unfold k; field; lra).
  assert (Hlt : forall a b : Z, (a < b)%Z -> IZR a * k < IZR b * k).
  { intros a b Hab. apply Rmult_lt_compat_r; [assumption|now apply IZR_lt]. }
  split.
  - intros Hcos.
    destruct (Z_lt_le_dec m n) as [Hmn|Hmn].
    + exfalso. assert (0 < cos (IZR m * k)); [|lra].
      apply cos_gt_0.
      * assert (0 <= IZR m * k); [|lra].
        apply Rmult_le_pos; [apply IZR_le; lia|lra].
      * rewrite E1. now apply Hlt.
    + destruct (Z_lt_le_dec m (3 * n)) as [Hm3|Hm3]; [lia|].
      exfalso. assert (0 < cos (IZR m * k)); [|lra].
      replace (IZR m * k) with ((IZR m * k - 2 * Rpi) + 2 * Rpi) by ring.
      rewrite cos_plus, cos_2PI, sin_2PI, Rmult_0_r, Rmult_1_r, Rminus_0_r.
      assert (E4 : 2 * Rpi = IZR (4 * n) * k).
      { rewrite mult_IZR. unfold k. field. lra. }
      assert (E3 : 3 * (Rpi / 2) = IZR (3 * n) * k).
      { rewrite mult_IZR. unfold k. field. lra. }
      apply cos_gt_0.
      * assert (IZR (3 * n) * k < IZR m * k) by (apply Hlt; lia). lra.
      * assert (IZR m * k < IZR (4 * n) * k) by (apply Hlt; lia). lra.
  - intros [Hlo Hhi]. apply cos_lt_0.
    + rewrite E1. now apply Hlt.
    + assert (E3 : 3 * (Rpi / 2) = IZR (3 * n) * k).
      { rewrite mult_IZR. unfold k. field. lra. }
      rewrite E3. now apply Hlt.
Qed.

End ExactBasics.

(** ** Exact arithmetic: the Butterworth prototype *)

Section ExactButterworth.

Local Open Scope R_scope.

Local Abbreviation Rpi := Rtrigo1.PI.

(** Candidate [i] is kept exactly when [(n+1)/2 <= i < (n+1)/2 + n]. *)
Lemma Rbutterworth_keep (n i : Z) :
  (0 < n)%Z -> (0 <= i < 2 * n)%Z ->
  fltb (re (@butterworth_pole RArith n i)) f0
  = (((n + 1) / 2 <=? i) && (i <? (n + 1) / 2 + n))%Z.
Proof.
  intros Hn Hi. rewrite Rbutterworth_pole, Rf0. cbn [re fltb RArith].
  rewrite Rbutterworth_theta by assumption.
  destruct (theta_index_parity n i) as [P1 P3].
  assert (Hm : (0 <= theta_index n i < 4 * n)%Z).
  { unfold theta_index. destruct (negb _); lia. }
  pose proof (cos_sign_quadrants n (theta_index n i) Hn Hm P1 P3) as Hc.
  assert (Hq : ((n < theta_index n i < 3 * n)
                <-> ((n + 1) / 2 <= i < (n + 1) / 2 + n))%Z).
  { unfold theta_index.
    assert (Hodd : (Z.land n 1 = n mod 2)%Z) by (apply (Z.land_ones n 1); lia).
    pose proof (Z.div_mod n 2). pose proof (Z.mod_pos_bound n 2).
    pose proof (Z.div_mod (n + 1) 2). pose proof (Z.mod_pos_bound (n + 1) 2).
    destruct (Z.eqb_spec (Z.land n 1) 0) as [E|E]; cbn [negb]; lia. }
  destruct (Rltb _ 0) eqn:E.
  - apply Rltb_true in E. apply Hc, Hq in E. symmetry.
    apply andb_true_iff. split; [apply Z.leb_le|apply Z.ltb_lt]; lia.
  - apply Rltb_false in E. symmetry. apply not_true_is_false. intros Hb.
    apply andb_true_iff in Hb. destruct Hb as [H1 H2].
    apply Z.leb_le in H1. apply Z.ltb_lt in H2.
    assert (cos (IZR (theta_index n i) * (Rpi / (2 * IZR n))) < 0); [|lra].
    apply Hc, Hq. lia.
Qed.

Lemma length_filter_map {X Y : Type} (P : Y -> bool) (f : X -> Y) (l : list X) :
  length (filter P (map f l)) = length (filter (fun x => P (f x)) l).
Proof.
  induction l as [|x l IH]; cbn [map filter]; [reflexivity|].
  destruct (P (f x)); cbn [length]; now rewrite IH.
Qed.

Lemma count_interval (a b : Z) (N : nat) :
  (0 <= a <= b)%Z ->
  length (filter (fun i => ((a <=? i) && (i <? b))%Z)
            (map Z.of_nat (seq 0 N)))
  = Z.to_nat (Z.min b (Z.of_nat N) - Z.min a (Z.of_nat N)).
Proof.
  intros Hab. induction N as [|N IH].
  - cbn [seq map filter length]. lia.
  - rewrite seq_S, map_app, filter_app, length_app, IH.
    cbn [map filter Nat.add].
    destruct (Z.leb_spec a (Z.of_nat N)); destruct (Z.ltb_spec (Z.of_nat N) b);
      cbn [andb length]; lia.
Qed.

Lemma Rbutterworth_count (n : Z) :
  (0 <= n)%Z ->
  exists ps,
    @butterworth_poles RArith n [] = inr ps
    /\ length ps = Z.to_nat n
    /\ Forall (fun p => re p < 0) ps.
Proof.
  intros Hn. rewrite butterworth_poles_eq. eexists. split; [reflexivity|]. split.
  - destruct (Z.eq_dec n 0) as [->|Hn0]; [reflexivity|].
    rewrite length_filter_map.
    rewrite (filter_ext_in _
               (fun i => (((n + 1) / 2 <=? i) && (i <? (n + 1) / 2 + n))%Z)).
    + unfold range. rewrite count_interval.
      * pose proof (Z.div_mod (n + 1) 2). pose proof (Z.mod_pos_bound (n + 1) 2).
        lia.
      * pose proof (Z.div_mod (n + 1) 2). pose proof (Z.mod_pos_bound (n + 1) 2).
        lia.
    + intros i Hi. apply Rbutterworth_keep; [lia|].
      unfold range in Hi. apply in_map_iff in Hi. destruct Hi as (k & <- & Hk).
      apply in_seq in Hk. lia.
  - apply Forall_forall. intros p Hp. apply filter_In in Hp.
    destruct Hp as [_ Hp]. rewrite Rf0 in Hp. now apply Rltb_true in Hp.
Qed.

End ExactButterworth.

(** ** Exact arithmetic: the number of poles and zeros *)

Section ExactCounts.

Local Open Scope R_scope.

Lemma Rs_plane_count (ft : filter_type_t) (n : Z) (rip : R)
    (ps : list (complex R)) :
  (0 <= n)%Z ->
  @s_plane_poles RArith ft n rip = inr ps -> length ps = Z.to_nat n.
Proof.
  intros Hn. destruct ft.
  - rewrite s_plane_poles_not_Ch by discriminate.
    unfold prototype_poles. cbn [filter_type_eqb orb rbind].
    destruct (Rbutterworth_count n Hn) as (ps' & -> & Hl & _).
    intros H. apply inr_inj in H. now subst.
  - rewrite s_plane_poles_not_Ch by discriminate.
    unfold prototype_poles. cbn [filter_type_eqb orb].
    destruct (bessel_poles n []) as [e|ps'] eqn:E; cbn [rbind]; [discriminate|].
    intros H. apply inr_inj in H. subst.
    now apply (@bessel_poles_length RArith).
  - destruct (@s_plane_poles_Ch RArith n rip) as (ps' & Hp & ->).
    unfold prototype_poles in Hp. cbn [filter_type_eqb orb rbind] in Hp.
    destruct (Rbutterworth_count n Hn) as (ps'' & E & Hl & _).
    rewrite E in Hp. apply inr_inj in Hp. subst ps''.
    destruct (@chebyshev_y RArith rip n) as [e|y]; cbn [rbind]; [discriminate|].
    intros H. apply inr_inj in H. subst. now rewrite length_map.
Qed.

(** C6, as the code has it, in exact arithmetic.  A successful design of
    order [n >= 0] has [n] digital poles for lowpass and highpass and [2 n]
    for bandpass and bandstop.  Under the bilinear mapping the zeros are
    padded to the number of poles.  Under the matched z-transform nothing is
    padded: lowpass has no zero, highpass [n], bandpass [n] and bandstop
    [2 n]. *)
Theorem pole_zero_counts (self : MkFilter) (ft : filter_type_t)
    (bt : band_type_t) (n : Z) (alpha1 : R) (alpha2 : option R) (rip : R)
    (blt_flag prewarp_flag : bool)
    (v : option (list R) * option (list R)) (self' : MkFilter) :
  (0 <= n)%Z ->
  @design RArith self ft bt n alpha1 alpha2 rip blt_flag prewarp_flag
  = Ret v self' ->
  Z.of_nat (length (poles (zplane self')))
  = match bt with
    | Lp | Hp => n
    | Bp | Bs => (2 * n)%Z
    end
  /\ Z.of_nat (length (zeros (zplane self')))
     = match blt_flag, bt with
       | true, (Lp | Hp) => n
       | true, (Bp | Bs) => (2 * n)%Z
       | false, Lp => 0%Z
       | false, (Hp | Bp) => n
       | false, Bs => (2 * n)%Z
       end.
Proof.
  intros Hn Hd. apply (@design_ret_inv RArith) in Hd.
  destruct Hd as (ps & Hps & -> & _).
  apply Rs_plane_count in Hps; [|assumption].
  rewrite (@design_final_zplane RArith). cbn [poles zeros].
  rewrite (@length_design_z_poles RArith), (@length_design_z_zeros RArith).
  change (@float RArith) with R. rewrite Hps.
  split; [destruct bt|destruct blt_flag, bt]; lia.
Qed.

End ExactCounts.

(** ** Exact arithmetic: the expansion does not depend on the order of the roots *)

Section ExactExpand.

Local Open Scope R_scope.

Local Abbreviation CR := (complex R).

Lemma complex_eq {T : Type} (a b : complex T) :
  re a = re b -> im a = im b -> a = b.
Proof. destruct a, b. cbn [re im]. now intros -> ->. Qed.

Ltac Rc_ring :=
  apply complex_eq; unfold Rc_sub, Rc_add, Rc_mul, Rc_neg; cbn [re im];
  change (@float RArith) with R; ring.

(** In exact arithmetic every coefficient of a step is
    [coeffs[i-1] - root * coeffs[i]], the coefficients out of range read as
    [0]: multiplication of the polynomial by [z - root]. *)
Lemma Rexpand_step_nth (r : CR) (c : list CR) (i : nat) :
  c <> [] ->
  @nth CR i (@expand_step_list RArith r c) (Cx 0 0)
  = Rc_sub (shifted c i) (Rc_mul r (@nth CR i c (Cx 0 0))).
Proof.
  intros Hne.
  assert (Hlen : (0 < length c)%nat) by (destruct c; simpl; [congruence|lia]).
  destruct (Nat.le_gt_cases i (length c)) as [Hi|Hi].
  - rewrite <- Rc0 at 1. rewrite (@nth_expand_step_list RArith) by assumption.
    unfold expand_elem. rewrite Rc0. cbn [cmul csub cneg RArith].
    change (@float RArith) with R.
    destruct i as [|j]; cbn [Nat.eqb shifted].
    + Rc_ring.
    + destruct (Nat.ltb_spec (S j) (length c)) as [Hj|Hj].
      * now rewrite Nat.sub_succ, Nat.sub_0_r.
      * assert (E : S j = length c) by lia. rewrite <- E.
        rewrite Nat.sub_succ, Nat.sub_0_r.
        rewrite (@nth_overflow _ c (S j) (Cx 0 0)) by lia. Rc_ring.
  - rewrite nth_overflow.
    2:{ rewrite (@length_expand_step_list RArith).
        change (@float RArith) with R. lia. }
    destruct i as [|j]; [lia|]. cbn [shifted].
    rewrite !(nth_overflow c) by lia. Rc_ring.
Qed.

Lemma Rexpand_step_comm (x y : CR) (c : list CR) :
  c <> [] ->
  @expand_step_list RArith x (expand_step_list y c)
  = @expand_step_list RArith y (expand_step_list x c).
Proof.
  intros Hne. apply (nth_ext _ _ (Cx 0 0) (Cx 0 0)).
  - now rewrite !(@length_expand_step_list RArith).
  - intros i _.
    rewrite (Rexpand_step_nth x (@expand_step_list RArith y c) i)
      by (apply (@expand_step_list_nonempty RArith)).
    rewrite (Rexpand_step_nth y (@expand_step_list RArith x c) i)
      by (apply (@expand_step_list_nonempty RArith)).
    rewrite (Rexpand_step_nth y c i), (Rexpand_step_nth x c i) by assumption.
    destruct i as [|j]; cbn [shifted].
    + Rc_ring.
    + rewrite (Rexpand_step_nth y c j), (Rexpand_step_nth x c j) by assumption.
      Rc_ring.
Qed.

Lemma Rfold_expand_perm (l l' : list CR) :
  Permutation l l' ->
  forall c : list CR,
    c <> [] ->
    fold_left (fun coeffs root => @expand_step_list RArith root coeffs) l c
    = fold_left (fun coeffs root => @expand_step_list RArith root coeffs) l' c.
Proof.
  induction 1 as [|x l l' _ IH|x y l|l l' l'' _ IH1 _ IH2]; intros c Hne.
  - reflexivity.
  - cbn [fold_left]. apply IH, (@expand_step_list_nonempty RArith).
  - cbn [fold_left]. now rewrite Rexpand_step_comm.
  - now rewrite IH1, IH2.
Qed.

(** C7.  [_expand] of the empty root collection returns the single
    coefficient [1]; and in exact complex arithmetic [_expand] returns the
    same coefficient vector for every permutation of a root list. *)
Theorem expand_permutation_invariant :
  @_expand RArith [] = inr [Cx 1 0]
  /\ forall roots roots' : list CR,
       Permutation roots roots' ->
       @_expand RArith roots = @_expand RArith roots'.
Proof.
  split.
  - unfold _expand. cbn [length Nat.eqb]. now rewrite Rof_real, Rf1.
  - intros roots roots' Hp. rewrite !(@_expand_eq RArith). f_equal.
    unfold expand_list. apply Rfold_expand_perm; [assumption|discriminate].
Qed.

End ExactExpand.

(** ** Exact arithmetic: the poles stay in the left half-plane *)

Section ExactStability.

Local Open Scope R_scope.

Local Abbreviation CR := (complex R).
Local Abbreviation Rpi := Rtrigo1.PI.

(** The principal square root is a square root. *)
Lemma Rc_sqrt_sqr (z : CR) :
  re (Rc_sqrt z) * re (Rc_sqrt z) - im (Rc_sqrt z) * im (Rc_sqrt z) = re z
  /\ re (Rc_sqrt z) * im (Rc_sqrt z) + im (Rc_sqrt z) * re (Rc_sqrt z) = im z.
Proof.
  destruct z as [x y]. unfold Rc_sqrt, Rc_abs. cbn [re im].
  set (m := sqrt (x * x + y * y)).
  assert (Hm0 : 0 <= m) by apply sqrt_pos.
  assert (Hmm : m * m = x * x + y * y) by (apply sqrt_sqrt; nra).
  assert (Hmx : 0 <= (m + x) / 2) by nra.
  assert (Hmx' : 0 <= (m - x) / 2) by nra.
  set (P := sqrt ((m + x) / 2)). set (Q := sqrt ((m - x) / 2)).
  assert (HP0 : 0 <= P) by apply sqrt_pos.
  assert (HQ0 : 0 <= Q) by apply sqrt_pos.
  assert (HPP : P * P = (m + x) / 2) by (apply sqrt_sqrt; assumption).
  assert (HQQ : Q * Q = (m - x) / 2) by (apply sqrt_sqrt; assumption).
  assert (HPQ : (2 * (P * Q)) * (2 * (P * Q)) = y * y) by nra.
  assert (HPQ0 : 0 <= P * Q) by (apply Rmult_le_pos; assumption).
  destruct (Rlt_dec y 0) as [Hy|Hy]; split; nra.
Qed.

(** The two poles [hba * (1 +- temp)] lie on the side of the imaginary
    axis on which [hba] lies. *)
Lemma band_pair_sign (w0 : R) (h : CR) :
  w0 <> 0 -> re h <> 0 ->
  Forall (fun s : CR => 0 < re s * re h) (@band_pair RArith w0 h).
Proof.
  intros Hw Ha. unfold band_pair. rewrite !Rof_real, Rf1.
  cbn [np_csqrt csub cadd cmul cdiv cpow RArith].
  set (u := Rc_sub (Cx 1 0) (Rc_pow (Rc_div (Cx w0 0) h) 2)).
  destruct (Rc_sqrt_sqr u) as [Hre Him].
  assert (Eu1 : re u = 1 - w0 * w0 * (re h * re h - im h * im h)
                           / ((re h * re h + im h * im h)
                              * (re h * re h + im h * im h))).
  { unfold u, Rc_sub, Rc_pow, Rc_pow_nat, Rc_div, Rc_mul. cbn [re im Z.to_nat].
    change (Pos.to_nat 2) with 2%nat. cbn [re im]. field. nra. }
  assert (Eu2 : im u = 2 * w0 * w0 * (re h * im h)
                       / ((re h * re h + im h * im h)
                          * (re h * re h + im h * im h))).
  { unfold u, Rc_sub, Rc_pow, Rc_pow_nat, Rc_div, Rc_mul. cbn [re im Z.to_nat].
    change (Pos.to_nat 2) with 2%nat. cbn [re im]. field. nra. }
  generalize dependent (Rc_sqrt u). intros t Hre Him.
  destruct h as [a b]. destruct t as [c d]. cbn [re im] in *.
  set (g1 := a * c - b * d). set (g2 := a * d + b * c).
  assert (HD : 0 < a * a + b * b) by nra.
  assert (E1 : g1 * g1 - g2 * g2 = a * a - b * b - w0 * w0).
  { replace (g1 * g1 - g2 * g2)
      with ((a * a - b * b) * (c * c - d * d) - 2 * (a * b) * (c * d + d * c))
      by (unfold g1, g2; ring).
    rewrite Hre, Him, Eu1, Eu2. field. nra. }
  assert (E2 : g1 * g2 = a * b).
  { replace (g1 * g2)
      with ((a * b) * (c * c - d * d) + (a * a - b * b) * (c * d + d * c) / 2)
      by (unfold g1, g2; field).
    rewrite Hre, Him, Eu1, Eu2. field. nra. }
  assert (Hg : g1 * g1 < a * a).
  { destruct (Rlt_dec (g1 * g1) (a * a)) as [|Hn]; [assumption|exfalso].
    assert (H1 : a * a <= g1 * g1) by lra.
    assert (H2 : b * b < g2 * g2) by nra.
    assert (H3 : (g1 * g2) * (g1 * g2) = (a * b) * (a * b)) by (now rewrite E2).
    assert (H4 : 0 < a * a) by nra.
    assert (H5 : a * a * (g2 * g2) <= g1 * g1 * (g2 * g2)).
    { apply Rmult_le_compat_r; nra. }
    assert (H6 : a * a * (b * b) < a * a * (g2 * g2)).
    { apply Rmult_lt_compat_l; assumption. }
    nra. }
  unfold Rc_mul, Rc_add, Rc_sub. cbn [re im].
  repeat constructor; cbn [re im].
  - replace ((a * (1 + c) - b * (0 + d)) * a) with (a * a + g1 * a)
      by (unfold g1; ring).
    clearbody g1 g2. pose proof (Rle_0_sqr (a + g1)) as Hs. unfold Rsqr in Hs.
    nra.
  - replace ((a * (1 - c) - b * (0 - d)) * a) with (a * a - g1 * a)
      by (unfold g1; ring).
    clearbody g1 g2. pose proof (Rle_0_sqr (a - g1)) as Hs. unfold Rsqr in Hs.
    nra.
Qed.

Lemma Rbutterworth_left (n : Z) (ps : list CR) :
  @butterworth_poles RArith n [] = inr ps ->
  Forall (fun p : CR => re p < 0) ps.
Proof.
  rewrite (@butterworth_poles_eq RArith). intros H. apply inr_inj in H. subst ps.
  apply Forall_forall. intros p Hp. apply filter_In in Hp.
  destruct Hp as [_ Hp]. rewrite Rf0 in Hp. now apply Rltb_true in Hp.
Qed.

Lemma Rchebyshev_scale_re (y : R) (p : CR) :
  re (@chebyshev_scale RArith y p) = re p * sinh y.
Proof.
  unfold chebyshev_scale. rewrite !Rof_real, Rcj.
  cbn [cadd cmul fmul np_sinh np_cosh RArith].
  unfold Rc_add, Rc_mul. cbn [re im]. change (@float RArith) with R. ring.
Qed.

Lemma Rchebyshev_y_pos (rip : R) (n : Z) (y : R) :
  @chebyshev_y RArith rip n = inr y -> 0 < y.
Proof.
  unfold chebyshev_y. destruct (@fgeb RArith rip f0); [discriminate|].
  destruct (@py_pow RArith _ _) as [e|r]; cbn [rbind]; [discriminate|].
  destruct (@fleb RArith _ f0) eqn:E; [discriminate|].
  intros H. apply inr_inj in H. rewrite H in E. rewrite Rf0 in E.
  now apply Rleb_false in E.
Qed.

Lemma sinh_pos (y : R) : 0 < y -> 0 < sinh y.
Proof. intros Hy. rewrite <- sinh_0. now apply sinh_lt. Qed.

(** The analog prototype poles of Butterworth and Chebyshev lie strictly in
    the left half-plane. *)
Lemma Rs_plane_left (ft : filter_type_t) (n : Z) (rip : R) (ps : list CR) :
  ft <> Be ->
  @s_plane_poles RArith ft n rip = inr ps ->
  Forall (fun p : CR => re p < 0) ps.
Proof.
  intros Hft. destruct ft; [|contradiction|].
  - rewrite (@s_plane_poles_not_Ch RArith) by discriminate.
    unfold prototype_poles. cbn [filter_type_eqb orb rbind].
    apply Rbutterworth_left.
  - destruct (@s_plane_poles_Ch RArith n rip) as (ps' & Hp & ->).
    unfold prototype_poles in Hp. cbn [filter_type_eqb orb rbind] in Hp.
    apply Rbutterworth_left in Hp.
    destruct (@chebyshev_y RArith rip n) as [e|y] eqn:Ey; cbn [rbind];
      [discriminate|].
    intros H. apply inr_inj in H. subst ps.
    apply Rchebyshev_y_pos, sinh_pos in Ey.
    apply Forall_forall. intros q Hq. apply in_map_iff in Hq.
    destruct Hq as (p & <- & Hin). rewrite Rchebyshev_scale_re.
    rewrite Forall_forall in Hp. specialize (Hp p Hin). nra.
Qed.

Lemma Forall_flat_map {X Y : Type} (P : Y -> Prop) (f : X -> list Y)
    (l : list X) :
  (forall x, In x l -> Forall P (f x)) -> Forall P (flat_map f l).
Proof.
  intros H. induction l as [|x l IH]; cbn [flat_map]; [constructor|].
  apply Forall_app. split; [apply H; now left|].
  apply IH. intros y Hy. apply H. now right.
Qed.

(** The band transformation of poles in the left half-plane: for bandpass
    and bandstop the side depends on the sign of [bw = w2 - w1]. *)
Lemma Rband_poles_sign (bt : band_type_t) (w1 w2 : R) (ps : list CR) :
  0 < w1 ->
  match bt with
  | Lp | Hp => True
  | Bp | Bs => 0 < w2 /\ w1 <> w2
  end ->
  Forall (fun p : CR => re p < 0) ps ->
  Forall (fun s : CR =>
            0 < re s * match bt with
                       | Lp | Hp => -1
                       | Bp | Bs => w1 - w2
                       end)
         (@band_poles RArith bt w1 w2 ps).
Proof.
  intros H1 Hb Hps. rewrite Forall_forall in Hps.
  assert (Hw0 : 0 < w2 -> sqrt (w1 * w2) <> 0).
  { intros H2. assert (0 < sqrt (w1 * w2)); [|lra]. apply sqrt_lt_R0. nra. }
  destruct bt; cbn [band_poles];
    [| |destruct Hb as [H2 Hne]; specialize (Hw0 H2)
     |destruct Hb as [H2 Hne]; specialize (Hw0 H2)].
  - apply Forall_forall. intros s Hs. apply in_map_iff in Hs.
    destruct Hs as (p & <- & Hin). specialize (Hps p Hin).
    change (@float RArith) with R in *.
    rewrite Rof_real. cbn [cmul RArith]. unfold Rc_mul. cbn [re im]. nra.
  - apply Forall_forall. intros s Hs. apply in_map_iff in Hs.
    destruct Hs as (p & <- & Hin). specialize (Hps p Hin).
    change (@float RArith) with R in *.
    rewrite Rof_real. cbn [cdiv RArith]. unfold Rc_div. cbn [re im].
    assert (HD : 0 < re p * re p + im p * im p) by nra.
    replace ((w1 * re p + 0 * im p) / (re p * re p + im p * im p) * -1)
      with ((w1 * - re p) / (re p * re p + im p * im p)) by (field; lra).
    apply Rdiv_lt_0_compat; nra.
  - apply Forall_flat_map. intros p Hin. specialize (Hps p Hin).
    change (@float RArith) with R in *.
    cbn [fmul fsub np_sqrt RArith].
    match goal with |- Forall _ (band_pair _ ?x) => set (h := x) end.
    assert (Eh : re h = re p * (w2 - w1) / 2).
    { unfold h. rewrite !Rof_real, Rf05. cbn [cmul RArith]. unfold Rc_mul.
      cbn [re im]. change (@float RArith) with R. field. }
    assert (Hh : re h <> 0) by (rewrite Eh; nra).
    pose proof (band_pair_sign (sqrt (w1 * w2)) h Hw0 Hh) as Hb.
    eapply Forall_impl; [|exact Hb]. cbn beta. intros s Hs.
    assert (Hs' : 0 < re s * (re p * (w2 - w1) / 2))
      by (rewrite <- Eh; exact Hs).
    nra.
  - apply Forall_flat_map. intros p Hin. specialize (Hps p Hin).
    change (@float RArith) with R in *.
    cbn [fmul fsub np_sqrt RArith].
    match goal with |- Forall _ (band_pair _ ?x) => set (h := x) end.
    assert (HD : 0 < re p * re p + im p * im p) by nra.
    assert (Eh : re h = (re p * (w2 - w1) / 2)
                        / (re p * re p + im p * im p)).
    { unfold h. rewrite !Rof_real, Rf05. cbn [cdiv RArith]. unfold Rc_div.
      cbn [re im]. change (@float RArith) with R. field. lra. }
    assert (Hh : re h <> 0).
    { rewrite Eh. intros E. apply Rmult_integral in E. destruct E as [E|E].
      - nra.
      - apply Rinv_neq_0_compat in E; [assumption|lra]. }
    pose proof (band_pair_sign (sqrt (w1 * w2)) h Hw0 Hh) as Hb.
    eapply Forall_impl; [|exact Hb]. cbn beta. intros s Hs.
    assert (Hs' : 0 < re s * ((re p * (w2 - w1) / 2)
                              / (re p * re p + im p * im p)))
      by (rewrite <- Eh; exact Hs).
    assert (Hi : 0 < / (re p * re p + im p * im p))
      by (apply Rinv_0_lt_compat; assumption).
    unfold Rdiv in Hs'.
    assert (Hk : 0 < re s * (re p * (w2 - w1))).
    { apply (Rmult_lt_reg_r (/ 2 * / (re p * re p + im p * im p))); [nra|].
      rewrite Rmult_0_l. nra. }
    nra.
Qed.

Lemma Rwarp_pos (blt_flag prewarp_flag : bool) (a : R) :
  0 < a < / 2 -> 0 < @warp RArith blt_flag prewarp_flag a.
Proof.
  intros Ha. unfold warp. destruct (negb prewarp_flag || negb blt_flag); [lra|].
  rewrite RPI. cbn [fdiv fmul np_tan RArith].
  pose proof PI_RGT_0 as Hpi.
  apply Rdiv_lt_0_compat; [|assumption].
  apply tan_gt_0; nra.
Qed.

Lemma Rwarp_lt (blt_flag prewarp_flag : bool) (a b : R) :
  0 < a -> a < b -> b < / 2 ->
  @warp RArith blt_flag prewarp_flag a < @warp RArith blt_flag prewarp_flag b.
Proof.
  intros Ha Hab Hb. unfold warp.
  destruct (negb prewarp_flag || negb blt_flag); [lra|].
  rewrite RPI. cbn [fdiv fmul np_tan RArith].
  pose proof PI_RGT_0 as Hpi.
  apply Rmult_lt_compat_r; [now apply Rinv_0_lt_compat|].
  apply tan_increasing; nra.
Qed.

Lemma Rc_abs_lt_1 (z : CR) : re z * re z + im z * im z < 1 -> Rc_abs z < 1.
Proof.
  intros H. unfold Rc_abs. rewrite <- sqrt_1.
  apply sqrt_lt_1_alt. split; [nra|assumption].
Qed.

Lemma Rc_abs_gt_1 (z : CR) : 1 < re z * re z + im z * im z -> 1 < Rc_abs z.
Proof.
  intros H. unfold Rc_abs. rewrite <- sqrt_1 at 1.
  apply sqrt_lt_1_alt. split; [lra|assumption].
Qed.

(** The bilinear transform maps the left half-plane into the unit disc. *)
Lemma Rblt_abs (s : CR) : re s < 0 -> Rc_abs (@blt RArith s) < 1.
Proof.
  intros Hs. apply Rc_abs_lt_1. unfold blt. rewrite Rof_real, Rf2.
  cbn [cdiv cadd csub RArith]. unfold Rc_div, Rc_add, Rc_sub. cbn [re im].
  destruct s as [x y]. cbn [re im] in *.
  set (D := (2 - x) * (2 - x) + (0 - y) * (0 - y)).
  assert (HD : 0 < D) by (unfold D; nra).
  set (u := (2 + x) * (2 - x) + (0 + y) * (0 - y)).
  set (w := (0 + y) * (2 - x) - (2 + x) * (0 - y)).
  assert (E : u * u + w * w = ((2 + x) * (2 + x) + y * y) * D)
    by (unfold u, w, D; ring).
  replace (u / D * (u / D) + w / D * (w / D))
    with ((u * u + w * w) / (D * D)) by (field; lra).
  rewrite E.
  replace (((2 + x) * (2 + x) + y * y) * D / (D * D))
    with (((2 + x) * (2 + x) + y * y) / D) by (field; lra).
  apply (Rmult_lt_reg_r D); [assumption|].
  unfold Rdiv. rewrite Rmult_assoc, Rinv_l by lra. unfold D. nra.
Qed.

(** The matched z-transform: [|exp(s)| = exp(re s)]. *)
Lemma Rexp_abs (s : CR) : Rc_abs (Rc_exp s) = exp (re s).
Proof.
  unfold Rc_abs, Rc_exp. cbn [re im].
  replace (exp (re s) * cos (im s) * (exp (re s) * cos (im s))
           + exp (re s) * sin (im s) * (exp (re s) * sin (im s)))
    with ((exp (re s) * exp (re s)) * (Rsqr (sin (im s)) + Rsqr (cos (im s))))
    by (unfold Rsqr; ring).
  rewrite sin2_cos2, Rmult_1_r. apply sqrt_square.
  left. apply exp_pos.
Qed.

Lemma Rz_poles_stable (blt_flag : bool) (sp : list CR) :
  Forall (fun s : CR => re s < 0) sp ->
  Forall (fun z : CR => Rc_abs z < 1) (@z_poles RArith blt_flag sp).
Proof.
  intros Hsp. unfold z_poles. destruct blt_flag; apply Forall_map;
    (eapply Forall_impl; [|exact Hsp]); cbn beta; intros s Hs.
  - now apply Rblt_abs.
  - cbn [np_cexp RArith]. rewrite Rexp_abs, <- exp_0.
    now apply exp_increasing.
Qed.

(** C4, as the code has it, in exact arithmetic.  For Butterworth and
    Chebyshev, with the corner(s) in (0, 0.5) and, for bandpass and
    bandstop, the second corner given and above the first, every digital
    pole of a successful design has modulus strictly less than 1, under
    either mapping and for every order. *)
Theorem poles_stable (self : MkFilter) (ft : filter_type_t)
    (bt : band_type_t) (n : Z) (alpha1 : R) (alpha2 : option R) (rip : R)
    (blt_flag prewarp_flag : bool)
    (v : option (list R) * option (list R)) (self' : MkFilter) :
  ft <> Be ->
  0 < alpha1 < / 2 ->
  match bt with
  | Lp | Hp => True
  | Bp | Bs => exists a2, alpha2 = Some a2 /\ alpha1 < a2 < / 2
  end ->
  @design RArith self ft bt n alpha1 alpha2 rip blt_flag prewarp_flag
  = Ret v self' ->
  Forall (fun z : CR => Rc_abs z < 1) (poles (zplane self')).
Proof.
  intros Hft Ha1 Ha2 Hd. apply (@design_ret_inv RArith) in Hd.
  destruct Hd as (ps & Hps & -> & _).
  apply Rs_plane_left in Hps; [|assumption].
  rewrite (@design_final_zplane RArith). cbn [poles].
  unfold design_z_poles. cbn zeta. apply Rz_poles_stable.
  pose proof PI_RGT_0 as Hpi.
  pose proof (Rwarp_pos blt_flag prewarp_flag alpha1 Ha1) as Hw1.
  rewrite RTWOPI. cbn [fmul RArith].
  eapply Forall_impl;
    [|apply (Rband_poles_sign bt); [nra| |exact Hps]].
  - cbn beta. intros s Hs. destruct bt.
    + lra.
    + lra.
    + destruct Ha2 as (a2 & -> & Ha2).
      assert (Hlt : @warp RArith blt_flag prewarp_flag alpha1
                    < @warp RArith blt_flag prewarp_flag a2)
        by (apply Rwarp_lt; lra).
      change (@float RArith) with R in *.
      set (x1 := @warp RArith blt_flag prewarp_flag alpha1) in *.
      set (x2 := @warp RArith blt_flag prewarp_flag a2) in *.
      clearbody x1 x2.
      assert (Hk : 0 < 2 * Rpi * x2 - 2 * Rpi * x1) by nra.
      nra.
    + destruct Ha2 as (a2 & -> & Ha2).
      assert (Hlt : @warp RArith blt_flag prewarp_flag alpha1
                    < @warp RArith blt_flag prewarp_flag a2)
        by (apply Rwarp_lt; lra).
      change (@float RArith) with R in *.
      set (x1 := @warp RArith blt_flag prewarp_flag alpha1) in *.
      set (x2 := @warp RArith blt_flag prewarp_flag a2) in *.
      clearbody x1 x2.
      assert (Hk : 0 < 2 * Rpi * x2 - 2 * Rpi * x1) by nra.
      nra.
  - destruct bt; [exact I|exact I| |];
      destruct Ha2 as (a2 & -> & Ha2);
      assert (Hlt : @warp RArith blt_flag prewarp_flag alpha1
                    < @warp RArith blt_flag prewarp_flag a2)
        by (apply Rwarp_lt; lra);
      change (@float RArith) with R in *;
      set (x1 := @warp RArith blt_flag prewarp_flag alpha1) in *;
      set (x2 := @warp RArith blt_flag prewarp_flag a2) in *;
      clearbody x1 x2; split; nra.
Qed.

End ExactStability.

(** ** The Chebyshev ripple checks *)

Section ChebyshevRipple.

Local Open Scope R_scope.



End ChebyshevRipple.

(** ** Designs at concrete arguments, in exact arithmetic *)

Section ExactExamples.

Local Open Scope R_scope.

Local Abbreviation CR := (complex R).
Local Abbreviation Rpi := Rtrigo1.PI.

(** The first entry of the Bessel table, the pole of order 1. *)
Local Abbreviation bessel1 :=
  (Cx (@lit RArith (-100000000000) (-11)) (@lit RArith 0 (-11))).

Lemma Rs_plane_bessel1 (rip : R) :
  @s_plane_poles RArith Be 1 rip = inr [bessel1].
Proof. reflexivity. Qed.


Lemma Rdiv_one_law : @fdiv RArith (fneg f1) f1 = @fneg RArith f1.
Proof.
  rewrite Rf1. cbn [fdiv fneg RArith]. change (@float RArith) with R. field.
Qed.

(** [(z - 2)(z - 3) = 6 - 5 z + z^2], lowest degree first. *)
Example expand_two_roots :
  @_expand RArith [Cx 2 0; Cx 3 0] = inr [Cx 6 0; Cx (-5) 0; Cx 1 0].
Proof.
  rewrite (@_expand_eq RArith). unfold expand_list. cbn [fold_left].
  unfold expand_step_list, expand_elem.
  cbn [length Nat.add seq map Nat.eqb Nat.ltb Nat.leb nth Nat.sub].
  rewrite !Rof_real, !Rf1. cbn [cmul csub cneg RArith].
  f_equal.
  repeat match goal with |- (_ :: _) = (_ :: _) => f_equal end;
    try reflexivity;
    apply complex_eq; unfold Rc_mul, Rc_sub, Rc_neg; cbn [re im]; ring.
Qed.

(** A Bessel highpass of order 3 takes the entries 2 and 3 of the table and
    has 3 digital poles and 3 digital zeros. *)
Example bessel_order3 :
  @s_plane_poles RArith Be 3 (-1)
  = inr [Cx (@lit RArith (-132267579991) (-11)) (@lit RArith 0 (-11));
         Cx (@lit RArith (-104740916101) (-11)) (@lit RArith 999264436281 (-12));
         Cx (@lit RArith (-104740916101) (-11))
            (- @lit RArith 999264436281 (-12))].
Proof. reflexivity. Qed.

(** [main] rejects order 11 and a bandpass with one corner frequency. *)
Example main_rejects :
  @main RArith (mkArgs Arg_Bu Lp 11 [(1 / 10)%R] true true) = (1%Z, None)
  /\ @main RArith (mkArgs Arg_Bu Bp 4 [(1 / 10)%R] true true) = (1%Z, None).
Proof. split; reflexivity. Qed.

(** The Bessel table has no order 11. *)
Example bessel_order11 :
  @s_plane_poles RArith Be 11 (-1) = inl IndexError.
Proof. reflexivity. Qed.


(** C2 fails on the code.  Bessel lowpass of order 1 with corner 0.1 under
    the matched z-transform: one numerator coefficient, two denominator
    coefficients. *)
Lemma coefficient_counts_counterexample :
  exists xs ys self',
    @design RArith MkFilter_init Be Lp 1 (1 / 10) None (-1) false true
    = Ret (Some xs, Some ys) self'
    /\ length xs = 1%nat /\ length ys = 2%nat.
Proof.
  rewrite (@design_ret RArith MkFilter_init Be Lp 1 (1 / 10) None (-1)
             false true _ (Rs_plane_bessel1 _)).
  cbv zeta. rewrite (@design_final_xcoeffs RArith), (@design_final_ycoeffs RArith).
  eexists. eexists. eexists. split; [reflexivity|].
  rewrite !length_map, !(@length_expand_list RArith).
  rewrite (@length_design_z_zeros RArith), (@length_design_z_poles RArith).
  split; reflexivity.
Qed.

(** C6 fails on the code.  Bessel bandpass of order 1 under the matched
    z-transform has 2 digital poles and 1 digital zero, not 2; and a design
    of order -1 succeeds, with no pole. *)
Lemma pole_zero_counts_counterexample :
  (exists v self',
      @design RArith MkFilter_init Be Bp 1 (2 / 10) (Some (3 / 10)) (-1)
              false true
      = Ret v self'
      /\ length (poles (zplane self')) = 2%nat
      /\ length (zeros (zplane self')) = 1%nat)
  /\ (exists v self',
         @design RArith MkFilter_init Bu Lp (-1) (1 / 10) None (-1) true true
         = Ret v self'
         /\ length (poles (zplane self')) = 0%nat).
Proof.
  split.
  - rewrite (@design_ret RArith MkFilter_init Be Bp 1 (2 / 10) (Some (3 / 10))
               (-1) false true _ (Rs_plane_bessel1 _)).
    cbv zeta. eexists. eexists. split; [reflexivity|].
    rewrite (@design_final_zplane RArith). cbn [poles zeros].
    rewrite (@length_design_z_zeros RArith), (@length_design_z_poles RArith).
    split; reflexivity.
  - assert (E : @s_plane_poles RArith Bu (-1) (-1) = inr []) by reflexivity.
    rewrite (@design_ret RArith MkFilter_init Bu Lp (-1) (1 / 10) None (-1)
               true true _ E).
    cbv zeta. eexists. eexists. split; [reflexivity|].
    rewrite (@design_final_zplane RArith). cbn [poles].
    rewrite (@length_design_z_poles RArith). reflexivity.
Qed.

Lemma Rz_poles_mzt_unstable (sp : list CR) :
  Forall (fun s : CR => 0 < re s) sp ->
  Forall (fun z : CR => 1 < Rc_abs z) (@z_poles RArith false sp).
Proof.
  intros Hsp. unfold z_poles. apply Forall_map.
  eapply Forall_impl; [|exact Hsp]. cbn beta. intros s Hs.
  cbn [np_cexp RArith]. rewrite Rexp_abs, <- exp_0.
  now apply exp_increasing.
Qed.

(** A computation that returns, from its value. *)
Lemma result_of_option {A : Arith} {T : Type} (r : result T) (v : T) :
  match r with inr x => Some x | inl _ => None end = Some v -> r = inr v.
Proof. destruct r as [e|x]; [discriminate|]. intros H. now apply Some_inj in H; subst. Qed.

(** Rounding.  In binary64 arithmetic, Butterworth lowpass of order 1 with
    the corner [1e-17] under the bilinear mapping: the analog pole is about
    [-6.3e-17], both [2.0 + s] and [2.0 - s] round to [2.0], and the one
    digital pole is [1.0 + 1.2e-32j]; [np.abs] of it is [1.0]. *)
Lemma F64_pole_on_circle :
  exists v self' z,
    @design F64Arith MkFilter_init Bu Lp 1 (@lit F64Arith 1 (-17)) None
            (@fneg F64Arith f1) true true
    = Ret v self'
    /\ poles (zplane self') = [z]
    /\ @np_abs F64Arith z = @f1 F64Arith
    /\ @fltb F64Arith (@np_abs F64Arith z) f1 = false.
Proof.
  pose (ps := match @s_plane_poles F64Arith Bu 1 (@fneg F64Arith f1) with
              | inr ps => ps
              | inl _ => []
              end).
  assert (E : @s_plane_poles F64Arith Bu 1 (@fneg F64Arith f1) = inr ps).
  { apply result_of_option. vm_compute. reflexivity. }
  rewrite (@design_ret F64Arith MkFilter_init Bu Lp 1 (@lit F64Arith 1 (-17))
             None (@fneg F64Arith f1) true true ps E).
  cbv zeta. eexists. eexists.
  exists (hd (@c0 F64Arith)
            (@design_z_poles F64Arith Lp (@lit F64Arith 1 (-17)) None true
               true ps)).
  split; [reflexivity|].
  rewrite (@design_final_zplane F64Arith). cbn [poles].
  split; [vm_compute; reflexivity|].
  split; vm_compute; reflexivity.
Qed.

(** C4 fails on the code.  Butterworth bandpass of order 1 with corners
    0.3 and 0.2, both in (0, 0.5), under the matched z-transform: the design
    succeeds and both digital poles have modulus greater than 1.  And with
    the corners in order the bound is one of exact arithmetic: in binary64
    arithmetic, Butterworth lowpass of order 1 with the corner [1e-17]
    under the bilinear mapping has its pole on the unit circle, and the
    test [np.abs(pole) < 1.0] is false. *)
Lemma poles_stable_counterexample :
  (exists v self',
      @design RArith MkFilter_init Bu Bp 1 (3 / 10) (Some (2 / 10)) (-1)
              false true
      = Ret v self'
      /\ length (poles (zplane self')) = 2%nat
      /\ Forall (fun z : CR => 1 < Rc_abs z) (poles (zplane self')))
  /\ (exists v self' z,
         @design F64Arith MkFilter_init Bu Lp 1 (@lit F64Arith 1 (-17)) None
                 (@fneg F64Arith f1) true true
         = Ret v self'
         /\ poles (zplane self') = [z]
         /\ @np_abs F64Arith z = @f1 F64Arith
         /\ @fltb F64Arith (@np_abs F64Arith z) f1 = false).
Proof.
  split; [|exact F64_pole_on_circle].
  destruct (Rbutterworth_count 1) as (ps & Hps & Hl & Hleft); [lia|].
  assert (E : @s_plane_poles RArith Bu 1 (-1) = inr ps).
  { rewrite (@s_plane_poles_not_Ch RArith) by discriminate.
    unfold prototype_poles. cbn [filter_type_eqb orb rbind]. exact Hps. }
  rewrite (@design_ret RArith MkFilter_init Bu Bp 1 (3 / 10) (Some (2 / 10))
             (-1) false true _ E).
  cbv zeta. eexists. eexists. split; [reflexivity|].
  rewrite (@design_final_zplane RArith). cbn [poles]. split.
  - rewrite (@length_design_z_poles RArith).
    change (@float RArith) with R in *. rewrite Hl. reflexivity.
  - unfold design_z_poles. cbn zeta. apply Rz_poles_mzt_unstable.
    unfold warp. cbn [negb orb]. rewrite RTWOPI. cbn [fmul RArith].
    pose proof PI_RGT_0 as Hpi.
    eapply Forall_impl;
      [|apply (Rband_poles_sign Bp (2 * Rpi * (3 / 10)) (2 * Rpi * (2 / 10)));
        [nra|split; nra|exact Hleft]].
    cbn beta. intros s Hs. nra.
Qed.


(** Witnesses: the theorems at concrete arguments. *)


Lemma coefficient_counts_witness :
  exists xs ys self',
    @design RArith MkFilter_init Be Lp 1 (1 / 10) None (-1) false true
    = Ret (xs, ys) self'
    /\ exists lx ly,
         xs = Some lx /\ ys = Some ly
         /\ length lx = (length (zeros (zplane self')) + 1)%nat
         /\ length ly = (length (poles (zplane self')) + 1)%nat
         /\ (false = true \/ Lp = Hp \/ Lp = Bs -> length lx = length ly)
         /\ (false = false -> Lp = Lp -> length lx = 1%nat)
         /\ (false = false -> Lp = Bp ->
             (2 * length lx = length ly + 1)%nat)
         /\ (false = false -> Lp = Lp \/ Lp = Bp ->
             ((length lx < length ly)%nat <-> poles (zplane self') <> [])).
Proof.
  eexists. eexists. eexists. split.
  - apply (@design_ret RArith MkFilter_init Be Lp 1 (1 / 10) None (-1)
             false true _ (Rs_plane_bessel1 _)).
  - apply (@coefficient_counts RArith MkFilter_init Be Lp 1 (1 / 10) None (-1)
             false true).
    apply (@design_ret RArith MkFilter_init Be Lp 1 (1 / 10) None (-1)
             false true _ (Rs_plane_bessel1 _)).
Defined.

Lemma last_ycoeff_minus_one_witness :
  exists xs ys self',
    @design RArith MkFilter_init Be Lp 1 (1 / 10) None (-1) true true
    = Ret (xs, ys) self'
    /\ exists l, ys = Some (l ++ [@fneg RArith f1]) /\ ycoeffs self' = ys.
Proof.
  eexists. eexists. eexists. split.
  - apply (@design_ret RArith MkFilter_init Be Lp 1 (1 / 10) None (-1)
             true true _ (Rs_plane_bessel1 _)).
  - eapply (@last_ycoeff_minus_one RArith MkFilter_init Be Lp 1 (1 / 10) None
              (-1) true true).
    + exact Rdiv_one_law.
    + apply (@design_ret RArith MkFilter_init Be Lp 1 (1 / 10) None (-1)
               true true _ (Rs_plane_bessel1 _)).
Defined.

Lemma poles_stable_witness :
  exists v self',
    @design RArith MkFilter_init Bu Lp 4 (1 / 10) None (-1) true true
    = Ret v self'
    /\ Forall (fun z : CR => Rc_abs z < 1) (poles (zplane self')).
Proof.
  destruct (@design_Bu_ret RArith MkFilter_init Lp 4 (1 / 10) None (-1)
              true true) as (xs & ys & self' & E).
  exists (Some xs, Some ys), self'. split; [exact E|].
  apply (poles_stable MkFilter_init Bu Lp 4 (1 / 10) None (-1) true true
           (Some xs, Some ys) self').
  - discriminate.
  - lra.
  - exact I.
  - exact E.
Defined.


Lemma pole_zero_counts_witness :
  exists v self',
    @design RArith MkFilter_init Be Hp 1 (1 / 10) None (-1) true true
    = Ret v self'
    /\ Z.of_nat (length (poles (zplane self'))) = 1%Z
    /\ Z.of_nat (length (zeros (zplane self'))) = 1%Z.
Proof.
  eexists. eexists. split.
  - apply (@design_ret RArith MkFilter_init Be Hp 1 (1 / 10) None (-1)
             true true _ (Rs_plane_bessel1 _)).
  - eapply (pole_zero_counts MkFilter_init Be Hp 1 (1 / 10) None (-1) true true).
    + lia.
    + apply (@design_ret RArith MkFilter_init Be Hp 1 (1 / 10) None (-1)
               true true _ (Rs_plane_bessel1 _)).
Defined.

Lemma expand_permutation_invariant_witness :
  @_expand RArith [Cx 1 2; Cx 3 4] = @_expand RArith [Cx 3 4; Cx 1 2].
Proof.
  apply (proj2 expand_permutation_invariant). apply perm_swap.
Defined.

Lemma design_deterministic_witness :
  @value_of RArith _
    (@design RArith MkFilter_init Be Lp 1 (1 / 10) None (-1) true true)
  = @value_of RArith _
      (@design RArith
         (@design_final RArith Be Hp 1 (2 / 10) None (-1) true true [bessel1])
         Be Lp 1 (1 / 10) None (-1) true true).
Proof.
  apply (proj1 (@design_deterministic RArith MkFilter_init
                  (@design_final RArith Be Hp 1 (2 / 10) None (-1) true true
                     [bessel1])
                  Be Lp 1 (1 / 10) None (-1) true true)).
Defined.


End ExactExamples.

(** * Further properties of the design pipeline *)

(** ** The Bessel table and the order *)

Section BesselBounds.

Context {A : Arith}.

Local Abbreviation C := (complex float).

Lemma range_cons (n : Z) : (0 < n)%Z -> exists l, range n = 0%Z :: l.
Proof.
  intros Hn. unfold range. destruct (Z.to_nat n) as [|m] eqn:E; [lia|].
  cbn [seq map]. eexists. reflexivity.
Qed.

Lemma BESSEL_POLES_length : length BESSEL_POLES = 30%nat.
Proof. reflexivity. Qed.

Lemma bessel_poles_small (n : Z) :
  (0 <= n <= 10)%Z -> exists ps, bessel_poles n [] = inr ps.
Proof.
  intros Hn. rewrite <- (Z2Nat.id n) by lia.
  assert (Hk : (Z.to_nat n <= 10)%nat) by lia.
  revert Hk. generalize (Z.to_nat n). clear Hn. intros k.
  do 11 (destruct k as [|k]; [intros _; eexists; reflexivity|]).
  intros Hk. lia.
Qed.

Lemma bessel_poles_large (n : Z) :
  (10 < n)%Z -> bessel_poles n [] = inl IndexError.
Proof.
  intros Hn. unfold bessel_poles.
  assert (Hp : (Z.of_nat (length BESSEL_POLES) <= n * n / 4)%Z).
  { rewrite BESSEL_POLES_length. apply Z.div_le_lower_bound; nia. }
  destruct (negb (Z.land n 1 =? 0)%Z).
  - rewrite (getitem_out _ _ Hp). reflexivity.
  - cbn [rbind]. destruct (range_cons (n / 2)) as [l ->].
    + apply Z.div_str_pos. lia.
    + cbn [for_each]. rewrite (getitem_out _ _ Hp). reflexivity.
Qed.

(** X1.  The Bessel table serves exactly the orders up to [MAXORDER]: for
    [0 <= order <= 10] a Bessel design returns coefficients; for
    [order > 10] it raises [IndexError] and leaves the coefficients of the
    object as they were. *)
Theorem bessel_order_bound (self : MkFilter) (bt : band_type_t) (n : Z)
    (alpha1 : float) (alpha2 : option float) (rip : float)
    (blt_flag prewarp_flag : bool) :
  (0 <= n)%Z ->
  ((n <= MAXORDER)%Z ->
   exists xs ys self',
     design self Be bt n alpha1 alpha2 rip blt_flag prewarp_flag
     = Ret (Some xs, Some ys) self')
  /\ ((MAXORDER < n)%Z ->
      exists self',
        design self Be bt n alpha1 alpha2 rip blt_flag prewarp_flag
        = Raise IndexError self'
        /\ xcoeffs self' = xcoeffs self /\ ycoeffs self' = ycoeffs self).
Proof.
  intros Hn. unfold MAXORDER. split; intros Hb.
  - destruct (bessel_poles_small n) as [ps Hps]; [lia|].
    assert (E : s_plane_poles Be n rip = inr ps).
    { rewrite s_plane_poles_not_Ch by discriminate.
      unfold prototype_poles. cbn [filter_type_eqb orb]. rewrite Hps.
      reflexivity. }
    rewrite (design_ret self Be bt n alpha1 alpha2 rip blt_flag prewarp_flag
               ps E).
    cbv zeta. rewrite design_final_xcoeffs, design_final_ycoeffs.
    eexists. eexists. eexists. reflexivity.
  - assert (E : s_plane_poles Be n rip = inl IndexError).
    { rewrite s_plane_poles_not_Ch by discriminate.
      unfold prototype_poles. cbn [filter_type_eqb orb].
      rewrite (bessel_poles_large n Hb). reflexivity. }
    destruct (design_raise self Be bt n alpha1 alpha2 rip blt_flag
                prewarp_flag _ E) as (s1 & H1 & H2 & H3 & _).
    exists s1. split; [exact H1|]. split; assumption.
Qed.

End BesselBounds.

(** ** Arguments that do not matter *)

Section Irrelevant.

Context {A : Arith}.

Local Abbreviation C := (complex float).

Lemma warp_mzt (pw : bool) (a : float) : warp false pw a = a.
Proof. unfold warp. now destruct pw. Qed.

Lemma design_final_prewarp_mzt ft bt n alpha1 alpha2 rip pw1 pw2
    (ps : list C) :
  design_final ft bt n alpha1 alpha2 rip false pw2 ps
  = set_prewarp (design_final ft bt n alpha1 alpha2 rip false pw1 ps) pw2.
Proof.
  unfold design_final. cbn zeta.
  rewrite !(pipeline_closed _ bt false) by reflexivity.
  cbn [design_entry set_splane set_prewarp set_use_blt set_chebrip
       set_raw_alpha2 set_raw_alpha1 set_order set_band_type set_filter_type
       prewarp raw_alpha1 raw_alpha2 splane poles set_poles].
  rewrite !warp_mzt. reflexivity.
Qed.

(** X2.  Under the matched z-transform the pre-warp flag has no effect:
    two calls that differ in [prewarp] only return the same coefficients or
    raise the same exception, and leave objects that differ in the stored
    flag only (same poles, zeros and gains). *)
Theorem prewarp_ignored_by_mzt (self : MkFilter) (ft : filter_type_t)
    (bt : band_type_t) (n : Z) (alpha1 : float) (alpha2 : option float)
    (rip : float) (pw1 pw2 : bool) :
  value_of (design self ft bt n alpha1 alpha2 rip false pw1)
  = value_of (design self ft bt n alpha1 alpha2 rip false pw2)
  /\ (forall v s1,
         design self ft bt n alpha1 alpha2 rip false pw1 = Ret v s1 ->
         design self ft bt n alpha1 alpha2 rip false pw2
         = Ret v (set_prewarp s1 pw2)).
Proof.
  destruct (s_plane_poles ft n rip) as [e|ps] eqn:E.
  - destruct (design_raise self ft bt n alpha1 alpha2 rip false pw1 e E)
      as (s1 & H1 & _).
    destruct (design_raise self ft bt n alpha1 alpha2 rip false pw2 e E)
      as (s2 & H2 & _).
    rewrite H1, H2. split; [reflexivity|]. intros v s H. discriminate H.
  - rewrite (design_ret self ft bt n alpha1 alpha2 rip false pw1 ps E).
    rewrite (design_ret self ft bt n alpha1 alpha2 rip false pw2 ps E).
    cbv zeta. rewrite (design_final_prewarp_mzt ft bt n alpha1 alpha2 rip pw1 pw2).
    generalize (design_final ft bt n alpha1 alpha2 rip false pw1 ps).
    intros final. split; [reflexivity|].
    intros v s H. apply Ret_inj in H. destruct H as [<- <-]. reflexivity.
Qed.

End Irrelevant.

(** ** The fields of the object a design leaves *)

Section FinalFields.

Context {A : Arith}.

Local Abbreviation C := (complex float).

Lemma design_final_gains ft bt n alpha1 alpha2 rip blt_flag prewarp_flag
    (ps : list C) :
  let final := design_final ft bt n alpha1 alpha2 rip blt_flag prewarp_flag ps in
  let top := expand_list
               (design_z_zeros bt alpha1 alpha2 blt_flag prewarp_flag ps) in
  let bot := expand_list
               (design_z_poles bt alpha1 alpha2 blt_flag prewarp_flag ps) in
  dc_gain final = _evaluate top bot (of_real f1)
  /\ hf_gain final = _evaluate top bot (of_real (fneg f1))
  /\ band_type final = Some bt.
Proof.
  cbv zeta. unfold design_final. cbn zeta.
  rewrite (pipeline_closed _ bt blt_flag) by reflexivity.
  split; [reflexivity|]. split; reflexivity.
Qed.

Lemma design_final_splane ft bt n alpha1 alpha2 rip blt_flag prewarp_flag
    (ps : list C) :
  let a2 := match alpha2 with Some a => a | None => alpha1 end in
  let w1 := fmul TWOPI (warp blt_flag prewarp_flag alpha1) in
  let w2 := fmul TWOPI (warp blt_flag prewarp_flag a2) in
  splane (design_final ft bt n alpha1 alpha2 rip blt_flag prewarp_flag ps)
  = mkPZ (band_poles bt w1 w2 ps) (band_zeros bt w1 w2 ps).
Proof.
  cbv zeta. unfold design_final. cbn zeta.
  rewrite (pipeline_closed _ bt blt_flag) by reflexivity. reflexivity.
Qed.

Lemma band_lphp_w2 (bt : band_type_t) (w1 w2 w2' : float) (ps : list C) :
  bt = Lp \/ bt = Hp ->
  band_poles bt w1 w2 ps = band_poles bt w1 w2' ps
  /\ band_zeros bt w1 w2 ps = band_zeros bt w1 w2' ps.
Proof. intros [->| ->]; split; reflexivity. Qed.

Lemma design_z_lphp bt alpha1 alpha2 alpha2' blt_flag prewarp_flag
    (ps : list C) :
  bt = Lp \/ bt = Hp ->
  design_z_poles bt alpha1 alpha2 blt_flag prewarp_flag ps
  = design_z_poles bt alpha1 alpha2' blt_flag prewarp_flag ps
  /\ design_z_zeros bt alpha1 alpha2 blt_flag prewarp_flag ps
     = design_z_zeros bt alpha1 alpha2' blt_flag prewarp_flag ps.
Proof. intros [->| ->]; split; reflexivity. Qed.

(** X3.  For lowpass and highpass the second corner frequency does not
    enter the filter: two calls that differ in [alpha2] only return the
    same coefficients (or raise the same exception) and leave the same
    analog and digital poles and zeros, the same gains at DC and at
    Nyquist and the same [get_gain()].  (The gain at the band centre does
    use it.) *)
Theorem second_corner_ignored (self : MkFilter) (ft : filter_type_t)
    (bt : band_type_t) (n : Z) (alpha1 : float) (alpha2 alpha2' : option float)
    (rip : float) (blt_flag prewarp_flag : bool) :
  bt = Lp \/ bt = Hp ->
  value_of (design self ft bt n alpha1 alpha2 rip blt_flag prewarp_flag)
  = value_of (design self ft bt n alpha1 alpha2' rip blt_flag prewarp_flag)
  /\ (forall v s1,
         design self ft bt n alpha1 alpha2 rip blt_flag prewarp_flag
         = Ret v s1 ->
         exists s2,
           design self ft bt n alpha1 alpha2' rip blt_flag prewarp_flag
           = Ret v s2
           /\ splane s2 = splane s1 /\ zplane s2 = zplane s1
           /\ dc_gain s2 = dc_gain s1 /\ hf_gain s2 = hf_gain s1
           /\ get_gain s2 = get_gain s1).
Proof.
  intros Hbt.
  destruct (s_plane_poles ft n rip) as [e|ps] eqn:E.
  - destruct (design_raise self ft bt n alpha1 alpha2 rip blt_flag
                prewarp_flag e E) as (s1 & H1 & _).
    destruct (design_raise self ft bt n alpha1 alpha2' rip blt_flag
                prewarp_flag e E) as (s2 & H2 & _).
    rewrite H1, H2. split; [reflexivity|]. intros v s H. discriminate H.
  - rewrite (design_ret self ft bt n alpha1 alpha2 rip blt_flag prewarp_flag
               ps E).
    rewrite (design_ret self ft bt n alpha1 alpha2' rip blt_flag prewarp_flag
               ps E).
    cbv zeta.
    destruct (design_z_lphp bt alpha1 alpha2 alpha2' blt_flag prewarp_flag ps
                Hbt) as [Ezp Ezz].
    pose proof (design_final_gains ft bt n alpha1 alpha2 rip blt_flag
                  prewarp_flag ps) as G1.
    pose proof (design_final_gains ft bt n alpha1 alpha2' rip blt_flag
                  prewarp_flag ps) as G2.
    cbv zeta in G1, G2. rewrite <- Ezp, <- Ezz in G2.
    destruct G1 as (D1 & F1 & B1). destruct G2 as (D2 & F2 & B2).
    pose proof (design_final_splane ft bt n alpha1 alpha2 rip blt_flag
                  prewarp_flag ps) as S1.
    pose proof (design_final_splane ft bt n alpha1 alpha2' rip blt_flag
                  prewarp_flag ps) as S2.
    cbv zeta in S1, S2.
    pose proof (design_final_zplane ft bt n alpha1 alpha2 rip blt_flag
                  prewarp_flag ps) as Z1.
    pose proof (design_final_zplane ft bt n alpha1 alpha2' rip blt_flag
                  prewarp_flag ps) as Z2.
    rewrite <- Ezp, <- Ezz in Z2.
    pose proof (design_final_xcoeffs ft bt n alpha1 alpha2 rip blt_flag
                  prewarp_flag ps) as X1.
    pose proof (design_final_xcoeffs ft bt n alpha1 alpha2' rip blt_flag
                  prewarp_flag ps) as X2.
    rewrite <- Ezz in X2.
    pose proof (design_final_ycoeffs ft bt n alpha1 alpha2 rip blt_flag
                  prewarp_flag ps) as Y1.
    pose proof (design_final_ycoeffs ft bt n alpha1 alpha2' rip blt_flag
                  prewarp_flag ps) as Y2.
    rewrite <- Ezp in Y2.
    generalize dependent
      (design_final ft bt n alpha1 alpha2 rip blt_flag prewarp_flag ps).
    generalize dependent
      (design_final ft bt n alpha1 alpha2' rip blt_flag prewarp_flag ps).
    intros f2 D2 F2 B2 S2 Z2 X2 Y2 f1 D1 F1 B1 S1 Z1 X1 Y1.
    assert (Eg : get_gain f2 = get_gain f1).
    { unfold get_gain. rewrite B1, B2.
      destruct Hbt as [->| ->]; congruence. }
    assert (Es : splane f2 = splane f1).
    { rewrite S1, S2.
      destruct (band_lphp_w2 bt
                  (fmul TWOPI (warp blt_flag prewarp_flag alpha1))
                  (fmul TWOPI (warp blt_flag prewarp_flag
                     match alpha2 with Some a => a | None => alpha1 end))
                  (fmul TWOPI (warp blt_flag prewarp_flag
                     match alpha2' with Some a => a | None => alpha1 end))
                  ps Hbt) as [-> ->].
      reflexivity. }
    rewrite X1, X2, Y1, Y2. split; [reflexivity|].
    intros v s H. apply Ret_inj in H. destruct H as [<- <-].
    exists f2. split; [reflexivity|].
    split; [exact Es|]. split; [congruence|]. split; [congruence|].
    split; [congruence|exact Eg].
Qed.

(** X4.  Where the digital zeros are.  The zeros of the analog lowpass
    prototype moved to the origin ([0j]) by the band transformation are
    mapped by the domain mapping, and the bilinear mapping then appends
    zeros at [-1.0] up to the number of poles: a lowpass has all its zeros
    at [-1.0] under the bilinear mapping and none under the matched
    z-transform, a highpass has as many images of [0j] as poles, and a
    bandpass half as many, followed under the bilinear mapping by as many
    [-1.0]. *)
Theorem digital_zeros_structure (self : MkFilter) (ft : filter_type_t)
    (bt : band_type_t) (n : Z) (alpha1 : float) (alpha2 : option float)
    (rip : float) (blt_flag prewarp_flag : bool)
    (v : option (list float) * option (list float)) (self' : MkFilter) :
  design self ft bt n alpha1 alpha2 rip blt_flag prewarp_flag = Ret v self' ->
  let npoles := length (poles (zplane self')) in
  match blt_flag, bt with
  | true, Lp => zeros (zplane self') = repeat (of_real (fneg f1)) npoles
  | true, Hp => zeros (zplane self') = repeat (blt c0) npoles
  | true, Bp => zeros (zplane self')
                = repeat (blt c0) (npoles / 2)
                    ++ repeat (of_real (fneg f1)) (npoles / 2)
  | false, Lp => zeros (zplane self') = []
  | false, Hp => zeros (zplane self') = repeat (np_cexp c0) npoles
  | false, Bp => zeros (zplane self') = repeat (np_cexp c0) (npoles / 2)
  | _, Bs => length (zeros (zplane self')) = npoles
  end.
Proof.
  intros Hd. apply design_ret_inv in Hd. destruct Hd as (ps & _ & -> & _).
  rewrite design_final_zplane. cbn [poles zeros]. cbv zeta.
  rewrite length_design_z_poles.
  unfold design_z_zeros, z_zeros. cbn zeta.
  destruct blt_flag, bt; cbn [band_zeros].
  - cbn [map]. rewrite blt_pad_eq, length_band_poles. cbn [length app].
    now rewrite Nat.sub_0_r.
  - rewrite blt_pad_eq, length_map, repeat_length, length_band_poles,
      Nat.sub_diag, map_repeat.
    cbn [repeat]. now rewrite app_nil_r.
  - rewrite blt_pad_eq, length_map, repeat_length, !length_band_poles,
      map_repeat.
    replace (2 * length ps / 2)%nat with (length ps)
      by (rewrite Nat.mul_comm, Nat.div_mul; [reflexivity|discriminate]).
    replace (2 * length ps - length ps)%nat with (length ps) by lia.
    reflexivity.
  - rewrite length_blt_pad, length_map, length_band_poles.
    rewrite (length_flat_map_const _ 2) by reflexivity. lia.
  - reflexivity.
  - now rewrite map_repeat.
  - rewrite map_repeat, length_band_poles.
    replace (2 * length ps / 2)%nat with (length ps)
      by (rewrite Nat.mul_comm, Nat.div_mul; [reflexivity|discriminate]).
    reflexivity.
  - rewrite length_map. rewrite (length_flat_map_const _ 2) by reflexivity.
    reflexivity.
Qed.

End FinalFields.

(** ** Exact arithmetic: the expansion is the product of the factors *)

Section ExactProduct.

Local Open Scope R_scope.

Local Abbreviation CR := (complex R).

Ltac Rc_solve :=
  apply complex_eq;
  unfold Rc_sub, Rc_add, Rc_mul, Rc_neg; cbn [re im];
  change (@float RArith) with R; ring.

Lemma Rc_pow_of_nat (z : CR) (k : nat) :
  Rc_pow z (Z.of_nat k) = Rc_pow_nat z k.
Proof.
  unfold Rc_pow. destruct (Z.of_nat k) eqn:E.
  - now replace k with 0%nat by lia.
  - rewrite <- E. now rewrite Nat2Z.id.
  - lia.
Qed.

(** [sum(c * z**i ...)] is the value of the polynomial. *)
Lemma Rpoly_sum_from (c : list CR) (z acc : CR) (k : nat) :
  fold_left (fun acc '(i, a) => Rc_add acc (Rc_mul a (Rc_pow z i)))
            (combine (map Z.of_nat (seq k (length c))) c) acc
  = Rc_add acc (Rc_mul (Rc_pow_nat z k) (Rpoly c z)).
Proof.
  revert acc k. induction c as [|a c IH]; intros acc k.
  - cbn [length seq map combine fold_left Rpoly]. Rc_solve.
  - cbn [length seq map combine fold_left Rpoly].
    rewrite IH, Rc_pow_of_nat. cbn [Rc_pow_nat]. Rc_solve.
Qed.

Lemma Rpoly_sum (c : list CR) (z : CR) :
  @poly_sum RArith c z = Rpoly c z.
Proof.
  unfold poly_sum, enumerate, range. rewrite Nat2Z.id.
  cbn [cadd cmul cpow of_int RArith]. rewrite Rof_real.
  transitivity (Rc_add (Cx 0 0) (Rc_mul (Rc_pow_nat z 0) (Rpoly c z)));
    [exact (Rpoly_sum_from c z (Cx 0 0) 0)|].
  cbn [Rc_pow_nat]. Rc_solve.
Qed.

(** One step of the expansion, by the structure of the list. *)
Lemma Rexpand_step_cons (r a b : CR) (c : list CR) :
  @expand_step_list RArith r (a :: b :: c)
  = Rc_sub (Cx 0 0) (Rc_mul r a)
      :: head_add a (@expand_step_list RArith r (b :: c)).
Proof.
  apply (nth_ext _ _ (Cx 0 0) (Cx 0 0)).
  - rewrite (@length_expand_step_list RArith).
    destruct (@expand_step_list RArith r (b :: c)) as [|x l] eqn:E.
    + exfalso. revert E. apply (@expand_step_list_nonempty RArith).
    + cbn [head_add length].
      assert (Hl : length (x :: l) = (length (b :: c) + 1)%nat)
        by (rewrite <- E; apply (@length_expand_step_list RArith)).
      change (@float RArith) with R in *. cbn [length] in *. lia.
  - intros i _. rewrite Rexpand_step_nth by discriminate.
    destruct i as [|[|k]]; cbn [shifted nth].
    + reflexivity.
    + pose proof (Rexpand_step_nth r (b :: c) 0) as H0.
      destruct (@expand_step_list RArith r (b :: c)) as [|x l] eqn:E.
      * exfalso. revert E. apply (@expand_step_list_nonempty RArith).
      * cbn [head_add nth]. cbn [nth shifted] in H0.
        rewrite H0 by discriminate. Rc_solve.
    + pose proof (Rexpand_step_nth r (b :: c) (S k)) as H0.
      destruct (@expand_step_list RArith r (b :: c)) as [|x l] eqn:E.
      * exfalso. revert E. apply (@expand_step_list_nonempty RArith).
      * cbn [head_add nth]. cbn [nth shifted] in H0.
        rewrite H0 by discriminate. reflexivity.
Qed.

Lemma Rpoly_head_add (a : CR) (l : list CR) (z : CR) :
  Rpoly (head_add a l) z = Rc_add a (Rpoly l z).
Proof. destruct l as [|x l]; cbn [head_add Rpoly]; Rc_solve. Qed.

(** One step multiplies the polynomial by [z - root]. *)
Lemma Rpoly_expand_step (r : CR) (c : list CR) (z : CR) :
  c <> [] ->
  Rpoly (@expand_step_list RArith r c) z
  = Rc_mul (Rc_sub z r) (Rpoly c z).
Proof.
  induction c as [|a c IH]; intros Hne; [contradiction|].
  destruct c as [|b c].
  - unfold expand_step_list, expand_elem.
    cbn [length Nat.add seq map Nat.eqb Nat.ltb Nat.leb nth Nat.sub Rpoly].
    cbn [cmul cneg RArith]. Rc_solve.
  - rewrite Rexpand_step_cons. cbn [Rpoly]. rewrite Rpoly_head_add, IH
      by discriminate.
    cbn [Rpoly]. Rc_solve.
Qed.

Lemma Rpoly_fold_expand (roots : list CR) (c : list CR) (z : CR) :
  c <> [] ->
  Rpoly (fold_left (fun coeffs root => @expand_step_list RArith root coeffs)
           roots c) z
  = Rc_mul (Rc_prod (map (fun r => Rc_sub z r) roots)) (Rpoly c z).
Proof.
  revert c. induction roots as [|r roots IH]; intros c Hne.
  - cbn [fold_left map Rc_prod fold_right]. Rc_solve.
  - cbn [fold_left map Rc_prod fold_right].
    rewrite IH by apply (@expand_step_list_nonempty RArith).
    rewrite Rpoly_expand_step by assumption.
    fold (Rc_prod (map (fun r0 => Rc_sub z r0) roots)). Rc_solve.
Qed.

Lemma Rpoly_sum_expand (roots : list CR) (z : CR) :
  @poly_sum RArith (@expand_list RArith roots) z
  = Rc_prod (map (fun r => Rc_sub z r) roots).
Proof.
  rewrite Rpoly_sum. unfold expand_list.
  rewrite Rpoly_fold_expand by discriminate.
  rewrite Rof_real, Rf1. cbn [Rpoly]. Rc_solve.
Qed.

(** X5.  In exact arithmetic the coefficient vector [_expand] returns is
    that of the monic polynomial with the given roots: evaluated at any
    [z] the way [_evaluate] does ([sum(c * z**i)]), it is the product of
    the factors [z - root]. *)
Theorem expand_is_product (roots : list CR) (z : CR) :
  exists coeffs,
    @_expand RArith roots = inr coeffs
    /\ @poly_sum RArith coeffs z
       = Rc_prod (map (fun r => Rc_sub z r) roots).
Proof.
  exists (@expand_list RArith roots). split; [apply (@_expand_eq RArith)|].
  apply Rpoly_sum_expand.
Qed.

Lemma Rc_mul_zero (a b : CR) :
  Rc_mul a b = Cx 0 0 <-> a = Cx 0 0 \/ b = Cx 0 0.
Proof.
  destruct a as [a1 a2], b as [b1 b2]. unfold Rc_mul. cbn [re im]. split.
  - intros H. injection H as H1 H2.
    assert (Hn : (a1 * a1 + a2 * a2) * (b1 * b1 + b2 * b2) = 0) by nra.
    apply Rmult_integral in Hn. destruct Hn as [Hn|Hn].
    + left. assert (a1 = 0) by nra. assert (a2 = 0) by nra. now subst.
    + right. assert (b1 = 0) by nra. assert (b2 = 0) by nra. now subst.
  - intros [H|H]; injection H as -> ->; f_equal; ring.
Qed.

Lemma Rc_prod_zero (l : list CR) :
  Rc_prod l = Cx 0 0 <-> In (Cx 0 0) l.
Proof.
  induction l as [|a l IH]; cbn [Rc_prod fold_right In].
  - split; [|contradiction]. intros H. apply (f_equal (@re R)) in H.
    cbn [re] in H. lra.
  - fold (Rc_prod l). rewrite Rc_mul_zero, IH. split.
    + intros [->|H]; [now left|now right].
    + intros [<-|H]; [now left|now right].
Qed.

Lemma Rc_sub_zero (z r : CR) : Rc_sub z r = Cx 0 0 <-> z = r.
Proof.
  destruct z as [x y], r as [a b]. unfold Rc_sub. cbn [re im]. split.
  - intros H. injection H as H1 H2. f_equal; lra.
  - intros H. injection H as -> ->. f_equal; ring.
Qed.

Lemma Rpoly_sum_expand_zero (roots : list CR) (z : CR) :
  @poly_sum RArith (@expand_list RArith roots) z = Cx 0 0 <-> In z roots.
Proof.
  rewrite Rpoly_sum_expand, Rc_prod_zero, in_map_iff. split.
  - intros (r & Hr & Hin). apply (proj1 (Rc_sub_zero z r)) in Hr.
    rewrite Hr. exact Hin.
  - intros Hin. exists z. split; [now apply (proj2 (Rc_sub_zero z z))|exact Hin].
Qed.

(** X6.  In exact arithmetic the polynomial [_expand] returns vanishes
    exactly at the roots it was built from: the numerator of the transfer
    function vanishes exactly at the digital zeros and the denominator
    exactly at the digital poles. *)
Theorem expand_vanishes_at_roots (roots : list CR) (z : CR) :
  exists coeffs,
    @_expand RArith roots = inr coeffs
    /\ (@poly_sum RArith coeffs z = Cx 0 0 <-> In z roots).
Proof.
  exists (@expand_list RArith roots). split; [apply (@_expand_eq RArith)|].
  apply Rpoly_sum_expand_zero.
Qed.

End ExactProduct.

(** ** Exact arithmetic: the gains of lowpass and highpass designs *)

Section ExactGains.

Local Open Scope R_scope.

Local Abbreviation CR := (complex R).
Local Abbreviation Rpi := Rtrigo1.PI.

Lemma Rdesign_z_poles_stable (ft : filter_type_t) (bt : band_type_t) (n : Z)
    (alpha1 : R) (alpha2 : option R) (rip : R) (blt_flag prewarp_flag : bool)
    (ps : list CR) :
  ft <> Be ->
  0 < alpha1 < / 2 ->
  bt = Lp \/ bt = Hp ->
  @s_plane_poles RArith ft n rip = inr ps ->
  Forall (fun z : CR => Rc_abs z < 1)
         (@design_z_poles RArith bt alpha1 alpha2 blt_flag prewarp_flag ps).
Proof.
  intros Hft Ha1 Hbt Hps. apply Rs_plane_left in Hps; [|assumption].
  unfold design_z_poles. cbn zeta. apply Rz_poles_stable.
  pose proof PI_RGT_0 as Hpi.
  pose proof (Rwarp_pos blt_flag prewarp_flag alpha1 Ha1) as Hw1.
  rewrite RTWOPI. cbn [fmul RArith].
  eapply Forall_impl;
    [|apply (Rband_poles_sign bt); [nra| |exact Hps]].
  - cbn beta. intros s Hs. destruct Hbt as [->| ->]; lra.
  - destruct Hbt as [->| ->]; exact I.
Qed.

Lemma Rblt_c0 : @blt RArith c0 = Cx 1 0.
Proof.
  unfold blt. rewrite Rof_real, Rf2, Rc0. cbn [cdiv cadd csub RArith].
  unfold Rc_div, Rc_add, Rc_sub. cbn [re im]. f_equal; field.
Qed.

Lemma Rminus_one : @of_real RArith (fneg f1) = Cx (-1) 0.
Proof. rewrite Rof_real. cbn [fneg RArith]. now rewrite Rf1. Qed.

Lemma Rdesign_z_zeros_blt (bt : band_type_t) (alpha1 : R) (alpha2 : option R)
    (prewarp_flag : bool) (ps : list CR) :
  bt = Lp \/ bt = Hp ->
  @design_z_zeros RArith bt alpha1 alpha2 true prewarp_flag ps
  = repeat (match bt with Lp => Cx (-1) 0 | _ => Cx 1 0 end) (length ps).
Proof.
  intros Hbt. unfold design_z_zeros, z_zeros. cbn zeta.
  rewrite (@blt_pad_eq RArith), length_map, (@length_band_poles RArith),
    (@length_band_zeros RArith).
  destruct Hbt as [->| ->]; cbn [band_zeros map].
  - rewrite Rminus_one. cbn [app]. now rewrite Nat.sub_0_r.
  - rewrite Nat.sub_diag, map_repeat, Rblt_c0. cbn [repeat].
    now rewrite app_nil_r.
Qed.

Lemma Rc_abs_unit (z : CR) : z = Cx 1 0 \/ z = Cx (-1) 0 -> Rc_abs z = 1.
Proof.
  intros [->| ->]; unfold Rc_abs; cbn [re im].
  - replace (1 * 1 + 0 * 0) with 1 by ring. apply sqrt_1.
  - replace (-1 * -1 + 0 * 0) with 1 by ring. apply sqrt_1.
Qed.

Lemma Rc_div_mul (a b : CR) : b <> Cx 0 0 -> Rc_mul (Rc_div a b) b = a.
Proof.
  intros Hb. destruct a as [a1 a2], b as [b1 b2].
  assert (HD : b1 * b1 + b2 * b2 <> 0).
  { intros E. apply Hb. assert (b1 = 0) by nra. assert (b2 = 0) by nra.
    now subst. }
  unfold Rc_mul, Rc_div. cbn [re im]. f_equal; field; assumption.
Qed.

Lemma Rc_abs_pos (z : CR) : z <> Cx 0 0 -> 0 < Rc_abs z.
Proof.
  intros Hz. unfold Rc_abs. apply sqrt_lt_R0. destruct z as [x y].
  cbn [re im].
  destruct (Req_dec x 0) as [Hx|Hx]; [|nra].
  destruct (Req_dec y 0) as [Hy|Hy]; [|nra].
  exfalso. apply Hz. now subst.
Qed.

Lemma Rc_div_abs_pos (a b : CR) :
  a <> Cx 0 0 -> b <> Cx 0 0 -> 0 < Rc_abs (Rc_div a b).
Proof.
  intros Ha Hb. apply Rc_abs_pos. intros E. apply Ha.
  rewrite <- (Rc_div_mul a b Hb), E. unfold Rc_mul. cbn [re im].
  f_equal; ring.
Qed.

Lemma Rc_div_zero (b : CR) : Rc_div (Cx 0 0) b = Cx 0 0.
Proof. unfold Rc_div. cbn [re im]. f_equal; unfold Rdiv; ring. Qed.

(** The numerator and the denominator of the transfer function of a
    lowpass or highpass design under the bilinear mapping, at [z = 1] and
    [z = -1]. *)
Lemma Rlphp_polys (ft : filter_type_t) (bt : band_type_t) (n : Z)
    (alpha1 : R) (alpha2 : option R) (rip : R) (prewarp_flag : bool)
    (ps : list CR) (z : CR) :
  ft <> Be -> (0 < n)%Z -> 0 < alpha1 < / 2 -> bt = Lp \/ bt = Hp ->
  z = Cx 1 0 \/ z = Cx (-1) 0 ->
  @s_plane_poles RArith ft n rip = inr ps ->
  let top := @expand_list RArith
               (@design_z_zeros RArith bt alpha1 alpha2 true prewarp_flag ps) in
  let bot := @expand_list RArith
               (@design_z_poles RArith bt alpha1 alpha2 true prewarp_flag ps) in
  @poly_sum RArith bot z <> Cx 0 0
  /\ (@poly_sum RArith top z = Cx 0 0
      <-> z = match bt with Lp => Cx (-1) 0 | _ => Cx 1 0 end).
Proof.
  intros Hft Hn Ha1 Hbt Hz Hps. cbv zeta. split.
  - intros E. apply Rpoly_sum_expand_zero in E.
    pose proof (Rdesign_z_poles_stable ft bt n alpha1 alpha2 rip true
                  prewarp_flag ps Hft Ha1 Hbt Hps) as Hst.
    rewrite Forall_forall in Hst. specialize (Hst z E).
    rewrite (Rc_abs_unit z Hz) in Hst. lra.
  - rewrite Rpoly_sum_expand_zero, (Rdesign_z_zeros_blt bt) by assumption.
    apply Rs_plane_count in Hps; [|lia].
    destruct (length ps) as [|k] eqn:Ek; [lia|]. cbn [repeat In]. split.
    + intros [H|H]; [now symmetry|]. now apply repeat_spec in H.
    + intros ->. now left.
Qed.

(** X7.  In exact arithmetic, a Butterworth or Chebyshev lowpass of order
    [n >= 1] designed with the bilinear mapping (corner in (0, 0.5)) has
    gain exactly zero at Nyquist ([z = -1]), and a highpass gain exactly
    zero at DC ([z = 1]): the numerator vanishes there and the denominator
    does not. *)
Theorem stopband_gain_zero (self : MkFilter) (ft : filter_type_t)
    (bt : band_type_t) (n : Z) (alpha1 : R) (alpha2 : option R) (rip : R)
    (prewarp_flag : bool)
    (v : option (list R) * option (list R)) (self' : MkFilter) :
  ft <> Be -> (0 < n)%Z -> 0 < alpha1 < / 2 -> bt = Lp \/ bt = Hp ->
  @design RArith self ft bt n alpha1 alpha2 rip true prewarp_flag
  = Ret v self' ->
  let z := match bt with Lp => Cx (-1) 0 | _ => Cx 1 0 end in
  @poly_sum RArith (@expand_list RArith (poles (zplane self'))) z <> Cx 0 0
  /\ @poly_sum RArith (@expand_list RArith (zeros (zplane self'))) z = Cx 0 0
  /\ match bt with Lp => hf_gain self' | _ => dc_gain self' end = Cx 0 0.
Proof.
  intros Hft Hn Ha1 Hbt Hd. cbv zeta.
  apply (@design_ret_inv RArith) in Hd. destruct Hd as (ps & Hps & -> & _).
  destruct (@design_final_gains RArith ft bt n alpha1 alpha2 rip true
              prewarp_flag ps) as (Hdc & Hhf & _).
  rewrite (@design_final_zplane RArith). cbn [poles zeros].
  assert (Hz : match bt with Lp => Cx (-1) 0 | _ => Cx 1 0 end = Cx 1 0
               \/ match bt with Lp => Cx (-1) 0 | _ => Cx 1 0 end = Cx (-1) 0)
    by (destruct Hbt as [->| ->]; [now right|now left]).
  destruct (Rlphp_polys ft bt n alpha1 alpha2 rip prewarp_flag ps _
              Hft Hn Ha1 Hbt Hz Hps) as [Hbot Htop].
  split; [exact Hbot|]. split; [now apply Htop|].
  destruct Hbt as [->| ->].
  - rewrite Hhf. unfold _evaluate. rewrite Rminus_one.
    cbn [cdiv RArith]. rewrite (proj2 Htop eq_refl). apply Rc_div_zero.
  - rewrite Hdc. unfold _evaluate. rewrite Rof_real, Rf1.
    cbn [cdiv RArith]. rewrite (proj2 Htop eq_refl). apply Rc_div_zero.
Qed.

(** X8.  In exact arithmetic, for a Butterworth or Chebyshev lowpass or
    highpass of order [n >= 1] designed with the bilinear mapping (corner
    in (0, 0.5)), [get_gain()] is strictly positive: the division of the
    input samples by the gain is a division by a non-zero number. *)
Theorem passband_gain_positive (self : MkFilter) (ft : filter_type_t)
    (bt : band_type_t) (n : Z) (alpha1 : R) (alpha2 : option R) (rip : R)
    (prewarp_flag : bool)
    (v : option (list R) * option (list R)) (self' : MkFilter) :
  ft <> Be -> (0 < n)%Z -> 0 < alpha1 < / 2 -> bt = Lp \/ bt = Hp ->
  @design RArith self ft bt n alpha1 alpha2 rip true prewarp_flag
  = Ret v self' ->
  0 < @get_gain RArith self'.
Proof.
  intros Hft Hn Ha1 Hbt Hd.
  apply (@design_ret_inv RArith) in Hd. destruct Hd as (ps & Hps & -> & _).
  destruct (@design_final_gains RArith ft bt n alpha1 alpha2 rip true
              prewarp_flag ps) as (Hdc & Hhf & Hb).
  unfold get_gain. rewrite Hb.
  destruct Hbt as [->| ->].
  - rewrite Hdc. unfold _evaluate. rewrite Rof_real, Rf1.
    cbn [cdiv np_abs RArith].
    destruct (Rlphp_polys ft Lp n alpha1 alpha2 rip prewarp_flag ps (Cx 1 0)
                Hft Hn Ha1 (or_introl eq_refl) (or_introl eq_refl) Hps)
      as [Hbot Htop].
    apply Rc_div_abs_pos; [|exact Hbot].
    intros E. apply Htop in E. apply (f_equal (@re R)) in E. cbn [re] in E.
    lra.
  - rewrite Hhf. unfold _evaluate. rewrite Rminus_one.
    cbn [cdiv np_abs RArith].
    destruct (Rlphp_polys ft Hp n alpha1 alpha2 rip prewarp_flag ps
                (Cx (-1) 0)
                Hft Hn Ha1 (or_intror eq_refl) (or_intror eq_refl) Hps)
      as [Hbot Htop].
    apply Rc_div_abs_pos; [|exact Hbot].
    intros E. apply Htop in E. apply (f_equal (@re R)) in E. cbn [re] in E.
    lra.
Qed.

End ExactGains.

(** ** The further properties at concrete arguments *)

Section ExactInstances.

Local Open Scope R_scope.

Local Abbreviation CR := (complex R).

Lemma bessel_order_bound_witness :
  (0 <= 1)%Z
  /\ exists xs ys self',
       @design RArith MkFilter_init Be Lp 1 (1 / 10) None (-1) true true
       = Ret (Some xs, Some ys) self'.
Proof.
  split; [lia|].
  apply (proj1 (@bessel_order_bound RArith MkFilter_init Lp 1 (1 / 10) None
                  (-1) true true ltac:(lia))).
  unfold MAXORDER. lia.
Defined.

Lemma prewarp_ignored_by_mzt_witness :
  @value_of RArith _
    (@design RArith MkFilter_init Bu Lp 4 (1 / 10) None (-1) false true)
  = @value_of RArith _
      (@design RArith MkFilter_init Bu Lp 4 (1 / 10) None (-1) false false).
Proof.
  apply (proj1 (@prewarp_ignored_by_mzt RArith MkFilter_init Bu Lp 4 (1 / 10)
                  None (-1) true false)).
Defined.

Lemma second_corner_ignored_witness :
  @value_of RArith _
    (@design RArith MkFilter_init Bu Hp 4 (1 / 10) None (-1) true true)
  = @value_of RArith _
      (@design RArith MkFilter_init Bu Hp 4 (1 / 10) (Some (2 / 10)) (-1)
         true true).
Proof.
  apply (proj1 (@second_corner_ignored RArith MkFilter_init Bu Hp 4 (1 / 10)
                  None (Some (2 / 10)) (-1) true true
                  (or_intror eq_refl))).
Defined.

Lemma digital_zeros_structure_witness :
  exists v self',
    @design RArith MkFilter_init Bu Lp 4 (1 / 10) None (-1) true true
    = Ret v self'
    /\ zeros (zplane self')
       = repeat (@of_real RArith (fneg f1)) (length (poles (zplane self'))).
Proof.
  destruct (@design_Bu_ret RArith MkFilter_init Lp 4 (1 / 10) None (-1)
              true true) as (xs & ys & self' & E).
  exists (Some xs, Some ys), self'. split; [exact E|].
  apply (@digital_zeros_structure RArith MkFilter_init Bu Lp 4 (1 / 10) None
           (-1) true true (Some xs, Some ys) self' E).
Defined.

Lemma stopband_gain_zero_witness :
  exists v self',
    @design RArith MkFilter_init Bu Lp 4 (1 / 10) None (-1) true true
    = Ret v self'
    /\ hf_gain self' = Cx 0 0.
Proof.
  destruct (@design_Bu_ret RArith MkFilter_init Lp 4 (1 / 10) None (-1)
              true true) as (xs & ys & self' & E).
  exists (Some xs, Some ys), self'. split; [exact E|].
  apply (stopband_gain_zero MkFilter_init Bu Lp 4 (1 / 10) None (-1) true
           (Some xs, Some ys) self').
  - discriminate.
  - lia.
  - lra.
  - now left.
  - exact E.
Defined.

Lemma passband_gain_positive_witness :
  exists v self',
    @design RArith MkFilter_init Bu Hp 4 (1 / 10) None (-1) true true
    = Ret v self'
    /\ 0 < @get_gain RArith self'.
Proof.
  destruct (@design_Bu_ret RArith MkFilter_init Hp 4 (1 / 10) None (-1)
              true true) as (xs & ys & self' & E).
  exists (Some xs, Some ys), self'. split; [exact E|].
  apply (passband_gain_positive MkFilter_init Bu Hp 4 (1 / 10) None (-1) true
           (Some xs, Some ys) self').
  - discriminate.
  - lia.
  - lra.
  - now right.
  - exact E.
Defined.

End ExactInstances.

(** ** [apply_filter]: the loop over the samples *)

Section UsageLoop.

Context {A : Arith} {L : Linalg A}.

Lemma shift_snoc {T : Type} (a : list T) :
  a <> [] -> exists z, shift a = tl a ++ [z].
Proof.
  intros Ha. destruct (exists_last Ha) as (l & z & ->). exists z.
  unfold shift. rewrite length_app. cbn [length].
  replace (length l + 1 - 1)%nat with (length l) by lia.
  rewrite skipn_app, skipn_all, Nat.sub_diag. reflexivity.
Qed.

Lemma shift_nil {T : Type} : shift (@nil T) = [].
Proof. reflexivity. Qed.

Lemma but_last_snoc {T : Type} (l : list T) (z : T) : but_last (l ++ [z]) = l.
Proof.
  unfold but_last. rewrite length_app. cbn [length].
  replace (length l + 1 - 1)%nat with (length l) by lia.
  rewrite firstn_app, firstn_all, Nat.sub_diag. cbn [firstn].
  apply app_nil_r.
Qed.

Lemma length_but_last {T : Type} (l : list T) :
  length (but_last l) = (length l - 1)%nat.
Proof. unfold but_last. rewrite length_firstn. lia. Qed.

Lemma length_tl_snoc {T : Type} (a : list T) (z : T) :
  a <> [] -> length (tl a ++ [z]) = length a.
Proof. destruct a; [congruence|]. intros _. rewrite length_app. simpl. lia. Qed.

Lemma last_snoc {T : Type} (l : list T) (z d : T) : last (l ++ [z]) d = z.
Proof. apply last_last. Qed.

Lemma setitem_nil {T : Type} (i : Z) (v : T) : setitem [] i v = inl IndexError.
Proof.
  unfold setitem. cbn [length]. change (Z.of_nat 0) with 0%Z. cbv zeta.
  destruct (_ && _)%bool eqn:E; [|reflexivity].
  apply andb_true_iff in E. destruct E as [E1 E2].
  apply Z.leb_le in E1. apply Z.ltb_lt in E2.
  destruct (Z.ltb_spec i 0); lia.
Qed.

Lemma dot_same (a b : list float) :
  length a = length b -> dot a b = inr (np_dot a b).
Proof. intros E. unfold dot. now rewrite E, Nat.eqb_refl. Qed.

(** One pass of the body on buffers that are not empty. *)
Lemma apply_filter_body_ret (xcoeffs ycoeffs : list float) (gain : float)
    (n : nat) (sample : float) (xv yv pre post : list float) (o : float) :
  xv <> [] -> yv <> [] ->
  length xv = length xcoeffs -> length yv = length ycoeffs ->
  length pre = n ->
  apply_filter_body xcoeffs ycoeffs gain (Z.of_nat n, sample)
    (xv, yv, pre ++ o :: post)
  = inr (fst (filter_step xcoeffs ycoeffs gain (xv, yv) sample),
         snd (filter_step xcoeffs ycoeffs gain (xv, yv) sample),
         pre ++ last (snd (filter_step xcoeffs ycoeffs gain (xv, yv) sample))
                  f0 :: post).
Proof.
  intros Hx Hy Hlx Hly Hn.
  unfold apply_filter_body, filter_step. cbn [fst snd].
  destruct (shift_snoc xv Hx) as [zx ->].
  destruct (shift_snoc yv Hy) as [zy ->].
  rewrite setitem_last. cbn [lift ubind].
  rewrite dot_same by (rewrite length_tl_snoc by assumption; congruence).
  cbn [ubind]. rewrite but_last_snoc.
  rewrite dot_same
    by (rewrite length_but_last, <- Hly; destruct yv;
        [congruence|cbn [tl length]; lia]).
  cbn [ubind]. rewrite setitem_last. cbn [lift ubind].
  rewrite (getitem_last _ f0) by (now destruct (tl yv)).
  rewrite length_app. cbn [length].
  replace (length (tl yv) + 1 - 1)%nat with (length (tl yv)) by lia.
  rewrite nth_middle. cbn [lift ubind].
  rewrite <- Hn, setitem_middle. cbn [lift ubind].
  rewrite last_snoc. reflexivity.
Qed.

(** The body on an empty buffer. *)
Lemma apply_filter_body_raise (xcoeffs ycoeffs : list float) (gain : float)
    (ns : Z * float) (xv yv output : list float) :
  length xv = length xcoeffs -> length yv = length ycoeffs ->
  xv = [] \/ yv = [] ->
  apply_filter_body xcoeffs ycoeffs gain ns (xv, yv, output)
  = inl (Exn IndexError).
Proof.
  intros Hlx Hly Hxy. destruct ns as [n sample]. unfold apply_filter_body.
  destruct xv as [|x xv'].
  - rewrite shift_nil. now rewrite setitem_nil.
  - destruct Hxy as [Hxy| ->]; [discriminate|].
    destruct (@shift_snoc _ (x :: xv') ltac:(discriminate)) as [zx ->].
    rewrite setitem_last. cbn [lift ubind].
    rewrite dot_same
      by (rewrite length_tl_snoc by discriminate; congruence).
    cbn [ubind]. rewrite shift_nil.
    rewrite dot_same by (rewrite !length_but_last, <- Hly; reflexivity).
    cbn [ubind]. now rewrite setitem_nil.
Qed.

Lemma filter_step_shape (xcoeffs ycoeffs : list float) (gain : float)
    (xv yv : list float) (sample : float) :
  xv <> [] -> yv <> [] ->
  fst (filter_step xcoeffs ycoeffs gain (xv, yv) sample) <> []
  /\ snd (filter_step xcoeffs ycoeffs gain (xv, yv) sample) <> []
  /\ length (fst (filter_step xcoeffs ycoeffs gain (xv, yv) sample))
     = length xv
  /\ length (snd (filter_step xcoeffs ycoeffs gain (xv, yv) sample))
     = length yv.
Proof.
  intros Hx Hy. unfold filter_step. cbn [fst snd].
  rewrite !length_tl_snoc by assumption.
  repeat split; now destruct (tl _).
Qed.

Lemma length_filter_run (xcoeffs ycoeffs : list float) (gain : float)
    (st : list float * list float) (signal : list float) :
  length (filter_run xcoeffs ycoeffs gain st signal) = length signal.
Proof.
  revert st. induction signal as [|s signal IH]; intros st; cbn; [reflexivity|].
  now rewrite IH.
Qed.

Lemma filter_run_app (xcoeffs ycoeffs : list float) (gain : float)
    (st : list float * list float) (s1 s2 : list float) :
  filter_run xcoeffs ycoeffs gain st (s1 ++ s2)
  = filter_run xcoeffs ycoeffs gain st s1
    ++ filter_run xcoeffs ycoeffs gain
         (fold_left (filter_step xcoeffs ycoeffs gain) s1 st) s2.
Proof.
  revert st. induction s1 as [|s s1 IH]; intros st; [reflexivity|].
  cbn [app filter_run fold_left]. now rewrite IH.
Qed.

(** The loop, started at sample number [length pre] with [pre] written. *)
Lemma apply_filter_loop (xcoeffs ycoeffs : list float) (gain : float)
    (signal : list float) (xv yv pre : list float) :
  xv <> [] -> yv <> [] ->
  length xv = length xcoeffs -> length yv = length ycoeffs ->
  exists xv' yv',
    ufor (combine (map Z.of_nat (seq (length pre) (length signal))) signal)
         (apply_filter_body xcoeffs ycoeffs gain)
         (xv, yv, pre ++ repeat f0 (length signal))
    = inr (xv', yv',
           pre ++ filter_run xcoeffs ycoeffs gain (xv, yv) signal).
Proof.
  revert xv yv pre.
  induction signal as [|s signal IH]; intros xv yv pre Hx Hy Hlx Hly.
  - cbn. now exists xv, yv.
  - cbn [length seq map combine ufor repeat].
    rewrite (apply_filter_body_ret xcoeffs ycoeffs gain (length pre) s xv yv
               pre (repeat f0 (length signal)) f0 Hx Hy Hlx Hly eq_refl).
    cbn [ubind].
    destruct (filter_step_shape xcoeffs ycoeffs gain xv yv s Hx Hy)
      as (Hx' & Hy' & Hlx' & Hly').
    cbn [filter_run].
    set (st' := filter_step xcoeffs ycoeffs gain (xv, yv) s) in *.
    destruct (IH (fst st') (snd st') (pre ++ [last (snd st') f0]) Hx' Hy')
      as (xv' & yv' & E); [congruence|congruence|].
    rewrite length_app in E. cbn [length] in E.
    rewrite Nat.add_1_r, <- app_assoc in E. cbn [app] in E.
    rewrite <- app_assoc in E. cbn [app] in E.
    exists xv', yv'. rewrite E. now destruct st'.
Qed.

Lemma np_zeros_length (l : list float) :
  np_zeros (Z.of_nat (length l) - 1 + 1) = inr (repeat f0 (length l)).
Proof.
  unfold np_zeros. destruct (Z.ltb_spec (Z.of_nat (length l) - 1 + 1) 0); [lia|].
  now replace (Z.to_nat (Z.of_nat (length l) - 1 + 1)) with (length l) by lia.
Qed.

Lemma np_zeros_nat (n : nat) : np_zeros (Z.of_nat n) = inr (repeat f0 n).
Proof.
  unfold np_zeros. destruct (Z.ltb_spec (Z.of_nat n) 0); [lia|].
  now rewrite Nat2Z.id.
Qed.

Lemma enumerate_seq {T : Type} (l : list T) :
  enumerate l = combine (map Z.of_nat (seq 0 (length l))) l.
Proof. unfold enumerate, range. now rewrite Nat2Z.id. Qed.

(** [apply_filter] with coefficient arrays that are not empty is the
    recurrence started from buffers of zeros. *)
Lemma apply_filter_run (signal : list float) (mkf : MkFilter)
    (xc yc : list float) :
  xcoeffs mkf = Some xc -> ycoeffs mkf = Some yc -> xc <> [] -> yc <> [] ->
  apply_filter signal mkf
  = inr (filter_run xc yc (get_gain mkf)
           (repeat f0 (length xc), repeat f0 (length yc)) signal).
Proof.
  intros Ex Ey Hx Hy. unfold apply_filter. rewrite Ex, Ey. cbv zeta.
  rewrite !np_zeros_length, np_zeros_nat. cbn [ubind].
  rewrite enumerate_seq.
  destruct (apply_filter_loop xc yc (get_gain mkf) signal
              (repeat f0 (length xc)) (repeat f0 (length yc)) [])
    as (xv' & yv' & E).
  - destruct xc; [congruence|discriminate].
  - destruct yc; [congruence|discriminate].
  - apply repeat_length.
  - apply repeat_length.
  - cbn [length app] in E. rewrite E. reflexivity.
Qed.

(** With an empty coefficient array the first sample raises. *)
Lemma apply_filter_empty (s : float) (signal : list float) (mkf : MkFilter)
    (xc yc : list float) :
  xcoeffs mkf = Some xc -> ycoeffs mkf = Some yc -> xc = [] \/ yc = [] ->
  apply_filter (s :: signal) mkf = inl (Exn IndexError).
Proof.
  intros Ex Ey Hxy. unfold apply_filter. rewrite Ex, Ey. cbv zeta.
  rewrite !np_zeros_length, np_zeros_nat. cbn [ubind].
  rewrite enumerate_seq. cbn [length seq map combine ufor].
  rewrite apply_filter_body_raise; [reflexivity| | |].
  - apply repeat_length.
  - apply repeat_length.
  - destruct Hxy as [->| ->]; [now left|now right].
Qed.

Lemma apply_filter_nil (mkf : MkFilter) (xc yc : list float) :
  xcoeffs mkf = Some xc -> ycoeffs mkf = Some yc ->
  apply_filter [] mkf = inr [].
Proof.
  intros Ex Ey. unfold apply_filter. rewrite Ex, Ey. cbv zeta.
  rewrite !np_zeros_length. reflexivity.
Qed.

(** X9.  What [apply_filter] does for every signal and every object: it
    raises [TypeError] on an object whose coefficients are [None] (a filter
    not designed yet); on an empty signal it returns an empty output; on a
    signal that is not empty it raises [IndexError] when a coefficient
    array is empty and otherwise returns an output as long as the signal.
    It never raises the [ValueError]s of [np.zeros] and [np.dot]. *)
Theorem apply_filter_outcome (signal : list float) (mkf : MkFilter) :
  match xcoeffs mkf, ycoeffs mkf with
  | Some xc, Some yc =>
      match signal with
      | [] => apply_filter signal mkf = inr []
      | _ :: _ =>
          if (Nat.eqb (length xc) 0 || Nat.eqb (length yc) 0)%bool
          then apply_filter signal mkf = inl (Exn IndexError)
          else exists out,
                 apply_filter signal mkf = inr out
                 /\ length out = length signal
      end
  | _, _ => apply_filter signal mkf = inl TypeError
  end.
Proof.
  destruct (xcoeffs mkf) as [xc|] eqn:Ex;
    [|unfold apply_filter; now rewrite Ex].
  destruct (ycoeffs mkf) as [yc|] eqn:Ey;
    [|unfold apply_filter; now rewrite Ex, Ey].
  destruct signal as [|s signal]; [exact (apply_filter_nil mkf xc yc Ex Ey)|].
  destruct xc as [|x xc].
  - cbn [length Nat.eqb orb].
    apply (apply_filter_empty s signal mkf [] yc Ex Ey). now left.
  - destruct yc as [|y yc].
    + cbn [length Nat.eqb orb].
      apply (apply_filter_empty s signal mkf (x :: xc) [] Ex Ey). now right.
    + cbn [length Nat.eqb orb].
      rewrite (apply_filter_run (s :: signal) mkf (x :: xc) (y :: yc) Ex Ey)
        by discriminate.
      eexists. split; [reflexivity|]. apply length_filter_run.
Qed.

End UsageLoop.

(** ** [apply_filter]: the difference equation *)

Section UsageRecurrence.

Context {A : Arith} {L : Linalg A}.

Lemma window_nil (m : nat) : window m [] = repeat f0 m.
Proof. unfold window. cbn [length skipn]. apply app_nil_r. Qed.

Lemma tl_skipn {T : Type} (n : nat) (l : list T) :
  tl (skipn n l) = skipn (S n) l.
Proof.
  revert l. induction n as [|n IH]; intros [|x l]; try reflexivity.
  cbn [skipn]. rewrite IH. now destruct l.
Qed.

Lemma tl_window (m : nat) (l : list float) :
  tl (window (S m) l) = window m l.
Proof. unfold window. rewrite tl_skipn. reflexivity. Qed.

Lemma window_snoc (m : nat) (l : list float) (v : float) :
  window m l ++ [v] = window (S m) (l ++ [v]).
Proof.
  unfold window. rewrite length_app. cbn [length repeat app].
  rewrite Nat.add_1_r. cbn [skipn].
  rewrite (app_assoc (repeat f0 m) l [v]).
  rewrite (skipn_app (length l) (repeat f0 m ++ l) [v]).
  rewrite length_app, repeat_length.
  replace (length l - (m + length l))%nat with 0%nat by lia.
  reflexivity.
Qed.

(** The buffers after a run are the windows of the scaled samples and of
    the outputs. *)
Lemma filter_step_window (xcoeffs ycoeffs : list float) (gain : float)
    (mx my : nat) (hx hy : list float) (s : float) :
  filter_step xcoeffs ycoeffs gain (window (S mx) hx, window (S my) hy) s
  = (window (S mx) (hx ++ [fdiv s gain]),
     window (S my)
       (hy ++ [fadd (np_dot xcoeffs (window (S mx) (hx ++ [fdiv s gain])))
                    (np_dot (but_last ycoeffs) (window my hy))])).
Proof.
  unfold filter_step. cbn [fst snd].
  now rewrite !tl_window, !window_snoc.
Qed.

Lemma filter_run_window (xcoeffs ycoeffs : list float) (gain : float)
    (mx my : nat) (p hx hy : list float) :
  fold_left (filter_step xcoeffs ycoeffs gain) p
    (window (S mx) hx, window (S my) hy)
  = (window (S mx) (hx ++ map (fun s => fdiv s gain) p),
     window (S my)
       (hy ++ filter_run xcoeffs ycoeffs gain
                (window (S mx) hx, window (S my) hy) p)).
Proof.
  revert hx hy. induction p as [|s p IH]; intros hx hy.
  - cbn. now rewrite !app_nil_r.
  - cbn [fold_left filter_run map]. rewrite filter_step_window.
    rewrite IH. cbn [snd]. rewrite <- !app_assoc. cbn [app].
    rewrite <- (window_snoc my hy), last_snoc. reflexivity.
Qed.

Lemma nth_app_at {T : Type} (l1 : list T) (a : T) (l2 : list T) (d : T)
    (n : nat) :
  length l1 = n -> nth n (l1 ++ a :: l2) d = a.
Proof. intros <-. apply nth_middle. Qed.

Lemma firstn_app_at {T : Type} (l1 l2 : list T) (n : nat) :
  length l1 = n -> firstn n (l1 ++ l2) = l1.
Proof.
  intros <-. rewrite firstn_app, firstn_all, Nat.sub_diag. cbn [firstn].
  apply app_nil_r.
Qed.

Lemma apply_filter_inr_nonempty (s : float) (signal : list float)
    (mkf : MkFilter) (xc yc out : list float) :
  xcoeffs mkf = Some xc -> ycoeffs mkf = Some yc ->
  apply_filter (s :: signal) mkf = inr out ->
  xc <> [] /\ yc <> [].
Proof.
  intros Ex Ey H. split; intros ->.
  - rewrite (apply_filter_empty s signal mkf [] yc Ex Ey) in H by now left.
    discriminate H.
  - rewrite (apply_filter_empty s signal mkf xc [] Ex Ey) in H by now right.
    discriminate H.
Qed.

Lemma apply_filter_inr_coeffs (signal : list float) (mkf : MkFilter)
    (out : list float) :
  apply_filter signal mkf = inr out ->
  exists xc yc, xcoeffs mkf = Some xc /\ ycoeffs mkf = Some yc.
Proof.
  unfold apply_filter.
  destruct (xcoeffs mkf) as [xc|]; [|discriminate].
  destruct (ycoeffs mkf) as [yc|]; [|discriminate].
  intros _. now exists xc, yc.
Qed.

(** A design leaves coefficient arrays that are not empty. *)
Lemma design_coeffs_nonempty (self : MkFilter) ft bt n alpha1 alpha2 rip
    blt_flag prewarp_flag v self' :
  design self ft bt n alpha1 alpha2 rip blt_flag prewarp_flag = Ret v self' ->
  exists xc yc,
    xcoeffs self' = Some xc /\ ycoeffs self' = Some yc
    /\ xc <> [] /\ yc <> [].
Proof.
  intros Hd. apply design_ret_inv in Hd. destruct Hd as (ps & _ & -> & _).
  rewrite design_final_xcoeffs, design_final_ycoeffs.
  eexists. eexists. split; [reflexivity|]. split; [reflexivity|].
  split; intros E; apply map_eq_nil in E; revert E; apply expand_list_nonempty.
Qed.

(** X10.  A filter that [design] returned can be applied to every signal:
    [apply_filter] raises nothing and returns one output sample for each
    input sample, in every arithmetic. *)
Theorem apply_filter_after_design (self : MkFilter) (ft : filter_type_t)
    (bt : band_type_t) (n : Z) (alpha1 : float) (alpha2 : option float)
    (rip : float) (blt_flag prewarp_flag : bool)
    (v : option (list float) * option (list float)) (self' : MkFilter)
    (signal : list float) :
  design self ft bt n alpha1 alpha2 rip blt_flag prewarp_flag = Ret v self' ->
  exists out,
    apply_filter signal self' = inr out /\ length out = length signal.
Proof.
  intros Hd.
  destruct (design_coeffs_nonempty self ft bt n alpha1 alpha2 rip blt_flag
              prewarp_flag v self' Hd) as (xc & yc & Ex & Ey & Hx & Hy).
  rewrite (apply_filter_run signal self' xc yc Ex Ey Hx Hy).
  eexists. split; [reflexivity|]. apply length_filter_run.
Qed.

(** X11.  [apply_filter] is causal: the outputs for a signal are the first
    outputs for every extension of the signal.  Samples that come later do
    not change the outputs before them. *)
Theorem apply_filter_causal (s1 s2 : list float) (mkf : MkFilter)
    (out : list float) :
  apply_filter (s1 ++ s2) mkf = inr out ->
  apply_filter s1 mkf = inr (firstn (length s1) out).
Proof.
  intros H.
  destruct (apply_filter_inr_coeffs _ mkf out H) as (xc & yc & Ex & Ey).
  destruct s1 as [|s s1]; [exact (apply_filter_nil mkf xc yc Ex Ey)|].
  destruct (apply_filter_inr_nonempty s (s1 ++ s2) mkf xc yc out Ex Ey H)
    as [Hx Hy].
  rewrite (apply_filter_run _ mkf xc yc Ex Ey Hx Hy) in H.
  apply inr_inj in H. subst out.
  rewrite (apply_filter_run _ mkf xc yc Ex Ey Hx Hy).
  rewrite filter_run_app.
  rewrite <- (length_filter_run xc yc (get_gain mkf)
                (repeat f0 (length xc), repeat f0 (length yc)) (s :: s1)).
  rewrite firstn_app, firstn_all, Nat.sub_diag. cbn [firstn].
  now rewrite app_nil_r.
Qed.

(** X12.  The difference equation [apply_filter] computes: output [n] is
    [np.dot] of [xcoeffs] with the last [nzeros + 1] input samples, each
    divided by the gain, plus [np.dot] of [ycoeffs[:-1]] with the last
    [npoles] outputs; the history before the first sample is zeros.  The
    last y coefficient is not used. *)
Theorem apply_filter_recurrence (signal : list float) (mkf : MkFilter)
    (xc yc out : list float) (n : nat) :
  xcoeffs mkf = Some xc -> ycoeffs mkf = Some yc ->
  apply_filter signal mkf = inr out ->
  (n < length signal)%nat ->
  nth n out f0
  = fadd (np_dot xc
            (window (length xc)
               (map (fun s => fdiv s (get_gain mkf)) (firstn (S n) signal))))
         (np_dot (but_last yc) (window (length yc - 1) (firstn n out))).
Proof.
  intros Ex Ey H Hn.
  destruct (nth_split signal f0 Hn) as (p & r & Es & Hp).
  remember (nth n signal f0) as s eqn:Hs. clear Hs. subst signal n.
  assert (Hne : xc <> [] /\ yc <> []).
  { destruct p as [|s0 p].
    - exact (apply_filter_inr_nonempty s r mkf xc yc out Ex Ey H).
    - exact (apply_filter_inr_nonempty s0 _ mkf xc yc out Ex Ey H). }
  destruct Hne as [Hx Hy].
  rewrite (apply_filter_run _ mkf xc yc Ex Ey Hx Hy) in H.
  apply inr_inj in H. subst out.
  destruct xc as [|x0 xc']; [congruence|].
  destruct yc as [|y0 yc']; [congruence|].
  set (xc := x0 :: xc') in *. set (yc := y0 :: yc') in *.
  change (length xc) with (S (length xc')).
  change (length yc) with (S (length yc')).
  replace (S (length yc') - 1)%nat with (length yc') by lia.
  rewrite <- !window_nil.
  rewrite filter_run_app, filter_run_window. cbn [app filter_run].
  rewrite filter_step_window. cbn [snd]. rewrite <- window_snoc, last_snoc.
  set (run_p := filter_run xc yc (get_gain mkf)
                  (window (S (length xc')) [], window (S (length yc')) []) p).
  assert (Hl : length run_p = length p) by apply length_filter_run.
  rewrite (nth_app_at run_p _ _ f0 (length p) Hl).
  rewrite (firstn_app_at run_p _ (length p) Hl).
  replace (p ++ s :: r) with ((p ++ [s]) ++ r)
    by (rewrite <- app_assoc; reflexivity).
  rewrite (firstn_app_at (p ++ [s]) r (S (length p)))
    by (rewrite length_app; cbn [length]; lia).
  rewrite map_app. reflexivity.
Qed.

End UsageRecurrence.

(** ** Exact arithmetic: [apply_filter] is linear and time-invariant *)

Section ExactUsage.

Local Open Scope R_scope.

Lemma Rdot_acc (l : list (R * R)) (acc : R) :
  fold_left (fun acc p => acc + fst p * snd p) l acc
  = acc + fold_left (fun acc p => acc + fst p * snd p) l 0.
Proof.
  revert acc. induction l as [|p l IH]; intros acc; cbn [fold_left].
  - ring.
  - rewrite (IH (acc + fst p * snd p)), (IH (0 + fst p * snd p)). ring.
Qed.

Lemma Rdot_nil_l (b : list R) : Rdot [] b = 0.
Proof. reflexivity. Qed.

Lemma Rdot_nil_r (a : list R) : Rdot a [] = 0.
Proof. now destruct a. Qed.

Lemma Rdot_cons (x : R) (a : list R) (y : R) (b : list R) :
  Rdot (x :: a) (y :: b) = x * y + Rdot a b.
Proof.
  unfold Rdot. cbn [combine fold_left fst snd]. rewrite Rdot_acc. ring.
Qed.

Lemma Rdot_zeros (a : list R) (n : nat) : Rdot a (repeat 0 n) = 0.
Proof.
  revert n. induction a as [|x a IH]; intros [|n]; cbn [repeat];
    try reflexivity.
  rewrite Rdot_cons, IH. ring.
Qed.

Lemma Rdot_lin (c : list R) (a : R) (u v : list R) :
  length u = length v ->
  Rdot c (Rlin a u v) = a * Rdot c u + Rdot c v.
Proof.
  revert u v. induction c as [|x c IH]; intros u v Huv.
  - rewrite !Rdot_nil_l. ring.
  - destruct u as [|p u], v as [|q v]; try discriminate Huv.
    + unfold Rlin. cbn [combine map]. rewrite !Rdot_nil_r. ring.
    + unfold Rlin. cbn [combine map fst snd]. fold (Rlin a u v).
      rewrite !Rdot_cons, IH by (cbn [length] in Huv; lia). ring.
Qed.

Lemma Rlin_tl (a : R) (u v : list R) :
  tl (Rlin a u v) = Rlin a (tl u) (tl v).
Proof.
  destruct u as [|p u], v as [|q v]; try reflexivity.
  unfold Rlin. cbn [tl combine map]. now destruct u.
Qed.

Lemma Rlin_snoc (a : R) (u v : list R) (p q : R) :
  length u = length v ->
  Rlin a (u ++ [p]) (v ++ [q]) = Rlin a u v ++ [a * p + q].
Proof.
  revert v. induction u as [|x u IH]; intros [|y v] Huv;
    try discriminate Huv; [reflexivity|].
  unfold Rlin in *. cbn [app combine map fst snd].
  rewrite IH by (cbn [length] in Huv; lia). reflexivity.
Qed.

Lemma Rlin_cons (a : R) (p q : R) (u v : list R) :
  Rlin a (p :: u) (q :: v) = (a * p + q) :: Rlin a u v.
Proof. reflexivity. Qed.

Lemma Rlin_zeros (a : R) (n : nat) : Rlin a (repeat 0 n) (repeat 0 n) = repeat 0 n.
Proof.
  induction n as [|n IH]; [reflexivity|].
  cbn [repeat]. rewrite Rlin_cons, IH. f_equal. ring.
Qed.

Lemma length_tl_eq {T : Type} (u v : list T) :
  length u = length v -> length (tl u) = length (tl v).
Proof. destruct u, v; cbn [length tl]; lia. Qed.

(** One pass of the body is linear in the buffers and the sample. *)
Lemma Rfilter_step_lin (xc yc : list R) (gain a : R)
    (x1 x2 y1 y2 : list R) (s1 s2 : R) :
  length x1 = length x2 -> length y1 = length y2 ->
  @filter_step RArith RLinalg xc yc gain (Rlin a x1 x2, Rlin a y1 y2)
    (a * s1 + s2)
  = (Rlin a (fst (@filter_step RArith RLinalg xc yc gain (x1, y1) s1))
            (fst (@filter_step RArith RLinalg xc yc gain (x2, y2) s2)),
     Rlin a (snd (@filter_step RArith RLinalg xc yc gain (x1, y1) s1))
            (snd (@filter_step RArith RLinalg xc yc gain (x2, y2) s2))).
Proof.
  intros Hx Hy. unfold filter_step.
  cbn [fst snd np_dot RLinalg fadd fdiv RArith].
  change (@float RArith) with R.
  rewrite !Rlin_tl.
  pose proof (length_tl_eq x1 x2 Hx) as Hx'.
  pose proof (length_tl_eq y1 y2 Hy) as Hy'.
  replace ((a * s1 + s2) / gain) with (a * (s1 / gain) + s2 / gain)
    by (unfold Rdiv; ring).
  rewrite <- (Rlin_snoc a (tl x1) (tl x2) (s1 / gain) (s2 / gain) Hx').
  rewrite (Rdot_lin xc a (tl x1 ++ [s1 / gain]) (tl x2 ++ [s2 / gain]))
    by (rewrite !length_app; cbn [length]; lia).
  rewrite (Rdot_lin (but_last yc) a (tl y1) (tl y2) Hy').
  rewrite (Rlin_snoc a (tl y1) (tl y2) _ _ Hy').
  f_equal. f_equal. f_equal. ring.
Qed.

Lemma Rfilter_step_lengths (xc yc : list R) (gain : R)
    (x1 x2 y1 y2 : list R) (s1 s2 : R) :
  length x1 = length x2 -> length y1 = length y2 ->
  length (fst (@filter_step RArith RLinalg xc yc gain (x1, y1) s1))
  = length (fst (@filter_step RArith RLinalg xc yc gain (x2, y2) s2))
  /\ length (snd (@filter_step RArith RLinalg xc yc gain (x1, y1) s1))
     = length (snd (@filter_step RArith RLinalg xc yc gain (x2, y2) s2)).
Proof.
  intros Hx Hy. unfold filter_step. cbn [fst snd].
  change (@float RArith) with R.
  rewrite !length_app. cbn [length].
  rewrite (length_tl_eq x1 x2 Hx), (length_tl_eq y1 y2 Hy). now split.
Qed.

Lemma Rfilter_run_lin (xc yc : list R) (gain a : R) (s1 s2 : list R) :
  forall x1 x2 y1 y2 : list R,
  length s1 = length s2 ->
  length x1 = length x2 -> length y1 = length y2 ->
  @filter_run RArith RLinalg xc yc gain (Rlin a x1 x2, Rlin a y1 y2)
    (Rlin a s1 s2)
  = Rlin a (@filter_run RArith RLinalg xc yc gain (x1, y1) s1)
           (@filter_run RArith RLinalg xc yc gain (x2, y2) s2).
Proof.
  revert s2. induction s1 as [|p s1 IH]; intros [|q s2] x1 x2 y1 y2 Hs Hx Hy;
    try discriminate Hs; [reflexivity|].
  rewrite Rlin_cons. cbn [filter_run].
  rewrite (Rfilter_step_lin xc yc gain a x1 x2 y1 y2 p q Hx Hy).
  destruct (Rfilter_step_lengths xc yc gain x1 x2 y1 y2 p q Hx Hy)
    as [Hx' Hy'].
  destruct (@filter_step RArith RLinalg xc yc gain (x1, y1) p)
    as [x1' y1'] eqn:E1.
  destruct (@filter_step RArith RLinalg xc yc gain (x2, y2) q)
    as [x2' y2'] eqn:E2.
  cbn [fst snd] in *.
  rewrite (IH s2 x1' x2' y1' y2') by (try assumption; cbn [length] in Hs; lia).
  rewrite Rlin_cons. f_equal.
  assert (Ey1 : exists l v, y1' = l ++ [v]).
  { unfold filter_step in E1. apply pair_inj in E1. destruct E1 as [_ <-].
    eexists. eexists. reflexivity. }
  assert (Ey2 : exists l v, y2' = l ++ [v]).
  { unfold filter_step in E2. apply pair_inj in E2. destruct E2 as [_ <-].
    eexists. eexists. reflexivity. }
  destruct Ey1 as (l1 & v1 & ->). destruct Ey2 as (l2 & v2 & ->).
  change (@float RArith) with R in *.
  assert (Hl : length l1 = length l2)
    by (rewrite !length_app in Hy'; cbn [length] in Hy'; lia).
  rewrite (Rlin_snoc a l1 l2 v1 v2 Hl). rewrite !last_last. reflexivity.
Qed.

(** X13.  In exact arithmetic [apply_filter] is linear: the output for
    [a * s1 + s2] (two signals of the same length, element by element) is
    [a] times the output for [s1] plus the output for [s2].  The gain is
    supposed not to be zero (numpy divides by a zero gain with a warning
    and fills the buffers with [inf] and [nan]). *)
Theorem apply_filter_linear (mkf : MkFilter) (a : R)
    (s1 s2 out1 out2 : list R) :
  @get_gain RArith mkf <> 0 ->
  length s1 = length s2 ->
  @apply_filter RArith RLinalg s1 mkf = inr out1 ->
  @apply_filter RArith RLinalg s2 mkf = inr out2 ->
  @apply_filter RArith RLinalg (Rlin a s1 s2) mkf = inr (Rlin a out1 out2).
Proof.
  intros _ Hs H1 H2.
  destruct (@apply_filter_inr_coeffs RArith RLinalg s1 mkf out1 H1)
    as (xc & yc & Ex & Ey).
  destruct s1 as [|p s1], s2 as [|q s2]; try discriminate Hs.
  - pose proof (@apply_filter_nil RArith RLinalg mkf xc yc Ex Ey) as Hnil.
    pose proof (inr_inj _ _ (eq_trans (eq_sym H1) Hnil)) as E1.
    pose proof (inr_inj _ _ (eq_trans (eq_sym H2) Hnil)) as E2.
    subst out1 out2. exact Hnil.
  - destruct (@apply_filter_inr_nonempty RArith RLinalg p s1 mkf xc yc out1
                Ex Ey H1) as [Hx Hy].
    pose proof (@apply_filter_run RArith RLinalg (p :: s1) mkf xc yc Ex Ey
                  Hx Hy) as R1.
    pose proof (@apply_filter_run RArith RLinalg (q :: s2) mkf xc yc Ex Ey
                  Hx Hy) as R2.
    pose proof (inr_inj _ _ (eq_trans (eq_sym H1) R1)) as E1.
    pose proof (inr_inj _ _ (eq_trans (eq_sym H2) R2)) as E2.
    subst out1 out2.
    etransitivity;
      [exact (@apply_filter_run RArith RLinalg _ mkf xc yc Ex Ey Hx Hy)|].
    f_equal. rewrite Rf0. change (@float RArith) with R.
    transitivity
      (@filter_run RArith RLinalg xc yc (@get_gain RArith mkf)
         (Rlin a (repeat 0 (length xc)) (repeat 0 (length xc)),
          Rlin a (repeat 0 (length yc)) (repeat 0 (length yc)))
         (Rlin a (p :: s1) (q :: s2))).
    + now rewrite !Rlin_zeros.
    + apply Rfilter_run_lin; [exact Hs|reflexivity|reflexivity].
Qed.

Lemma Rfilter_step_zero (xc yc : list R) (gain : R) (m n : nat) :
  @filter_step RArith RLinalg xc yc gain (repeat 0 (S m), repeat 0 (S n)) 0
  = (repeat 0 (S m), repeat 0 (S n)).
Proof.
  unfold filter_step. cbn [fst snd repeat tl np_dot RLinalg fadd fdiv RArith].
  replace (0 / gain) with 0 by (unfold Rdiv; ring).
  rewrite <- !repeat_cons. cbn [repeat].
  change (0 :: repeat 0 m) with (repeat 0 (S m)).
  rewrite !Rdot_zeros. replace (0 + 0) with 0 by ring.
  now rewrite <- repeat_cons.
Qed.

Lemma Rfilter_run_zeros (xc yc : list R) (gain : R) (m n k : nat)
    (s : list R) :
  @filter_run RArith RLinalg xc yc gain (repeat 0 (S m), repeat 0 (S n))
    (repeat 0 k ++ s)
  = repeat 0 k
    ++ @filter_run RArith RLinalg xc yc gain (repeat 0 (S m), repeat 0 (S n)) s.
Proof.
  induction k as [|k IH]; [reflexivity|].
  change (repeat 0 (S k) ++ s) with (0 :: (repeat 0 k ++ s)).
  cbn [filter_run]. rewrite Rfilter_step_zero, IH. cbn [snd].
  change (repeat 0 (S k) ++ ?l) with (0 :: (repeat 0 k ++ l)).
  f_equal. change (@float RArith) with R.
  change (repeat 0 (S n)) with (0 :: repeat 0 n).
  rewrite repeat_cons. apply last_last.
Qed.

(** X14.  In exact arithmetic [apply_filter] is time-invariant from rest:
    [k] zero samples before a signal give [k] zero outputs followed by the
    outputs for the signal; a signal of zeros gives zeros.  The coefficient
    arrays are supposed not to be empty and the gain not to be zero. *)
Theorem apply_filter_delay (mkf : MkFilter) (xc yc : list R) (k : nat)
    (s : list R) :
  xcoeffs mkf = Some xc -> ycoeffs mkf = Some yc ->
  xc <> [] -> yc <> [] ->
  @get_gain RArith mkf <> 0 ->
  exists out,
    @apply_filter RArith RLinalg s mkf = inr out
    /\ @apply_filter RArith RLinalg (repeat 0 k ++ s) mkf
       = inr (repeat 0 k ++ out).
Proof.
  intros Ex Ey Hx Hy _.
  rewrite !(@apply_filter_run RArith RLinalg _ mkf xc yc Ex Ey Hx Hy).
  eexists. split; [reflexivity|]. f_equal. rewrite Rf0.
  destruct xc as [|x0 xc]; [congruence|].
  destruct yc as [|y0 yc]; [congruence|].
  cbn [length]. apply Rfilter_run_zeros.
Qed.

End ExactUsage.

(** ** [apply_filter] at concrete arguments *)

Section ExactUsageInstances.

Local Open Scope R_scope.

(** An object with the coefficients [[1.0]] and [[-1.0]] assigned by hand;
    its band type is [None], so [get_gain()] is [1.0]. *)
Local Abbreviation unit_filter :=
  (@set_ycoeffs RArith (@set_xcoeffs RArith MkFilter_init (Some [1]))
     (Some [-1])).

Lemma unit_filter_gain : @get_gain RArith unit_filter <> 0.
Proof.
  change (@get_gain RArith unit_filter) with (@f1 RArith). rewrite Rf1. lra.
Qed.

Lemma apply_filter_after_design_witness :
  exists v self' out,
    @design RArith MkFilter_init Bu Lp 4 (1 / 10) None (-1) true true
    = Ret v self'
    /\ @apply_filter RArith RLinalg [1; 2; 3] self' = inr out
    /\ length out = 3%nat.
Proof.
  destruct (@design_Bu_ret RArith MkFilter_init Lp 4 (1 / 10) None (-1)
              true true) as (xs & ys & self' & E).
  destruct (@apply_filter_after_design RArith RLinalg MkFilter_init Bu Lp 4
              (1 / 10) None (-1) true true (Some xs, Some ys) self' [1; 2; 3]
              E) as (out & H1 & H2).
  exists (Some xs, Some ys), self', out. split; [exact E|]. split; assumption.
Defined.

Lemma apply_filter_causal_witness :
  exists out,
    @apply_filter RArith RLinalg ([1; 2] ++ [3]) unit_filter = inr out
    /\ @apply_filter RArith RLinalg [1; 2] unit_filter
       = inr (firstn 2 out).
Proof.
  eexists. split.
  - apply (@apply_filter_run RArith RLinalg _ unit_filter [1] [-1]);
      [reflexivity|reflexivity|discriminate|discriminate].
  - apply (@apply_filter_causal RArith RLinalg [1; 2] [3] unit_filter).
    apply (@apply_filter_run RArith RLinalg _ unit_filter [1] [-1]);
      [reflexivity|reflexivity|discriminate|discriminate].
Defined.

Lemma apply_filter_recurrence_witness :
  exists out,
    @apply_filter RArith RLinalg [1; 2; 3] unit_filter = inr out
    /\ nth 1 out (@f0 RArith)
       = @fadd RArith
           (Rdot [1]
              (@window RArith 1
                 (map (fun s => s / @get_gain RArith unit_filter) [1; 2])))
           (Rdot [] (@window RArith 0 (firstn 1 out))).
Proof.
  eexists. split.
  - apply (@apply_filter_run RArith RLinalg _ unit_filter [1] [-1]);
      [reflexivity|reflexivity|discriminate|discriminate].
  - apply (@apply_filter_recurrence RArith RLinalg [1; 2; 3] unit_filter
             [1] [-1] _ 1%nat).
    + reflexivity.
    + reflexivity.
    + apply (@apply_filter_run RArith RLinalg _ unit_filter [1] [-1]);
        [reflexivity|reflexivity|discriminate|discriminate].
    + cbn [length]. lia.
Defined.

Lemma apply_filter_linear_witness :
  exists out1 out2,
    @apply_filter RArith RLinalg [1; 2] unit_filter = inr out1
    /\ @apply_filter RArith RLinalg [5; 7] unit_filter = inr out2
    /\ @apply_filter RArith RLinalg (Rlin 3 [1; 2] [5; 7]) unit_filter
       = inr (Rlin 3 out1 out2).
Proof.
  eexists. eexists. split; [|split].
  - apply (@apply_filter_run RArith RLinalg _ unit_filter [1] [-1]);
      [reflexivity|reflexivity|discriminate|discriminate].
  - apply (@apply_filter_run RArith RLinalg _ unit_filter [1] [-1]);
      [reflexivity|reflexivity|discriminate|discriminate].
  - apply (apply_filter_linear unit_filter 3 [1; 2] [5; 7]).
    + exact unit_filter_gain.
    + reflexivity.
    + apply (@apply_filter_run RArith RLinalg _ unit_filter [1] [-1]);
        [reflexivity|reflexivity|discriminate|discriminate].
    + apply (@apply_filter_run RArith RLinalg _ unit_filter [1] [-1]);
        [reflexivity|reflexivity|discriminate|discriminate].
Defined.

Lemma apply_filter_delay_witness :
  exists out,
    @apply_filter RArith RLinalg [1; 2] unit_filter = inr out
    /\ @apply_filter RArith RLinalg (repeat 0 3 ++ [1; 2]) unit_filter
       = inr (repeat 0 3 ++ out).
Proof.
  apply (apply_filter_delay unit_filter [1] [-1] 3 [1; 2]).
  - reflexivity.
  - reflexivity.
  - discriminate.
  - discriminate.
  - exact unit_filter_gain.
Defined.

End ExactUsageInstances.

(** ** The exit status of [main] *)

Section MainStatus.

Context {A : Arith}.

(** With arguments that pass the validation, [main] calls [design] on a new
    object. *)
Lemma main_calls_design (args : Args) (a1 : float) (rest : list float) :
  (1 <= arg_order args <= MAXORDER)%Z ->
  arg_alpha args = a1 :: rest ->
  length rest = (if is_band (arg_band_type args) [Bp; Bs]
                 then 1%nat else 0%nat) ->
  main args
  = (exit_status
       (design MkFilter_init (fst (main_filter args)) (arg_band_type args)
          (arg_order args) a1 (hd_error rest) (snd (main_filter args))
          (arg_use_blt args) (arg_prewarp args)),
     Some (design MkFilter_init (fst (main_filter args)) (arg_band_type args)
             (arg_order args) a1 (hd_error rest) (snd (main_filter args))
             (arg_use_blt args) (arg_prewarp args))).
Proof.
  intros Ho Ha Hl. unfold main.
  destruct (Z.ltb_spec (arg_order args) 1) as [|_]; [lia|].
  rewrite Z.gtb_ltb.
  destruct (Z.ltb_spec MAXORDER (arg_order args)) as [|_]; [lia|].
  cbn [orb]. rewrite Ha. unfold main_filter.
  destruct (arg_band_type args); cbn [is_band existsb orb andb] in *.
  all: destruct rest as [|a2 rest]; cbn [length] in Hl; try discriminate Hl.
  all: try (destruct rest; [|discriminate Hl]).
  all: cbn [length Nat.eqb negb andb Nat.ltb Nat.leb hd_error].
  all: change (getitem (a1 :: ?l) 0) with (@inr exn float a1).
  all: cbv beta iota.
  all: try change (getitem [a1; a2] 1) with (@inr exn float a2).
  all: cbn [rbind].
  all: destruct (arg_ftype args); cbn [fst snd];
    match goal with
    | |- context [design ?a ?b ?c ?d ?e ?f ?g ?h ?i] =>
        destruct (design a b c d e f g h i); reflexivity
    end.
Qed.

Lemma exit_status_design (self : MkFilter) ft bt n alpha1 alpha2 rip
    blt_flag prewarp_flag :
  exit_status (design self ft bt n alpha1 alpha2 rip blt_flag prewarp_flag)
  = match s_plane_poles ft n rip with
    | inl _ => 1%Z
    | inr _ => 0%Z
    end.
Proof.
  destruct (s_plane_poles ft n rip) as [e|ps] eqn:E.
  - destruct (design_raise self ft bt n alpha1 alpha2 rip blt_flag
                prewarp_flag e E) as (s1 & -> & _).
    reflexivity.
  - rewrite (design_ret self ft bt n alpha1 alpha2 rip blt_flag prewarp_flag
               ps E).
    reflexivity.
Qed.

(** X15.  From the command line, with an order in [1, MAXORDER] and the
    number of corner frequencies the band type asks for, a Butterworth or a
    Bessel design never fails: [main] reaches its output stage (status 0
    when the printing completes).  A Chebyshev design fails with status 1
    exactly when the ripple checks of [_compute_s_plane] raise. *)
Theorem main_exit_status (args : Args) (a1 : float) (rest : list float) :
  (1 <= arg_order args <= MAXORDER)%Z ->
  arg_alpha args = a1 :: rest ->
  length rest = (if is_band (arg_band_type args) [Bp; Bs]
                 then 1%nat else 0%nat) ->
  fst (main args)
  = match arg_ftype args with
    | Arg_Ch r =>
        match chebyshev_y r (arg_order args) with
        | inl _ => 1%Z
        | inr _ => 0%Z
        end
    | _ => 0%Z
    end.
Proof.
  intros Ho Ha Hl. rewrite (main_calls_design args a1 rest Ho Ha Hl).
  cbn [fst]. rewrite exit_status_design. unfold main_filter.
  destruct (arg_ftype args) as [| |r]; cbn [fst snd].
  - rewrite s_plane_poles_not_Ch by discriminate.
    unfold prototype_poles. cbn [filter_type_eqb orb rbind].
    destruct (butterworth_poles_ret (arg_order args) []) as [ps ->].
    reflexivity.
  - rewrite s_plane_poles_not_Ch by discriminate.
    unfold prototype_poles. cbn [filter_type_eqb orb].
    destruct (bessel_poles_small (arg_order args)) as [ps ->];
      [unfold MAXORDER in Ho; lia|].
    reflexivity.
  - destruct (s_plane_poles_Ch (arg_order args) r) as (ps & _ & ->).
    destruct (chebyshev_y r (arg_order args)); reflexivity.
Qed.

End MainStatus.

Section MainStatusInstances.

Local Open Scope R_scope.

Lemma main_exit_status_witness :
  fst (@main RArith (mkArgs Arg_Be Lp 3 [1 / 10] true true)) = 0%Z.
Proof.
  apply (@main_exit_status RArith
           (@mkArgs RArith Arg_Be Lp 3 [1 / 10] true true) (1 / 10) []).
  - cbn [arg_order]. unfold MAXORDER. lia.
  - reflexivity.
  - reflexivity.
Defined.

End MainStatusInstances.
